(** * Cast Duet solver: the position model, the move graph and the search

    A shallow embedding of [solver.js].  JavaScript numbers that the solver
    manipulates are small integers, modelled as [Z]; strings are [string];
    the objects used as dictionaries ([nodes], [connectsTo], [q]) are
    association lists kept in insertion order, because [for .. in] walks
    them in that order and Dijkstra's tie-break depends on it. *)

From Stdlib Require Import ZArith List String Ascii Bool Lia DecimalString DecimalZ DecimalPos.
Import ListNotations.
Open Scope string_scope.
Open Scope Z_scope.

(** ** Constants and names *)

Definition CastDuetTopologySketch : list string :=
  [ "+-H-----+-H---H-+-----H-+";
    "|       H       D       H";
    "|       |       |       |";
    "|       |       |       |";
    "+-D-----+-B---D-+-H-----+";
    "H       D       B       H";
    "|       |       |       |";
    "H       B       D       H";
    "+-----H-+-B---B-+-D-----+";
    "|       |       |       |";
    "|       |       |       |";
    "H       D       H       /";
    "+-B-----+-----D-+------/ " ].

(** [PegPosUp = "U"], [PegPosDown = "D"]: the only two values ever stored in
    [ring.pegPos]. *)
Inductive PegPos : Type := PegPosUp | PegPosDown.

Definition pegPosString (p : PegPos) : string :=
  match p with PegPosUp => "U" | PegPosDown => "D" end.

Definition PegPos_eqb (p q : PegPos) : bool :=
  match p, q with
  | PegPosUp, PegPosUp | PegPosDown, PegPosDown => true
  | _, _ => false
  end.

Definition FreeRingName : string := "FREE".

(** Number-to-string conversion of [+] on a string and an integer. *)
Definition numToString (z : Z) : string := NilZero.string_of_int (Z.to_int z).

Definition getCellName (col row : Z) : string :=
  "(" ++ numToString col ++ "," ++ numToString row ++ ")".

Definition positionToName (pegCol pegRow ringCol ringRow : Z) : string :=
  getCellName pegCol pegRow ++ "-" ++ getCellName ringCol ringRow.

Definition getRingName (pegPos : PegPos) (pegCol pegRow ringCol ringRow : Z) : string :=
  pegPosString pegPos ++ positionToName pegCol pegRow ringCol ringRow.

Definition isCellFree (col row : Z) : bool :=
  (col <=? 0) || (row <=? 0) || (col >=? 4) || (row >=? 4).

Definition Ring_isFree (pegCol pegRow ringCol ringRow : Z) : bool :=
  let pegPartFree := isCellFree pegCol pegRow in
  let ringPartFree := isCellFree ringCol ringRow in
  pegPartFree && ringPartFree.

(** (Half) ring information; [name] and [isFree] are computed by the
    constructor function [mkRing] below. *)
Record Ring : Type := Build_Ring {
  pegPos : PegPos;
  pegCol : Z;
  pegRow : Z;
  ringCol : Z;
  ringRow : Z;
  rotation : Z;
  ring_name : string;
  isFree : bool
}.

Definition mkRing (pegPos : PegPos) (pegCol pegRow ringCol ringRow rotation : Z) : Ring :=
  Build_Ring pegPos pegCol pegRow ringCol ringRow rotation
    (getRingName pegPos pegCol pegRow ringCol ringRow)
    (Ring_isFree pegCol pegRow ringCol ringRow).

Definition generateAllRingsForCell (pegCol pegRow : Z) : list Ring :=
  let push (ringCol ringRow rotation : Z) : list Ring :=
    [ mkRing PegPosUp pegCol pegRow ringCol ringRow rotation;
      mkRing PegPosDown pegCol pegRow ringCol ringRow rotation ] in
  push (pegCol-1) (pegRow-1) 0 ++
  push (pegCol-1) pegRow     1 ++
  push (pegCol-1) (pegRow+1) 2 ++
  push pegCol     (pegRow+1) 3 ++
  push (pegCol+1) (pegRow+1) 4 ++
  push (pegCol+1) pegRow     5 ++
  push (pegCol+1) (pegRow-1) 6 ++
  push pegCol     (pegRow-1) 7.

Definition getNodeName (pegPos : PegPos) (pegCol pegRow ringCol ringRow : Z) : string :=
  if Ring_isFree pegCol pegRow ringCol ringRow then FreeRingName
  else getRingName pegPos pegCol pegRow ringCol ringRow.

(** ** Dent lookup *)

(** [s[i]] for an index already known to be an integer; [None] is
    [undefined]. *)
Definition charAt (s : string) (i : Z) : option ascii :=
  if i <? 0 then None else String.get (Z.to_nat i) s.

Definition strLength (s : string) : Z := Z.of_nat (String.length s).

Definition rowAt (sketch : list string) (i : Z) : option string :=
  if i <? 0 then None else nth_error sketch (Z.to_nat i).

Definition getSketchDent (sketch : list string) (row col : Z) : option ascii :=
  let ok :=
    (row >=? 0) && (row <? Z.of_nat (List.length sketch)) && (col >=? 0) &&
    match rowAt sketch row with
    | Some line => col <? strLength line
    | None => false
    end in
  if ok then
    match rowAt sketch row with
    | Some line => charAt line col
    | None => None
    end
  else Some "B"%char.

(** The eight boundary slots of a cell. *)
Inductive DentName : Type := tl | tr | bl | br | lt | lb | rt | rb.

(** Sketch coordinates read for a slot of cell [(col,row)]. *)
Definition dentSketchPos (d : DentName) (col row : Z) : Z * Z :=
  let skTopRow := 12 - row*4 in
  let skBottomRow := skTopRow + 4 in
  let skLeftCol := (col-1)*8 in
  let skRightCol := skLeftCol + 8 in
  match d with
  | tl => (skTopRow, skLeftCol+2)
  | tr => (skTopRow, skRightCol-2)
  | bl => (skBottomRow, skLeftCol+2)
  | br => (skBottomRow, skRightCol-2)
  | lt => (skTopRow+1, skLeftCol)
  | lb => (skBottomRow-1, skLeftCol)
  | rt => (skTopRow+1, skRightCol)
  | rb => (skBottomRow-1, skRightCol)
  end.

Definition isDentChar (c : ascii) : bool :=
  Ascii.eqb c "D" || Ascii.eqb c "H" || Ascii.eqb c "B".

(** The [dents] object: a slot is mapped to its marker, and slots whose
    sketch character is not one of D, H, B have been deleted. *)
Definition getCellDentsIn (sketch : list string) (col row : Z) (d : DentName) : option ascii :=
  let '(r, c) := dentSketchPos d col row in
  match getSketchDent sketch r c with
  | Some dent => if isDentChar dent then Some dent else None
  | None => None
  end.

Definition getCellDents : Z -> Z -> DentName -> option ascii :=
  getCellDentsIn CastDuetTopologySketch.

(** ** Nodes and their connections *)

(** [+Infinity] or a hop count. *)
Inductive Dist : Type := Infinity | Hops (n : Z).

(** A graph node.  [ring] is [None] for the literal FREE node that
    [parseTopologySketch] starts with (its [ring] is the empty object).
    [connectsTo] lists the keys of the [connectsTo] object in insertion
    order.  [dist] and [prev] are the two properties Dijkstra's algorithm
    stores on the node; [None] is [undefined]. *)
Record Node : Type := Build_Node {
  ring : option Ring;
  name : string;
  connectsTo : list string;
  dist : option Dist;
  prev : option string
}.

Definition mkNode (r : Ring) : Node :=
  Build_Node (Some r)
    (getNodeName (pegPos r) (pegCol r) (pegRow r) (ringCol r) (ringRow r))
    [] None None.

(** [obj[key] = true] on an object used as a set of names. *)
Definition setAdd (key : string) (obj : list string) : list string :=
  if existsb (String.eqb key) obj then obj else obj ++ [key].

Definition setMem (key : string) (obj : list string) : bool :=
  existsb (String.eqb key) obj.

(** [x || 0] for an optional numeric argument. *)
Definition orZero (x : option Z) : Z :=
  match x with
  | Some v => if v =? 0 then 0 else v
  | None => 0
  end.

Definition dentOk (p : PegPos) (dent : option ascii) : bool :=
  match dent with
  | Some c =>
      (PegPos_eqb p PegPosUp && (Ascii.eqb c "D" || Ascii.eqb c "B")) ||
      (PegPos_eqb p PegPosDown && (Ascii.eqb c "H" || Ascii.eqb c "B"))
  | None => false
  end.

(** The squared peg-to-ring distance.  The source compares
    [Math.sqrt(d2)] with 0 and 2; for an integer [d2 >= 0] the correctly
    rounded square root satisfies [sqrt d2 > 0] iff [d2 > 0] and
    [sqrt d2 < 2] iff [d2 < 4], which is what [ringSizeOk] tests. *)
Definition distSq (c1 r1 c2 r2 : Z) : Z := (c1 - c2) * (c1 - c2) + (r1 - r2) * (r1 - r2).

Definition ringSizeOk (d2 : Z) : bool := (0 <? d2) && (d2 <? 4).

Section Connections.
Variable r : Ring.
Variable dents : DentName -> option ascii.

(** The inner function [connect] of [getNodeConnections], acting on the
    node's [connectsTo]. *)
Definition connect (dentName : DentName) (colDelta rowDelta : Z)
           (ringColDelta ringRowDelta : option Z) (cs : list string) : list string :=
  let newPegCol := pegCol r + colDelta in
  let newPegRow := pegRow r + rowDelta in
  let dent := dents dentName in
  let ringColDelta := orZero ringColDelta in
  let ringRowDelta := orZero ringRowDelta in
  if dentOk (pegPos r) dent then
    let targetNode := getNodeName (pegPos r) newPegCol newPegRow
                        (ringCol r + ringColDelta) (ringRow r + ringRowDelta) in
    setAdd targetNode cs
  else cs.

Definition rotate (d : DentName) (dc dr : Z) := connect d dc dr None None.
Definition slide (d : DentName) (dc dr rdc rdr : Z) := connect d dc dr (Some rdc) (Some rdr).

(** The [switch] on the rotation index. *)
Definition rotationMoves (ringPartFree : bool) (cs : list string) : list string :=
  let whenFree (f : list string -> list string) (cs : list string) :=
    if ringPartFree then f cs else cs in
  match rotation r with
  | 0 => rotate br 0 (-1) (rotate lt (-1) 0 cs)
  | 1 => whenFree (fun cs => slide bl 0 (-1) 0 (-1) (slide tl 0 1 0 1 cs))
           (rotate br 0 (-1) (rotate tr 0 1 cs))
  | 2 => rotate tr 0 1 (rotate lb (-1) 0 cs)
  | 3 => whenFree (fun cs => slide rt 1 0 1 0 (slide lt (-1) 0 (-1) 0 cs))
           (rotate rb 1 0 (rotate lb (-1) 0 cs))
  | 4 => rotate rb 1 0 (rotate tl 0 1 cs)
  | 5 => whenFree (fun cs => slide br 0 (-1) 0 (-1) (slide tr 0 1 0 1 cs))
           (rotate bl 0 (-1) (rotate tl 0 1 cs))
  | 6 => rotate bl 0 (-1) (rotate rt 1 0 cs)
  | 7 => whenFree (fun cs => slide rb 1 0 1 0 (slide lb (-1) 0 (-1) 0 cs))
           (rotate rt 1 0 (rotate lt (-1) 0 cs))
  | _ => cs
  end.

(** One pass of the body of the double loop over [x], [y]. *)
Definition freeRotationStep (cs : list string) (xy : Z * Z) : list string :=
  let '(x, y) := xy in
  if (x =? 0) && (y =? 0) then cs
  else
    let newRingCol := ringCol r + x in
    let newRingRow := ringRow r + y in
    let pegRingDistanceSq := distSq (pegCol r) (pegRow r) newRingCol newRingRow in
    if isCellFree newRingCol newRingRow && ringSizeOk pegRingDistanceSq then
      setAdd (getNodeName (pegPos r) (pegCol r) (pegRow r) newRingCol newRingRow) cs
    else cs.

(** The pairs [(x,y)] in the order the nested loops visit them. *)
Definition loopDeltas : list (Z * Z) :=
  flat_map (fun x => map (fun y => (x, y)) [-1; 0; 1]) [-1; 0; 1].

Definition flipPegPos (p : PegPos) : PegPos :=
  match p with PegPosDown => PegPosUp | PegPosUp => PegPosDown end.

Definition flipTarget : string :=
  getNodeName (flipPegPos (pegPos r)) (ringCol r) (ringRow r) (pegCol r) (pegRow r).

(** The body of [getNodeConnections] once [dents] is known. *)
Definition nodeConnectionsWith (cs : list string) : list string :=
  let ringPartFree := isCellFree (ringCol r) (ringRow r) in
  let cs := rotationMoves ringPartFree cs in
  let cs := if ringPartFree then fold_left freeRotationStep loopDeltas cs else cs in
  setAdd flipTarget cs.

(** *** The [connect] calls of the [switch], as a table *)

(** One candidate move: the tested slot, the peg shift and, for a slide
    move, the ring shift passed as fourth and fifth argument. *)
Record Move : Type := Build_Move {
  slot : DentName;
  colDelta : Z;
  rowDelta : Z;
  slideDelta : option (Z * Z)
}.

Definition rotateMove (d : DentName) (dc dr : Z) : Move := Build_Move d dc dr None.
Definition slideMove (d : DentName) (dc dr rdc rdr : Z) : Move :=
  Build_Move d dc dr (Some (rdc, rdr)).

Definition candidateMoves (rotation : Z) (ringPartFree : bool) : list Move :=
  let slides (l : list Move) := if ringPartFree then l else [] in
  match rotation with
  | 0 => [rotateMove lt (-1) 0; rotateMove br 0 (-1)]
  | 1 => [rotateMove tr 0 1; rotateMove br 0 (-1)] ++
         slides [slideMove tl 0 1 0 1; slideMove bl 0 (-1) 0 (-1)]
  | 2 => [rotateMove lb (-1) 0; rotateMove tr 0 1]
  | 3 => [rotateMove lb (-1) 0; rotateMove rb 1 0] ++
         slides [slideMove lt (-1) 0 (-1) 0; slideMove rt 1 0 1 0]
  | 4 => [rotateMove tl 0 1; rotateMove rb 1 0]
  | 5 => [rotateMove tl 0 1; rotateMove bl 0 (-1)] ++
         slides [slideMove tr 0 1 0 1; slideMove br 0 (-1) 0 (-1)]
  | 6 => [rotateMove rt 1 0; rotateMove bl 0 (-1)]
  | 7 => [rotateMove lt (-1) 0; rotateMove rt 1 0] ++
         slides [slideMove lb (-1) 0 (-1) 0; slideMove rb 1 0 1 0]
  | _ => []
  end.

(** The call [connect(slot, colDelta, rowDelta, ...)] made for a move. *)
Definition applyMove (mv : Move) (cs : list string) : list string :=
  connect (slot mv) (colDelta mv) (rowDelta mv)
          (option_map fst (slideDelta mv)) (option_map snd (slideDelta mv)) cs.

(** The ring shift of a move: its slide delta, 0 for a rotation. *)
Definition ringShift (mv : Move) : Z * Z :=
  match slideDelta mv with Some d => d | None => (0, 0) end.

End Connections.

(** [getNodeConnections(node)]: updates [node.connectsTo]; a node without
    ring data has no [pegCol] and nothing is modelled for it (the builder
    never calls it on such a node). *)
Definition getNodeConnections (node : Node) : Node :=
  match ring node with
  | Some r =>
      let dents := getCellDents (pegCol r) (pegRow r) in
      Build_Node (ring node) (name node) (nodeConnectionsWith r dents (connectsTo node))
                 (dist node) (prev node)
  | None => node
  end.

(** ** The node table *)

Definition Graph : Type := list (string * Node).

Fixpoint lookup (key : string) (g : Graph) : option Node :=
  match g with
  | [] => None
  | (k, n) :: g' => if String.eqb key k then Some n else lookup key g'
  end.

(** [nodes[key] = n]: replaces the value of an existing key in place,
    otherwise appends the key. *)
Fixpoint assign (key : string) (n : Node) (g : Graph) : Graph :=
  match g with
  | [] => [(key, n)]
  | (k, m) :: g' => if String.eqb key k then (k, n) :: g' else (k, m) :: assign key n g'
  end.

(** In-place update of the object stored under [key]. *)
Fixpoint update (key : string) (f : Node -> Node) (g : Graph) : Graph :=
  match g with
  | [] => []
  | (k, m) :: g' => if String.eqb key k then (k, f m) :: g' else (k, m) :: update key f g'
  end.

Definition keys (g : Graph) : list string := map fst g.

Definition addConnection (target : string) (n : Node) : Node :=
  Build_Node (ring n) (name n) (setAdd target (connectsTo n)) (dist n) (prev n).

Definition cellRange : list Z := [0; 1; 2; 3; 4].

Definition allCells : list (Z * Z) :=
  flat_map (fun col => map (fun row => (col, row)) cellRange) cellRange.

Definition generateNodes (nodes : Graph) : Graph :=
  fold_left
    (fun nodes cell =>
       fold_left (fun nodes r => let node := mkNode r in assign (name node) node nodes)
                 (generateAllRingsForCell (fst cell) (snd cell)) nodes)
    allCells nodes.

(** Body of the [for (var n in nodes)] loop. *)
Definition connectNode (nodes : Graph) (n : string) : Graph :=
  if String.eqb n FreeRingName then nodes
  else
    match lookup n nodes with
    | Some node =>
        let node' := getNodeConnections node in
        let nodes := update n (fun _ => node') nodes in
        if setMem "FREE" (connectsTo node')
        then update "FREE" (addConnection (name node')) nodes
        else nodes
    | None => nodes
    end.

Definition parseTopologySketch : Graph :=
  let nodes := [(FreeRingName, Build_Node None FreeRingName [] None None)] in
  let nodes := generateNodes nodes in
  fold_left connectNode (keys nodes) nodes.

Definition CastDuetGraphNodes : Graph := parseTopologySketch.


(** ** Parsing positions *)

(** The object returned by [parsePosition]: [{isFree: true}] or the
    descriptor with the five captured fields. *)
Inductive Position : Type :=
| PosFree
| PosRing (pegPos : PegPos) (pegCol pegRow ringCol ringRow : Z).

Definition parsePegPos (c : ascii) : option PegPos :=
  if Ascii.eqb c "U" then Some PegPosUp
  else if Ascii.eqb c "D" then Some PegPosDown
  else None.

(** The character class [[0-4]] followed by [parseInt]. *)
Definition parseDigit04 (c : ascii) : option Z :=
  let n := Z.of_N (N_of_ascii c) in
  if (48 <=? n) && (n <=? 52) then Some (n - 48) else None.

Definition isChar (c expected : ascii) : bool := Ascii.eqb c expected.

(** The match of [/^([UD])\(([0-4]),([0-4])\)-\(([0-4]),([0-4])\)$/]:
    the five capture groups, already converted. *)
Definition posCheck (s : string) : option (PegPos * Z * Z * Z * Z) :=
  match list_ascii_of_string s with
  | [p; o1; a; c1; b; e1; h; o2; c; c2; d; e2] =>
      if isChar o1 "(" && isChar c1 "," && isChar e1 ")" && isChar h "-" &&
         isChar o2 "(" && isChar c2 "," && isChar e2 ")"
      then
        match parsePegPos p, parseDigit04 a, parseDigit04 b, parseDigit04 c, parseDigit04 d with
        | Some p, Some a, Some b, Some c, Some d => Some (p, a, b, c, d)
        | _, _, _, _, _ => None
        end
      else None
  | _ => None
  end.

Definition parsePosition (positionAsString : string) : option Position :=
  if String.eqb positionAsString "FREE" then Some PosFree
  else
    match posCheck positionAsString with
    | Some (p, pc, pr, rc, rr) =>
        let ringSizeSq := distSq pr pc rr rc in
        if ringSizeOk ringSizeSq then Some (PosRing p pc pr rc rr) else None
    | None => None
    end.

(** The canonical name of a parsed descriptor: the literal FREE, or the
    ring name built by [getRingName]. *)
Definition encodePosition (pos : Position) : string :=
  match pos with
  | PosFree => FreeRingName
  | PosRing p pc pr rc rr => getRingName p pc pr rc rr
  end.

(** ** Execution over the shared node table *)

(** How a piece of code ends: normally with a value, with a [TypeError]
    (a property read or written on [undefined]), or still running when the
    step budget of the model ran out. *)
Inductive Completion (A : Type) : Type :=
| Normal (a : A)
| TypeError
| Unfinished.
Arguments Normal {A} a.
Arguments TypeError {A}.
Arguments Unfinished {A}.

Definition Exec (A : Type) : Type := Graph -> Completion A * Graph.

Definition ret {A} (a : A) : Exec A := fun g => (Normal a, g).
Definition throw {A} : Exec A := fun g => (TypeError, g).
Definition bind {A B} (m : Exec A) (k : A -> Exec B) : Exec B :=
  fun g =>
    match m g with
    | (Normal a, g') => k a g'
    | (TypeError, g') => (TypeError, g')
    | (Unfinished, g') => (Unfinished, g')
    end.

Notation "x <- m ;; k" := (bind m (fun x => k))
  (at level 61, m at next level, right associativity).
Notation "m ;;; k" := (bind m (fun _ => k))
  (at level 61, right associativity).

(** [nodes[n].field]: a [TypeError] when [nodes[n]] is [undefined]. *)
Definition readField {A} (field : Node -> A) (n : string) : Exec A :=
  fun g =>
    match lookup n g with
    | Some node => (Normal (field node), g)
    | None => (TypeError, g)
    end.

(** [nodes[n].field = v], written as the change [f] of the node. *)
Definition writeField (f : Node -> Node) (n : string) : Exec unit :=
  fun g =>
    match lookup n g with
    | Some _ => (Normal tt, update n f g)
    | None => (TypeError, g)
    end.

Definition nodeKeys : Exec (list string) := fun g => (Normal (keys g), g).

Definition withDist (d : option Dist) (n : Node) : Node :=
  Build_Node (ring n) (name n) (connectsTo n) d (prev n).
Definition withPrev (p : option string) (n : Node) : Node :=
  Build_Node (ring n) (name n) (connectsTo n) (dist n) p.

Fixpoint foldM {A S} (body : S -> A -> Exec S) (l : list A) (s : S) : Exec S :=
  match l with
  | [] => ret s
  | a :: l' => s' <- body s a ;; foldM body l' s'
  end.

(** ** Dijkstra's algorithm *)

(** [a < b] on numbers that are [+Infinity] or integers. *)
Definition distLt (a b : Dist) : bool :=
  match a, b with
  | Hops x, Hops y => x <? y
  | Hops _, Infinity => true
  | Infinity, _ => false
  end.

(** [a < b] when [a] may be [undefined] (the comparison is then false). *)
Definition optDistLt (a : option Dist) (b : Dist) : bool :=
  match a with Some a => distLt a b | None => false end.

Definition distLtOpt (a : Dist) (b : option Dist) : bool :=
  match b with Some b => distLt a b | None => false end.

Definition distSucc (d : Dist) : Dist :=
  match d with Hops x => Hops (x + 1) | Infinity => Infinity end.

(** Truthiness of a value that is a string or [undefined]. *)
Definition truthy (s : option string) : bool :=
  match s with
  | Some s => negb (String.eqb s "")
  | None => false
  end.

Definition setRemove (key : string) (obj : list string) : list string :=
  filter (fun k => negb (String.eqb key k)) obj.

(** Initialize list of unvisited nodes. *)
Definition initUnvisited : Exec (list string * nat) :=
  ks <- nodeKeys ;;
  foldM (fun (st : list string * nat) n =>
           writeField (withDist (Some Infinity)) n ;;;
           writeField (withPrev None) n ;;;
           ret (setAdd n (fst st), S (snd st)))
        ks ([], O).

(** Find the node [u] with the minimum distance. *)
Definition findMin (q : list string) : Exec (Dist * option string) :=
  foldM (fun (st : Dist * option string) n =>
           d <- readField dist n ;;
           if optDistLt d (fst st) then
             match d with
             | Some d => ret (d, Some n)
             | None => ret st
             end
           else ret st)
        q (Infinity, None).

(** Scan neighbors [v] of [u]. *)
Definition relax (u : string) (u_dist : Dist) : Exec unit :=
  vs <- readField connectsTo u ;;
  foldM (fun (_ : unit) v =>
           let alt := distSucc u_dist in
           d <- readField dist v ;;
           if distLtOpt alt d then
             writeField (withDist (Some alt)) v ;;;
             writeField (withPrev (Some u)) v
           else ret tt)
        vs tt.

(** The [while (qlen > 0)] loop; the result is [true] when the loop ends
    and [nodes] is returned, [false] on the early [return]. *)
Fixpoint dijkstraLoop (qlen : nat) (q : list string) : Exec bool :=
  match qlen with
  | O => ret true
  | S qlen' =>
      st <- findMin q ;;
      let u_dist := fst st in
      let u := snd st in
      if truthy u then
        match u with
        | Some u =>
            relax u u_dist ;;;
            dijkstraLoop qlen' (setRemove u q)
        | None => ret false
        end
      else ret false
  end.

Definition dijkstra (sourceNode : string) : Exec bool :=
  st <- initUnvisited ;;
  writeField (withDist (Some (Hops 0))) sourceNode ;;;
  dijkstraLoop (snd st) (fst st).

(** ** Solving *)

(** The [while (node.prev)] loop of [findSolution]; [node] is the object
    the variable refers to, or [None] for [undefined].  The table is only
    read.  [fuel] bounds the number of times the loop body runs. *)
Fixpoint walkBack (fuel : nat) (g : Graph) (node : option Node) (solution : list string)
  : Completion (list string) :=
  match node with
  | None => TypeError
  | Some n =>
      if truthy (prev n) then
        match prev n with
        | Some p =>
            match fuel with
            | O => Unfinished
            | S fuel' => walkBack fuel' g (lookup p g) (p :: solution)
            end
        | None => Normal solution
        end
      else Normal solution
  end.

(** [findSolution]; the result [None] is [undefined].  The loop over
    [prev] may run its body once per node of the table, which
    [findSolution_finishes] shows is always enough. *)
Definition findSolution (startPosition targetPosition : string) : Exec (option (list string)) :=
  match parsePosition startPosition, parsePosition targetPosition with
  | Some _, Some _ =>
      dijkstra startPosition ;;;
      (fun g =>
         match walkBack (List.length g) g (lookup targetPosition g) [targetPosition] with
         | Normal solution => (Normal (Some solution), g)
         | TypeError => (TypeError, g)
         | Unfinished => (Unfinished, g)
         end)
  | _, _ => ret None
  end.

(** ** Specification-side notions *)

(** A cell is outside the frame when either coordinate is [<= 0] or
    [>= 4]. *)
Definition outsideFrame (col row : Z) : Prop :=
  col <= 0 \/ col >= 4 \/ row <= 0 \/ row >= 4.

(** The grammar of position strings, character by character. *)
Definition isOrientationChar (c : ascii) : Prop := c = "U"%char \/ c = "D"%char.

Definition isCoordChar (c : ascii) : Prop :=
  c = "0"%char \/ c = "1"%char \/ c = "2"%char \/ c = "3"%char \/ c = "4"%char.

Definition patternString (p a b c d : ascii) : string :=
  String p (String "(" (String a (String "," (String b (String ")" (String "-"
    (String "(" (String c (String "," (String d (String ")" EmptyString))))))))))).

Definition matchesPattern (s : string) : Prop :=
  exists p a b c d,
    isOrientationChar p /\ isCoordChar a /\ isCoordChar b /\ isCoordChar c /\ isCoordChar d /\
    s = patternString p a b c d.

Definition coordValue (c : ascii) : Z := Z.of_N (N_of_ascii c) - 48.

Definition orientationOf (c : ascii) : PegPos :=
  if Ascii.eqb c "U" then PegPosUp else PegPosDown.

(** Peg cell [(a,b)] and ring cell [(c,d)] at Euclidean distance strictly
    between 0 and 2, on the square of the distance. *)
Definition validGeometry (a b c d : Z) : Prop :=
  0 < (a - c) ^ 2 + (b - d) ^ 2 < 4.

(** A marker that lets a peg of the given orientation through. *)
Definition markerCompatible (p : PegPos) (m : option ascii) : Prop :=
  match p with
  | PegPosUp => m = Some "D"%char \/ m = Some "B"%char
  | PegPosDown => m = Some "H"%char \/ m = Some "B"%char
  end.

(** A path of one or more [connectsTo] edges, each leaving a node of the
    table. *)
Inductive reaches (g : Graph) : string -> string -> Prop :=
| reaches_edge (a b : string) (node : Node) :
    lookup a g = Some node -> In b (connectsTo node) -> reaches g a b
| reaches_step (a b c : string) (node : Node) :
    lookup a g = Some node -> In b (connectsTo node) -> reaches g b c -> reaches g a c.

(** *** Decision procedures run on the built graph *)

(** One sweep over the table: a node with an edge into [R] joins [R]. *)
Definition growStep (g : Graph) (R : list string) : list string :=
  fold_left
    (fun R k =>
       match lookup k g with
       | Some node => if existsb (fun m => setMem m R) (connectsTo node) then setAdd k R else R
       | None => R
       end)
    (keys g) R.

Fixpoint grow (rounds : nat) (g : Graph) (R : list string) : list string :=
  match rounds with
  | O => R
  | S rounds' => grow rounds' g (growStep g R)
  end.

Definition allReachFree (rounds : nat) (g : Graph) : bool :=
  let R := grow rounds g [FreeRingName] in
  forallb (fun k => setMem k R) (keys g).

(** One sweep over the table: the neighbours of a node of [R] join [R]. *)
Definition spreadStep (g : Graph) (R : list string) : list string :=
  fold_left
    (fun R k =>
       if setMem k R then
         match lookup k g with
         | Some node => fold_left (fun R v => setAdd v R) (connectsTo node) R
         | None => R
         end
       else R)
    (keys g) R.

Fixpoint spread (rounds : nat) (g : Graph) (R : list string) : list string :=
  match rounds with
  | O => R
  | S rounds' => spread rounds' g (spreadStep g R)
  end.

Definition allReachedFromFree (rounds : nat) (g : Graph) : bool :=
  let R := spread rounds g [FreeRingName] in
  forallb (fun k => setMem k R) (keys g).

Definition isKey (g : Graph) (k : string) : bool :=
  match lookup k g with Some _ => true | None => false end.

(** The rings the builder enumerates, cell by cell. *)
Definition allRings : list Ring :=
  flat_map (fun cell => generateAllRingsForCell (fst cell) (snd cell)) allCells.

(** A name is a key of the table, and is FREE or the name of an enumerated
    ring that is not free. *)
Definition edgeTargetOk (g : Graph) (m : string) : bool :=
  isKey g m &&
  (String.eqb m FreeRingName ||
   existsb (fun r => String.eqb m (ring_name r) && negb (isFree r)) allRings).

Definition adjacencyClosed (g : Graph) : bool :=
  forallb (fun kn => forallb (edgeTargetOk g) (connectsTo (snd kn))) g.



Definition moveDestination (r : Ring) (mv : Move) : string :=
  getNodeName (pegPos r) (pegCol r + colDelta mv) (pegRow r + rowDelta mv)
              (ringCol r + fst (ringShift mv)) (ringRow r + snd (ringShift mv)).

(** The test and the target of one pass of the free-rotation loop. *)
Definition freeRotationOk (r : Ring) (xy : Z * Z) : bool :=
  negb ((fst xy =? 0) && (snd xy =? 0)) &&
  isCellFree (ringCol r + fst xy) (ringRow r + snd xy) &&
  ringSizeOk (distSq (pegCol r) (pegRow r) (ringCol r + fst xy) (ringRow r + snd xy)).

Definition freeRotationTarget (r : Ring) (xy : Z * Z) : string :=
  getNodeName (pegPos r) (pegCol r) (pegRow r) (ringCol r + fst xy) (ringRow r + snd xy).

(** The adjacency stored in a node is what [getNodeConnections] computes
    from an empty set. *)
Definition connectionsOk (kn : string * Node) : bool :=
  String.eqb (fst kn) FreeRingName ||
  match ring (snd kn) with
  | Some r =>
      if list_eq_dec string_dec (connectsTo (snd kn))
                     (nodeConnectionsWith r (getCellDents (pegCol r) (pegRow r)) [])
      then true else false
  | None => false
  end.


(** *** What a search leaves untouched *)

(** The part of a node that the builder wrote: its ring, its name and its
    adjacency. *)
Definition frameOf (n : Node) : option Ring * string * list string :=
  (ring n, name n, connectsTo n).

(** The table with every node cut down to that part, keys in order. *)
Definition skeleton (g : Graph) : list (string * (option Ring * string * list string)) :=
  map (fun kn => (fst kn, frameOf (snd kn))) g.

(** A computation that leaves the skeleton of the table as it found it and
    never exhausts a step budget. *)
Definition tame {A} (m : Exec A) : Prop :=
  forall g, skeleton (snd (m g)) = skeleton g /\ fst (m g) <> Unfinished.

(** *** Reasoning about runs *)

(** [triple P m Q]: run from a table satisfying [P], [m] does not exhaust
    a step budget, and when it completes normally with [a] the table
    satisfies [Q a].  Nothing is promised after a [TypeError]. *)
Definition triple {A} (P : Graph -> Prop) (m : Exec A) (Q : A -> Graph -> Prop) : Prop :=
  forall g, P g ->
    match m g with
    | (Normal a, g') => Q a g'
    | (TypeError, _) => True
    | (Unfinished, _) => False
    end.

(** [a] has an edge to [b]. *)
Definition edge (g : Graph) (a b : string) : Prop :=
  exists node, lookup a g = Some node /\ In b (connectsTo node).

(** Each name in the list has an edge to the next. *)
Fixpoint isPath (g : Graph) (l : list string) : Prop :=
  match l with
  | a :: ((b :: _) as rest) => edge g a b /\ isPath g rest
  | _ => True
  end.

(** The state of a search from [s]: every finite distance lies in
    [0, k]; a node with a predecessor has a finite distance strictly above
    that of its predecessor, which is a node of the table with an edge to
    it; and only [s] has a finite distance without a predecessor. *)
Definition ranked (s : string) (k : Z) (g : Graph) : Prop :=
  (forall n node d, lookup n g = Some node -> dist node = Some (Hops d) -> 0 <= d <= k) /\
  (forall n node p, lookup n g = Some node -> prev node = Some p ->
     exists dn nodeP dp,
       dist node = Some (Hops dn) /\ lookup p g = Some nodeP /\
       dist nodeP = Some (Hops dp) /\ dp < dn /\
       In n (connectsTo nodeP) /\ truthy (Some p) = true) /\
  (forall n node d, lookup n g = Some node -> dist node = Some (Hops d) ->
                    prev node = None -> n = s).

(** The node [n] has a finite distance. *)
Definition finiteAt (g : Graph) (n : string) : Prop :=
  exists node d, lookup n g = Some node /\ dist node = Some (Hops d).

(** The state of a search from [s] with [q] still unvisited: every
    distance is set, [s] is at a finite distance, every visited node is
    too, and so is every neighbour of a visited node. *)
Definition settled (s : string) (q : list string) (g : Graph) : Prop :=
  (forall n node, lookup n g = Some node -> dist node <> None) /\
  finiteAt g s /\
  (forall n, In n (keys g) -> ~ In n q -> finiteAt g n) /\
  (forall n node v, lookup n g = Some node -> ~ In n q ->
                    In v (connectsTo node) -> finiteAt g v).

(** The nodes at a finite distance include [s] and every neighbour of
    one of them. *)
Definition explored (s : string) (g : Graph) : Prop :=
  finiteAt g s /\
  forall n node v, lookup n g = Some node -> finiteAt g n ->
                   In v (connectsTo node) -> finiteAt g v.

(** Every name in an adjacency set is a key of the table. *)
Definition closed (g : Graph) : Prop :=
  forall n node v, lookup n g = Some node -> In v (connectsTo node) -> In v (keys g).

(** [runsOk g0 m Q]: from any table with the skeleton of [g0], [m]
    completes normally, keeps that skeleton and returns a value
    satisfying [Q]. *)
Definition runsOk {A} (g0 : Graph) (m : Exec A) (Q : A -> Prop) : Prop :=
  forall g, skeleton g = skeleton g0 ->
    exists a g', m g = (Normal a, g') /\ skeleton g' = skeleton g0 /\ Q a.

(** *** Shortest distances *)

(** The node [n] is at distance [d]. *)
Definition distAt (g : Graph) (n : string) (d : Z) : Prop :=
  exists node, lookup n g = Some node /\ dist node = Some (Hops d).

(** What holds of the distances whenever the loop of [dijkstra] is about
    to scan [q]: the visited nodes (keys outside [q]) are at finite
    distances no larger than those of the nodes of [q]; an edge out of a
    visited node raises the distance by at most one; and a predecessor is
    a visited node exactly one step closer. *)
Definition optimal (s : string) (q : list string) (g : Graph) : Prop :=
  (forall n node, lookup n g = Some node -> dist node <> None) /\
  distAt g s 0 /\
  (forall n d, distAt g n d -> 0 <= d) /\
  (forall a b da db, ~ In a q -> In b q -> distAt g a da -> distAt g b db -> da <= db) /\
  (forall a, In a (keys g) -> ~ In a q -> exists da, distAt g a da) /\
  (forall a nodeA b, lookup a g = Some nodeA -> ~ In a q ->
                     In b (connectsTo nodeA) -> In b (keys g) ->
                     exists da db, dist nodeA = Some (Hops da) /\ distAt g b db /\ db <= da + 1) /\
  (forall w nodeW p, lookup w g = Some nodeW -> prev nodeW = Some p ->
                     ~ In p q /\ exists dp, distAt g p dp /\ dist nodeW = Some (Hops (dp + 1))).

(** The same while the edges of [u], the minimum of [q] at distance
    [du], are being relaxed. *)
Definition relaxing (s u : string) (du : Z) (q : list string) (g : Graph) : Prop :=
  (forall n node, lookup n g = Some node -> dist node <> None) /\
  distAt g s 0 /\
  (forall n d, distAt g n d -> 0 <= d) /\
  distAt g u du /\
  (forall a da, ~ In a q -> distAt g a da -> da <= du) /\
  (forall b db, In b q -> distAt g b db -> du <= db) /\
  (forall a, In a (keys g) -> ~ In a q -> exists da, distAt g a da) /\
  (forall a nodeA b, lookup a g = Some nodeA -> ~ In a q ->
                     In b (connectsTo nodeA) -> In b (keys g) ->
                     exists da db, dist nodeA = Some (Hops da) /\ distAt g b db /\ db <= da + 1) /\
  (forall w nodeW p, lookup w g = Some nodeW -> prev nodeW = Some p ->
                     (~ In p q \/ p = u) /\
                     exists dp, distAt g p dp /\ dist nodeW = Some (Hops (dp + 1))).

(** What holds of the distances when [dijkstra] completes. *)
Definition shortest (s : string) (g : Graph) : Prop :=
  distAt g s 0 /\
  (forall n d, distAt g n d -> 0 <= d) /\
  (forall a nodeA da b, lookup a g = Some nodeA -> dist nodeA = Some (Hops da) ->
                        In b (connectsTo nodeA) -> In b (keys g) ->
                        exists db, distAt g b db /\ db <= da + 1) /\
  (forall w nodeW p, lookup w g = Some nodeW -> prev nodeW = Some p ->
                     exists dp, distAt g p dp /\ dist nodeW = Some (Hops (dp + 1))).

(** A node as the initialisation loop of [dijkstra] leaves it. *)
Definition resetNode (n : Node) : Node := withPrev None (withDist (Some Infinity) n).

Definition resetAll (g : Graph) : Graph := map (fun kn => (fst kn, resetNode (snd kn))) g.

(** A three-node table, fresh and as an earlier search could have left
    it. *)
Definition smallTable (d1 d2 d3 : option Dist) (p1 p2 p3 : option string) : Graph :=
  [("FREE", Build_Node None "FREE" ["U(1,1)-(0,1)"] d1 p1);
   ("U(1,1)-(0,1)", Build_Node None "U(1,1)-(0,1)" ["FREE"; "D(0,1)-(1,1)"] d2 p2);
   ("D(0,1)-(1,1)", Build_Node None "D(0,1)-(1,1)" ["U(1,1)-(0,1)"] d3 p3)].

(** *** The node set and the edges of the built graph *)

(** A string names a node: it parses to FREE, or to a placement that is
    not wholly outside the frame. *)
Definition isNodeString (s : string) : bool :=
  match parsePosition s with
  | Some PosFree => true
  | Some (PosRing p pc pr rc rr) => negb (Ring_isFree pc pr rc rr)
  | None => false
  end.

(** FREE and the names of the enumerated rings that are not free, in the
    order the builder meets them. *)
Definition nodeNames : list string :=
  FreeRingName :: map ring_name (filter (fun r => negb (isFree r)) allRings).

Fixpoint distinct (l : list string) : bool :=
  match l with
  | [] => true
  | x :: l' => negb (setMem x l') && distinct l'
  end.

Definition nodeDataOk (kn : string * Node) : bool :=
  String.eqb (name (snd kn)) (fst kn) &&
  (String.eqb (fst kn) FreeRingName ||
   match ring (snd kn) with
   | Some r => String.eqb (ring_name r) (fst kn) && negb (isFree r)
   | None => false
   end).

(** Every edge has its reverse. *)
Definition edgesSymmetric (g : Graph) : bool :=
  forallb (fun kn =>
             forallb (fun b => match lookup b g with
                               | Some nb => setMem (fst kn) (connectsTo nb)
                               | None => false
                               end)
                     (connectsTo (snd kn))) g.

(** Every name [getNodeConnections] can add for a ring, whatever the
    markers are: the destinations of its candidate moves, of its free
    rotations and of its flip. *)
Definition destinations (r : Ring) : list string :=
  (map (moveDestination r) (candidateMoves (rotation r) (isCellFree (ringCol r) (ringRow r))) ++
   map (freeRotationTarget r) (filter (freeRotationOk r) loopDeltas) ++ [flipTarget r])%list.

Definition destinationsNamed (rs : list Ring) : bool :=
  forallb (fun r => forallb (fun x => setMem x nodeNames) (destinations r)) rs.

(** Integers that a JavaScript number holds exactly and prints in plain
    decimal notation. *)
Definition safeInteger (z : Z) : Prop := - 9007199254740991 <= z <= 9007199254740991.

(** The characters of a printed integer. *)
Definition isNumberChar (c : ascii) : bool :=
  Ascii.eqb c "-" || ((48 <=? Z.of_N (N_of_ascii c)) && (Z.of_N (N_of_ascii c) <=? 57)).

Fixpoint allChars (f : ascii -> bool) (s : string) : bool :=
  match s with
  | EmptyString => true
  | String c s' => f c && allChars f s'
  end.

(** A string that parses to a placement wholly outside the frame. *)
Definition whollyOutside (s : string) : Prop :=
  exists p pc pr rc rr,
    parsePosition s = Some (PosRing p pc pr rc rr) /\ Ring_isFree pc pr rc rr = true.

(** * Properties *)

(** ** Names *)

Lemma isCellFree_outside (col row : Z) :
  isCellFree col row = true <-> outsideFrame col row.
Proof.
  unfold isCellFree, outsideFrame.
  rewrite !orb_true_iff, !Z.leb_le, !Z.geb_le. lia.
Qed.

Lemma Ring_isFree_outside (pc pr rc rr : Z) :
  Ring_isFree pc pr rc rr = true <-> outsideFrame pc pr /\ outsideFrame rc rr.
Proof.
  unfold Ring_isFree. cbv zeta.
  now rewrite andb_true_iff, !isCellFree_outside.
Qed.

Lemma getRingName_not_FREE (p : PegPos) (pc pr rc rr : Z) :
  getRingName p pc pr rc rr <> FreeRingName.
Proof.
  unfold getRingName, FreeRingName. destruct p; simpl; discriminate.
Qed.

(** C5.  The node name is the string FREE exactly when both the peg cell
    and the ring cell are outside the frame, and is the encoded ring name
    in every other case; so all fully-outside placements share the one
    name FREE whatever their cells and orientation. *)
Theorem getNodeName_FREE_iff_both_outside (p : PegPos) (pc pr rc rr : Z) :
  (getNodeName p pc pr rc rr = "FREE" <-> outsideFrame pc pr /\ outsideFrame rc rr) /\
  (~ (outsideFrame pc pr /\ outsideFrame rc rr) ->
   getNodeName p pc pr rc rr = getRingName p pc pr rc rr).
Proof.
  unfold getNodeName.
  destruct (Ring_isFree pc pr rc rr) eqn:E.
  - apply Ring_isFree_outside in E. split; [tauto | intros H; contradiction].
  - assert (N : ~ (outsideFrame pc pr /\ outsideFrame rc rr)).
    { intros H. apply Ring_isFree_outside in H. congruence. }
    split; [| reflexivity].
    split; [intros H; now apply getRingName_not_FREE in H | tauto].
Qed.

Example getNodeName_outside_cells_alias :
  getNodeName PegPosUp 0 0 0 1 = "FREE" /\ getNodeName PegPosDown 4 9 (-3) 2 = "FREE" /\
  getNodeName PegPosUp 3 1 4 1 = "U(3,1)-(4,1)".
Proof. repeat split. Qed.

(** ** Dent lookup *)

Lemma sketch_row_length (row : Z) (line : string) :
  rowAt CastDuetTopologySketch row = Some line -> strLength line = 25.
Proof.
  unfold rowAt. destruct (row <? 0); [discriminate |].
  intros H. apply nth_error_In in H. simpl in H.
  repeat (destruct H as [<- | H]; [reflexivity |]). contradiction.
Qed.

(** Reading the table outside its 13 rows of 25 characters gives B. *)
Lemma getSketchDent_outside (row col : Z) :
  row < 0 \/ 13 <= row \/ col < 0 \/ 25 <= col ->
  getSketchDent CastDuetTopologySketch row col = Some "B"%char.
Proof.
  intros H. unfold getSketchDent.
  destruct (rowAt CastDuetTopologySketch row) as [line |] eqn:R.
  - apply sketch_row_length in R. rewrite R.
    change (Z.of_nat (List.length CastDuetTopologySketch)) with 13.
    destruct (row >=? 0) eqn:E1, (row <? 13) eqn:E2, (col >=? 0) eqn:E3, (col <? 25) eqn:E4;
      try reflexivity.
    apply Z.geb_le in E1, E3. apply Z.ltb_lt in E2, E4. lia.
  - now rewrite andb_false_r.
Qed.

(** C9.  A dent lookup whose sketch row or column lies outside the
    topology table (13 rows of 25 characters) returns the marker B, and
    the slot of [getCellDents] that maps there holds B: it is not deleted
    and nothing fails. *)
Theorem dent_lookup_outside_table_is_B (row col : Z) :
  row < 0 \/ 13 <= row \/ col < 0 \/ 25 <= col ->
  getSketchDent CastDuetTopologySketch row col = Some "B"%char /\
  forall (cellCol cellRow : Z) (d : DentName),
    dentSketchPos d cellCol cellRow = (row, col) ->
    getCellDents cellCol cellRow d = Some "B"%char.
Proof.
  intros H. pose proof (getSketchDent_outside row col H) as G.
  split; [exact G |].
  intros cellCol cellRow d P.
  unfold getCellDents, getCellDentsIn. rewrite P, G. reflexivity.
Qed.

Lemma dent_lookup_outside_table_is_B_witness :
  getSketchDent CastDuetTopologySketch 12 (-6) = Some "B"%char /\
  getCellDents 0 0 tl = Some "B"%char.
Proof.
  destruct (dent_lookup_outside_table_is_B 12 (-6)) as [H1 H2].
  - right. right. left. reflexivity.
  - split; [exact H1 | apply H2; reflexivity].
Defined.

(** ** Parsing *)

Ltac each_ascii c :=
  let b0 := fresh in let b1 := fresh in let b2 := fresh in let b3 := fresh in
  let b4 := fresh in let b5 := fresh in let b6 := fresh in let b7 := fresh in
  destruct c as [b0 b1 b2 b3 b4 b5 b6 b7];
  destruct b0, b1, b2, b3, b4, b5, b6, b7.

Lemma parseDigit04_char (c : ascii) (z : Z) :
  parseDigit04 c = Some z ->
  isCoordChar c /\ z = coordValue c /\ numToString z = String c EmptyString.
Proof.
  unfold isCoordChar.
  each_ascii c; vm_compute; intros H; try discriminate H;
    injection H as <-; repeat split; tauto.
Qed.

Lemma parsePegPos_char (c : ascii) (p : PegPos) :
  parsePegPos c = Some p ->
  isOrientationChar c /\ p = orientationOf c /\ pegPosString p = String c EmptyString.
Proof.
  unfold isOrientationChar.
  each_ascii c; vm_compute; intros H; try discriminate H;
    injection H as <-; repeat split; tauto.
Qed.

Lemma parseDigit04_complete (c : ascii) :
  isCoordChar c -> parseDigit04 c = Some (coordValue c).
Proof. intros [-> | [-> | [-> | [-> | ->]]]]; reflexivity. Qed.

Lemma parsePegPos_complete (c : ascii) :
  isOrientationChar c -> parsePegPos c = Some (orientationOf c).
Proof. intros [-> | ->]; reflexivity. Qed.

Lemma isChar_eq (c e : ascii) : isChar c e = true -> c = e.
Proof. apply Ascii.eqb_eq. Qed.

(** A successful match fixes the whole string. *)
Lemma posCheck_shape (s : string) (p : PegPos) (pc pr rc rr : Z) :
  posCheck s = Some (p, pc, pr, rc, rr) ->
  exists cp ca cb cc cd,
    s = patternString cp ca cb cc cd /\
    parsePegPos cp = Some p /\ parseDigit04 ca = Some pc /\ parseDigit04 cb = Some pr /\
    parseDigit04 cc = Some rc /\ parseDigit04 cd = Some rr.
Proof.
  unfold posCheck.
  assert (S : s = string_of_list_ascii (list_ascii_of_string s))
    by (symmetry; apply string_of_list_ascii_of_string).
  revert S. generalize (list_ascii_of_string s) as l. intros l ->.
  destruct l as
    [| x0 [| x1 [| x2 [| x3 [| x4 [| x5 [| x6 [| x7 [| x8 [| x9 [| x10 [| x11 [| x12 l]]]]]]]]]]]]];
    cbv beta iota; try discriminate.
  destruct (isChar x1 "(" && isChar x3 "," && isChar x5 ")" && isChar x6 "-" &&
            isChar x7 "(" && isChar x9 "," && isChar x11 ")") eqn:E; [| discriminate].
  repeat (apply andb_true_iff in E; destruct E as [E ?]).
  repeat match goal with H : isChar _ _ = true |- _ => apply isChar_eq in H; subst end.
  destruct (parsePegPos x0) as [p' |] eqn:E0; [| discriminate].
  destruct (parseDigit04 x2) as [a' |] eqn:E2; [| discriminate].
  destruct (parseDigit04 x4) as [b' |] eqn:E4; [| discriminate].
  destruct (parseDigit04 x8) as [c' |] eqn:E8; [| discriminate].
  destruct (parseDigit04 x10) as [d' |] eqn:E10; [| discriminate].
  intros H. injection H as <- <- <- <- <-.
  exists x0, x2, x4, x8, x10. repeat split; assumption.
Qed.

Lemma posCheck_pattern (p a b c d : ascii) :
  isOrientationChar p -> isCoordChar a -> isCoordChar b -> isCoordChar c -> isCoordChar d ->
  posCheck (patternString p a b c d) =
  Some (orientationOf p, coordValue a, coordValue b, coordValue c, coordValue d).
Proof.
  intros Hp Ha Hb Hc Hd. unfold posCheck, patternString. cbn [list_ascii_of_string].
  change (isChar "(" "(" && isChar "," "," && isChar ")" ")" && isChar "-" "-" &&
          isChar "(" "(" && isChar "," "," && isChar ")" ")") with true.
  cbv iota.
  now rewrite (parsePegPos_complete p Hp), (parseDigit04_complete a Ha),
    (parseDigit04_complete b Hb), (parseDigit04_complete c Hc), (parseDigit04_complete d Hd).
Qed.

Lemma patternString_not_FREE (p a b c d : ascii) :
  String.eqb (patternString p a b c d) "FREE" = false.
Proof.
  unfold patternString. cbn [String.eqb].
  destruct (Ascii.eqb p "F"); reflexivity.
Qed.

Lemma ringSizeOk_geometry (pc pr rc rr : Z) :
  ringSizeOk (distSq pr pc rr rc) = true <-> validGeometry pc pr rc rr.
Proof.
  unfold ringSizeOk, distSq, validGeometry.
  rewrite andb_true_iff, !Z.ltb_lt, !Z.pow_2_r. lia.
Qed.

Lemma patternString_ringName (cp ca cb cc cd : ascii) (p : PegPos) (pc pr rc rr : Z) :
  parsePegPos cp = Some p -> parseDigit04 ca = Some pc -> parseDigit04 cb = Some pr ->
  parseDigit04 cc = Some rc -> parseDigit04 cd = Some rr ->
  getRingName p pc pr rc rr = patternString cp ca cb cc cd.
Proof.
  intros Hp Ha Hb Hc Hd.
  apply parsePegPos_char in Hp as (_ & _ & Hp).
  apply parseDigit04_char in Ha as (_ & _ & Ha), Hb as (_ & _ & Hb),
    Hc as (_ & _ & Hc), Hd as (_ & _ & Hd).
  unfold getRingName, positionToName, getCellName.
  rewrite Hp, Ha, Hb, Hc, Hd. reflexivity.
Qed.

(** C6.  Whenever [parsePosition] accepts a string, writing the parsed
    descriptor back in the canonical name format (FREE, or the ring name of
    [getRingName]) gives the same string. *)
Theorem encode_parsePosition_roundtrip (s : string) (pos : Position) :
  parsePosition s = Some pos -> encodePosition pos = s.
Proof.
  unfold parsePosition.
  destruct (String.eqb s "FREE") eqn:E.
  - apply String.eqb_eq in E. intros H. injection H as <-. now subst s.
  - destruct (posCheck s) as [[[[[p pc] pr] rc] rr] |] eqn:P; [| discriminate].
    destruct (ringSizeOk (distSq pr pc rr rc)); [| discriminate].
    intros H. injection H as <-.
    apply posCheck_shape in P as (cp & ca & cb & cc & cd & -> & Hp & Ha & Hb & Hc & Hd).
    simpl. now apply patternString_ringName.
Qed.

Lemma encode_parsePosition_roundtrip_witness :
  parsePosition "U(3,1)-(4,1)" = Some (PosRing PegPosUp 3 1 4 1) /\
  encodePosition (PosRing PegPosUp 3 1 4 1) = "U(3,1)-(4,1)".
Proof.
  split; [reflexivity |].
  apply (encode_parsePosition_roundtrip "U(3,1)-(4,1)"). reflexivity.
Defined.

(** C8.  [parsePosition] accepts the literal FREE; it accepts a string of
    the shape [UD](c,r)-(c,r) with coordinates 0..4 exactly when the peg
    and ring cells are at distance strictly between 0 and 2, and rejects
    it otherwise; every other string is rejected.  The function reads
    nothing but its argument. *)
Theorem parsePosition_accepts_exactly (s : string) :
  (s = "FREE" -> parsePosition s = Some PosFree) /\
  (forall p a b c d : ascii,
      isOrientationChar p -> isCoordChar a -> isCoordChar b -> isCoordChar c -> isCoordChar d ->
      s = patternString p a b c d ->
      (validGeometry (coordValue a) (coordValue b) (coordValue c) (coordValue d) ->
       parsePosition s =
       Some (PosRing (orientationOf p) (coordValue a) (coordValue b) (coordValue c) (coordValue d))) /\
      (~ validGeometry (coordValue a) (coordValue b) (coordValue c) (coordValue d) ->
       parsePosition s = None)) /\
  (s <> "FREE" -> ~ matchesPattern s -> parsePosition s = None).
Proof.
  split; [| split].
  - intros ->. reflexivity.
  - intros p a b c d Hp Ha Hb Hc Hd ->.
    unfold parsePosition.
    rewrite patternString_not_FREE, (posCheck_pattern p a b c d Hp Ha Hb Hc Hd).
    pose proof (ringSizeOk_geometry (coordValue a) (coordValue b) (coordValue c) (coordValue d)) as G.
    destruct (ringSizeOk (distSq (coordValue b) (coordValue a) (coordValue d) (coordValue c))).
    + split; [reflexivity |]. intros N. exfalso. apply N, G. reflexivity.
    + split; [| reflexivity]. intros V. apply G in V. discriminate.
  - intros NF NP. unfold parsePosition.
    destruct (String.eqb s "FREE") eqn:E.
    + apply String.eqb_eq in E. contradiction.
    + destruct (posCheck s) as [[[[[p pc] pr] rc] rr] |] eqn:P; [| reflexivity].
      exfalso. apply NP.
      apply posCheck_shape in P as (cp & ca & cb & cc & cd & -> & Hp & Ha & Hb & Hc & Hd).
      exists cp, ca, cb, cc, cd.
      apply parsePegPos_char in Hp as (Hp & _).
      apply parseDigit04_char in Ha as (Ha & _), Hb as (Hb & _), Hc as (Hc & _), Hd as (Hd & _).
      repeat split; assumption.
Qed.

Example parsePosition_examples :
  parsePosition "X(1,1)-(2,2)" = None /\ parsePosition "U(1,1)-(3,3)" = None /\
  parsePosition "U(1,1)-(1,1)" = None /\ parsePosition "U(1,1)-(2,5)" = None /\
  parsePosition "D(3,1)-(3,0)" = Some (PosRing PegPosDown 3 1 3 0) /\
  parsePosition "U(0,0)-(0,1)" = Some (PosRing PegPosUp 0 0 0 1).
Proof. repeat split. Qed.

(** ** Sets of names and the node table *)

Lemma setMem_In (k : string) (cs : list string) : setMem k cs = true <-> In k cs.
Proof.
  unfold setMem. rewrite existsb_exists. split.
  - intros (y & Hy & E). apply String.eqb_eq in E. now subst.
  - intros H. exists k. split; [assumption | apply String.eqb_refl].
Qed.

Lemma setAdd_In (k x : string) (cs : list string) :
  In x (setAdd k cs) <-> In x cs \/ x = k.
Proof.
  unfold setAdd. fold (setMem k cs).
  destruct (setMem k cs) eqn:E.
  - apply setMem_In in E. split; [tauto | intros [H | ->]; assumption].
  - rewrite in_app_iff. simpl. intuition congruence.
Qed.

Lemma lookup_In (k : string) (node : Node) (g : Graph) :
  lookup k g = Some node -> In (k, node) g.
Proof.
  induction g as [| [k' n'] g IH]; simpl; [discriminate |].
  destruct (String.eqb k k') eqn:E.
  - apply String.eqb_eq in E. intros H. injection H as <-. subst. now left.
  - intros H. right. auto.
Qed.

Lemma lookup_keys (k : string) (node : Node) (g : Graph) :
  lookup k g = Some node -> In k (keys g).
Proof.
  intros H. apply lookup_In in H. unfold keys.
  change k with (fst (k, node)). now apply in_map.
Qed.

(** ** Move rules *)

Lemma dentOk_compatible (p : PegPos) (m : option ascii) :
  dentOk p m = true <-> markerCompatible p m.
Proof.
  destruct p, m as [c |]; simpl;
    rewrite ?orb_false_r, ?orb_true_iff, ?Ascii.eqb_eq;
    split; intros H;
    try (destruct H as [H | H]; try discriminate H; try (injection H as ->); subst; auto; fail);
    intuition congruence.
Qed.

Lemma orZero_Some (v : Z) : orZero (Some v) = v.
Proof. unfold orZero. destruct (v =? 0) eqn:E; [apply Z.eqb_eq in E; now subst | reflexivity]. Qed.

Lemma applyMove_target (r : Ring) (dents : DentName -> option ascii) (mv : Move) (cs : list string) :
  applyMove r dents mv cs =
  if dentOk (pegPos r) (dents (slot mv)) then setAdd (moveDestination r mv) cs else cs.
Proof.
  unfold applyMove, connect, moveDestination, ringShift.
  destruct (slideDelta mv) as [[a b] |]; cbn [option_map fst snd];
    rewrite ?orZero_Some; reflexivity.
Qed.

(** The [switch] performs exactly the [connect] calls of the table, in
    order. *)
Lemma rotationMoves_table (r : Ring) (dents : DentName -> option ascii)
      (ringPartFree : bool) (cs : list string) :
  rotationMoves r dents ringPartFree cs =
  fold_left (fun cs mv => applyMove r dents mv cs) (candidateMoves (rotation r) ringPartFree) cs.
Proof.
  unfold rotationMoves, candidateMoves.
  destruct (rotation r) as [| [[[|?|]|[|?|]|]|[[|?|]|[|?|]|]|] | ?]; try reflexivity;
    destruct ringPartFree; reflexivity.
Qed.

(** The [connect] calls of the [switch], one by one: the calls made for a
    ring are those of the candidate moves listed for its rotation index,
    and the call of a candidate move adds a name exactly when the marker
    at the tested slot is present and compatible with the peg orientation
    (Up: D or B; Down: H or B).  The name it adds is that of the node for
    the same orientation, the peg cell shifted by the move's deltas and
    the ring cell shifted by the slide delta, which is (0,0) for a
    rotation move. *)
Lemma connect_adds_iff_compatible
        (r : Ring) (dents : DentName -> option ascii) :
  (forall cs,
      rotationMoves r dents (isCellFree (ringCol r) (ringRow r)) cs =
      fold_left (fun cs mv => applyMove r dents mv cs)
                (candidateMoves (rotation r) (isCellFree (ringCol r) (ringRow r))) cs) /\
  (forall (mv : Move) (cs : list string) (x : string),
      In x (applyMove r dents mv cs) <->
      In x cs \/
      (markerCompatible (pegPos r) (dents (slot mv)) /\
       x = getNodeName (pegPos r) (pegCol r + colDelta mv) (pegRow r + rowDelta mv)
                       (ringCol r + fst (ringShift mv)) (ringRow r + snd (ringShift mv)))) /\
  (forall mv : Move, slideDelta mv = None -> ringShift mv = (0, 0)).
Proof.
  split; [| split].
  - intros cs. apply rotationMoves_table.
  - intros mv cs x. rewrite applyMove_target.
    fold (moveDestination r mv).
    pose proof (dentOk_compatible (pegPos r) (dents (slot mv))) as D.
    destruct (dentOk (pegPos r) (dents (slot mv))).
    + rewrite setAdd_In. intuition.
    + split; [tauto |]. intros [H | [C _]]; [assumption |].
      apply D in C. discriminate.
  - intros mv H. unfold ringShift. now rewrite H.
Qed.


Lemma fold_adds {A} (f : list string -> A -> list string) (Q : A -> Prop) (t : A -> string) :
  (forall a cs x, In x (f cs a) <-> In x cs \/ (Q a /\ x = t a)) ->
  forall l cs x, In x (fold_left f l cs) <-> In x cs \/ exists a, In a l /\ Q a /\ x = t a.
Proof.
  intros Hf. induction l as [| a l IH]; intros cs x; simpl.
  - split; [tauto | intros [H | (a & [] & _)]; exact H].
  - rewrite IH, Hf. split.
    + intros [[H | [Qa ->]] | (b & Hb & Qb & ->)]; eauto 6.
    + intros [H | (b & [<- | Hb] & Qb & ->)]; eauto 6.
Qed.

Lemma freeRotationStep_adds (r : Ring) (cs : list string) (xy : Z * Z) (x : string) :
  In x (freeRotationStep r cs xy) <->
  In x cs \/ (freeRotationOk r xy = true /\ x = freeRotationTarget r xy).
Proof.
  unfold freeRotationStep, freeRotationOk, freeRotationTarget.
  destruct xy as [dx dy]. cbn [fst snd].
  destruct ((dx =? 0) && (dy =? 0)); cbn [negb andb].
  - split; [tauto | intros [H | [H _]]; [exact H | discriminate H]].
  - destruct (isCellFree (ringCol r + dx) (ringRow r + dy) &&
              ringSizeOk (distSq (pegCol r) (pegRow r) (ringCol r + dx) (ringRow r + dy))).
    + rewrite setAdd_In. tauto.
    + split; [tauto | intros [H | [H _]]; [exact H | discriminate H]].
Qed.

(** The edges [getNodeConnections] gives a node: those of the compatible
    candidate moves, the free rotations around the peg when the ring cell
    is outside, and the flip; nothing else. *)
Lemma nodeConnectionsWith_edges (r : Ring) (dents : DentName -> option ascii) (x : string) :
  In x (nodeConnectionsWith r dents []) <->
  (exists mv, In mv (candidateMoves (rotation r) (isCellFree (ringCol r) (ringRow r))) /\
              markerCompatible (pegPos r) (dents (slot mv)) /\ x = moveDestination r mv) \/
  (isCellFree (ringCol r) (ringRow r) = true /\
   exists xy, In xy loopDeltas /\ freeRotationOk r xy = true /\ x = freeRotationTarget r xy) \/
  x = flipTarget r.
Proof.
  unfold nodeConnectionsWith. cbv zeta. rewrite setAdd_In, rotationMoves_table.
  assert (M : forall cs y,
             In y (fold_left (fun cs mv => applyMove r dents mv cs)
                             (candidateMoves (rotation r) (isCellFree (ringCol r) (ringRow r))) cs)
             <-> In y cs \/
                 exists mv, In mv (candidateMoves (rotation r) (isCellFree (ringCol r) (ringRow r))) /\
                            markerCompatible (pegPos r) (dents (slot mv)) /\
                            y = moveDestination r mv).
  { intros cs y. apply fold_adds. intros mv cs' z. rewrite applyMove_target.
    pose proof (dentOk_compatible (pegPos r) (dents (slot mv))) as D.
    destruct (dentOk (pegPos r) (dents (slot mv))).
    - rewrite setAdd_In. intuition.
    - split; [tauto | intros [H | [C _]]; [exact H | apply D in C; discriminate C]]. }
  destruct (isCellFree (ringCol r) (ringRow r)) eqn:F.
  - rewrite (fold_adds (freeRotationStep r) (fun xy => freeRotationOk r xy = true)
               (freeRotationTarget r) (fun a cs y => freeRotationStep_adds r cs a y)).
    rewrite M. simpl. intuition.
  - rewrite M. simpl. intuition discriminate.
Qed.

(** ** The built graph *)

Lemma connectionsOk_sound (g : Graph) :
  forallb connectionsOk g = true ->
  forall (n : string) (node : Node),
    lookup n g = Some node -> n <> FreeRingName ->
    exists r, ring node = Some r /\
              connectsTo node = nodeConnectionsWith r (getCellDents (pegCol r) (pegRow r)) [].
Proof.
  rewrite forallb_forall. intros C n node L NF.
  specialize (C _ (lookup_In _ _ _ L)). unfold connectionsOk in C. cbn [fst snd] in C.
  apply orb_true_iff in C as [C | C]; [apply String.eqb_eq in C; contradiction |].
  destruct (ring node) as [r |]; [| discriminate].
  exists r. split; [reflexivity |].
  destruct (list_eq_dec string_dec (connectsTo node)
              (nodeConnectionsWith r (getCellDents (pegCol r) (pegRow r)) []));
    [assumption | discriminate].
Qed.

(** X14.  In the built graph the adjacency set of every node other than FREE
    consists of the destinations of its compatible candidate moves, its
    free rotations and its flip. *)
Lemma built_graph_edges (n x : string) (node : Node) :
  lookup n CastDuetGraphNodes = Some node -> n <> "FREE" ->
  exists r,
    ring node = Some r /\
    (In x (connectsTo node) <->
     (exists mv, In mv (candidateMoves (rotation r) (isCellFree (ringCol r) (ringRow r))) /\
                 markerCompatible (pegPos r) (getCellDents (pegCol r) (pegRow r) (slot mv)) /\
                 x = moveDestination r mv) \/
     (isCellFree (ringCol r) (ringRow r) = true /\
      exists xy, In xy loopDeltas /\ freeRotationOk r xy = true /\ x = freeRotationTarget r xy) \/
     x = flipTarget r).
Proof.
  intros L NF.
  assert (C : forallb connectionsOk CastDuetGraphNodes = true) by (vm_compute; reflexivity).
  destruct (connectionsOk_sound _ C n node L NF) as (r & R & E).
  exists r. split; [exact R |]. rewrite E. apply nodeConnectionsWith_edges.
Qed.

Lemma isKey_lookup (g : Graph) (k : string) :
  isKey g k = true -> exists node, lookup k g = Some node.
Proof. unfold isKey. destruct (lookup k g) as [node |]; [eauto | discriminate]. Qed.

Lemma growStep_sound (g : Graph) (P : string -> Prop) :
  (forall a b node, lookup a g = Some node -> In b (connectsTo node) -> P b -> P a) ->
  forall R, (forall x, In x R -> P x) -> forall x, In x (growStep g R) -> P x.
Proof.
  intros Hedge. unfold growStep. generalize (keys g) as ks.
  induction ks as [| k ks IH]; intros R HR x; simpl; [apply HR |].
  apply IH. clear x. intros x.
  destruct (lookup k g) as [node |] eqn:L; [| apply HR].
  destruct (existsb (fun m => setMem m R) (connectsTo node)) eqn:E; [| apply HR].
  apply existsb_exists in E as (m & Hm & MR). apply setMem_In in MR.
  intros Hx. apply setAdd_In in Hx as [Hx | ->]; [now apply HR |].
  eapply Hedge; eauto.
Qed.

Lemma grow_sound (g : Graph) (P : string -> Prop) :
  (forall a b node, lookup a g = Some node -> In b (connectsTo node) -> P b -> P a) ->
  forall rounds R, (forall x, In x R -> P x) -> forall x, In x (grow rounds g R) -> P x.
Proof.
  intros Hedge. induction rounds as [| rounds IH]; intros R HR x; simpl; [apply HR |].
  apply IH. now apply growStep_sound.
Qed.

Lemma allReachFree_sound (rounds : nat) (g : Graph) :
  allReachFree rounds g = true ->
  forall n node, lookup n g = Some node -> n <> FreeRingName -> reaches g n FreeRingName.
Proof.
  unfold allReachFree. cbv zeta. rewrite forallb_forall. intros H n node L NF.
  specialize (H n (lookup_keys _ _ _ L)). apply setMem_In in H.
  assert (G : n = FreeRingName \/ reaches g n FreeRingName); [| tauto].
  revert H.
  apply (grow_sound g (fun x => x = FreeRingName \/ reaches g x FreeRingName)).
  - intros a b nd La Hb [-> | Hr]; right.
    + eapply reaches_edge; eauto.
    + eapply reaches_step; eauto.
  - intros x [<- | []]. now left.
Qed.

Lemma built_graph_allReachFree : allReachFree 24 CastDuetGraphNodes = true.
Proof. vm_compute. reflexivity. Qed.

(** C3.  In the built graph every node other than FREE has a path of
    [connectsTo] edges that ends at FREE. *)
Theorem every_node_reaches_FREE (n : string) (node : Node) :
  lookup n CastDuetGraphNodes = Some node -> n <> "FREE" ->
  reaches CastDuetGraphNodes n "FREE".
Proof.
  apply (allReachFree_sound 24), built_graph_allReachFree.
Qed.

Lemma every_node_reaches_FREE_witness :
  reaches CastDuetGraphNodes "U(3,1)-(4,1)" "FREE".
Proof.
  eapply (every_node_reaches_FREE "U(3,1)-(4,1)").
  - vm_compute. reflexivity.
  - discriminate.
Defined.

Lemma adjacencyClosed_sound (g : Graph) :
  adjacencyClosed g = true ->
  forall (n m : string) (node : Node),
    lookup n g = Some node -> In m (connectsTo node) ->
    (exists node', lookup m g = Some node') /\
    (m = FreeRingName \/
     exists cell r, In cell allCells /\ In r (generateAllRingsForCell (fst cell) (snd cell)) /\
                    isFree r = false /\ m = ring_name r).
Proof.
  unfold adjacencyClosed. rewrite forallb_forall. intros C n m node L Hm.
  specialize (C _ (lookup_In _ _ _ L)). cbn [snd] in C.
  rewrite forallb_forall in C. specialize (C m Hm).
  unfold edgeTargetOk in C. apply andb_true_iff in C as [K C].
  split; [now apply isKey_lookup |].
  apply orb_true_iff in C as [C | C].
  - left. now apply String.eqb_eq in C.
  - right. apply existsb_exists in C as (r & Hr & C).
    apply andb_true_iff in C as [C F]. apply String.eqb_eq in C.
    apply negb_true_iff in F.
    unfold allRings in Hr. apply in_flat_map in Hr as (cell & Hc & Hr).
    exists cell, r. auto.
Qed.

Lemma built_graph_adjacencyClosed : adjacencyClosed CastDuetGraphNodes = true.
Proof. vm_compute. reflexivity. Qed.

(** C10.  In the built graph every name found in a node's [connectsTo] is
    itself a key of the node table, and is FREE or the name of one of the
    enumerated rings: no edge leaves the graph. *)
Theorem adjacency_is_closed (n m : string) (node : Node) :
  lookup n CastDuetGraphNodes = Some node -> In m (connectsTo node) ->
  (exists node', lookup m CastDuetGraphNodes = Some node') /\
  (m = "FREE" \/
   exists cell r, In cell allCells /\ In r (generateAllRingsForCell (fst cell) (snd cell)) /\
                  isFree r = false /\ m = ring_name r).
Proof.
  apply adjacencyClosed_sound, built_graph_adjacencyClosed.
Qed.

Lemma adjacency_is_closed_witness :
  exists node', lookup "U(3,2)-(4,1)" CastDuetGraphNodes = Some node'.
Proof.
  eapply (adjacency_is_closed "U(3,1)-(4,1)" "U(3,2)-(4,1)").
  - vm_compute. reflexivity.
  - simpl. left. reflexivity.
Defined.







(** ** The search and the node table *)

Lemma skeleton_update (k : string) (f : Node -> Node) (g : Graph) :
  (forall n, frameOf (f n) = frameOf n) -> skeleton (update k f g) = skeleton g.
Proof.
  intros Hf. induction g as [| [k' n'] g IH]; simpl; [reflexivity |].
  destruct (String.eqb k k'); simpl; [now rewrite Hf | now rewrite IH].
Qed.

Lemma skeleton_keys (g1 g2 : Graph) : skeleton g1 = skeleton g2 -> keys g1 = keys g2.
Proof.
  intros H. apply (f_equal (map fst)) in H. unfold skeleton in H.
  rewrite !map_map in H. exact H.
Qed.

Lemma skeleton_lookup (g1 g2 : Graph) (n : string) :
  skeleton g1 = skeleton g2 ->
  option_map frameOf (lookup n g1) = option_map frameOf (lookup n g2).
Proof.
  revert g2. induction g1 as [| [k1 n1] g1 IH]; intros [| [k2 n2] g2]; simpl;
    try discriminate; [reflexivity |].
  intros H. injection H as -> Hr Hm Hc Hg.
  destruct (String.eqb n k2); simpl; [unfold frameOf; congruence | now apply IH].
Qed.

Lemma skeleton_length (g1 g2 : Graph) :
  skeleton g1 = skeleton g2 -> List.length g1 = List.length g2.
Proof.
  intros H. apply (f_equal (@List.length _)) in H. unfold skeleton in H.
  now rewrite !length_map in H.
Qed.

Lemma tame_ret {A} (a : A) : tame (ret a).
Proof. intros g. split; [reflexivity | discriminate]. Qed.

Lemma tame_throw {A} : tame (@throw A).
Proof. intros g. split; [reflexivity | discriminate]. Qed.

Lemma tame_bind {A B} (m : Exec A) (k : A -> Exec B) :
  tame m -> (forall a, tame (k a)) -> tame (bind m k).
Proof.
  intros Hm Hk g. unfold bind. specialize (Hm g).
  destruct (m g) as [[a | |] g']; simpl in *; destruct Hm as [Sm Fm].
  - destruct (Hk a g') as [Sk Fk]. split; [congruence | assumption].
  - split; [assumption | discriminate].
  - contradiction.
Qed.

Lemma tame_readField {A} (field : Node -> A) (n : string) : tame (readField field n).
Proof.
  intros g. unfold readField. destruct (lookup n g); split; simpl; (reflexivity || discriminate).
Qed.

Lemma tame_writeField (f : Node -> Node) (n : string) :
  (forall x, frameOf (f x) = frameOf x) -> tame (writeField f n).
Proof.
  intros Hf g. unfold writeField. destruct (lookup n g); split; simpl;
    try discriminate; [now apply skeleton_update | reflexivity].
Qed.

Lemma tame_nodeKeys : tame nodeKeys.
Proof. intros g. split; [reflexivity | discriminate]. Qed.

Lemma tame_foldM {A S} (body : S -> A -> Exec S) (l : list A) (s : S) :
  (forall s a, tame (body s a)) -> tame (foldM body l s).
Proof.
  intros Hb. revert s. induction l as [| a l IH]; intros s; simpl.
  - apply tame_ret.
  - apply tame_bind; [apply Hb | intros s'; apply IH].
Qed.

Lemma frameOf_withDist (d : option Dist) (n : Node) : frameOf (withDist d n) = frameOf n.
Proof. reflexivity. Qed.

Lemma frameOf_withPrev (p : option string) (n : Node) : frameOf (withPrev p n) = frameOf n.
Proof. reflexivity. Qed.

Create HintDb tame discriminated.
#[local] Hint Resolve tame_ret tame_throw tame_readField tame_nodeKeys
  frameOf_withDist frameOf_withPrev : tame.
#[local] Hint Extern 2 (tame (bind _ _)) => apply tame_bind; [| intros ?] : tame.
#[local] Hint Extern 2 (tame (writeField _ _)) => apply tame_writeField; intros ? : tame.
#[local] Hint Extern 2 (tame (foldM _ _ _)) => apply tame_foldM; intros ? ? : tame.
#[local] Hint Extern 3 (tame (if ?b then _ else _)) => destruct b : tame.
#[local] Hint Extern 3 (tame (match ?o with Some _ => _ | None => _ end)) => destruct o : tame.

Lemma tame_initUnvisited : tame initUnvisited.
Proof. unfold initUnvisited. auto 10 with tame. Qed.

Lemma tame_findMin (q : list string) : tame (findMin q).
Proof. unfold findMin. auto 10 with tame. Qed.

Lemma tame_relax (u : string) (u_dist : Dist) : tame (relax u u_dist).
Proof. unfold relax. auto 10 with tame. Qed.

Lemma tame_dijkstraLoop (qlen : nat) (q : list string) : tame (dijkstraLoop qlen q).
Proof.
  revert q. induction qlen as [| qlen IH]; intros q; simpl.
  - apply tame_ret.
  - apply tame_bind; [apply tame_findMin |].
    intros [u_dist u]. cbn [fst snd].
    destruct (truthy u); [| apply tame_ret].
    destruct u as [u |]; [| apply tame_ret].
    apply tame_bind; [apply tame_relax | intros _; apply IH].
Qed.

Lemma tame_dijkstra (sourceNode : string) : tame (dijkstra sourceNode).
Proof.
  unfold dijkstra.
  apply tame_bind; [apply tame_initUnvisited | intros st].
  apply tame_bind; [auto with tame | intros _; apply tame_dijkstraLoop].
Qed.

(** Every run of [findSolution] leaves the skeleton of the table alone. *)
Lemma findSolution_skeleton (s t : string) (g : Graph) :
  skeleton (snd (findSolution s t g)) = skeleton g.
Proof.
  unfold findSolution.
  destruct (parsePosition s); [| reflexivity].
  destruct (parsePosition t); [| reflexivity].
  unfold bind. destruct (tame_dijkstra s g) as [S _].
  destruct (dijkstra s g) as [[b | |] g']; cbn [fst snd] in *; try assumption.
  match goal with |- context [walkBack ?f ?h ?n ?l] => destruct (walkBack f h n l) end;
    assumption.
Qed.

(** C2, for the structure of the graph.  Whatever the two strings are and however the
    call ends, [findSolution] leaves the node set (the keys, in order) and
    every node's ring, name and adjacency set as they were.  The [dist]
    and [prev] fields, which the shortest-path computation stores on the
    nodes themselves, are outside this guarantee. *)
Theorem findSolution_keeps_nodes_and_edges (s t : string) (g : Graph) :
  keys (snd (findSolution s t g)) = keys g /\
  forall n : string,
    option_map frameOf (lookup n (snd (findSolution s t g))) =
    option_map frameOf (lookup n g).
Proof.
  pose proof (findSolution_skeleton s t g) as H.
  split; [now apply skeleton_keys | intros n; now apply skeleton_lookup].
Qed.

(** When a string does not parse nothing at all is written. *)
Lemma findSolution_parse_failure (s t : string) (g : Graph) :
  parsePosition s = None \/ parsePosition t = None ->
  findSolution s t g = (Normal None, g).
Proof.
  unfold findSolution.
  intros [-> | ->]; [reflexivity | destruct (parsePosition s); reflexivity].
Qed.

(** C2, counterexample.  Solving from the start position to FREE on the
    freshly built graph rewrites the [dist] field of the FREE node, which
    was undefined, so the graph after the call differs from the graph
    before it. *)
Lemma findSolution_writes_dist :
  option_map dist (lookup "FREE" CastDuetGraphNodes) = Some None /\
  option_map dist (lookup "FREE" (snd (findSolution "U(3,1)-(4,1)" "FREE" CastDuetGraphNodes)))
  = Some (Some (Hops 30)) /\
  snd (findSolution "U(3,1)-(4,1)" "FREE" CastDuetGraphNodes) <> CastDuetGraphNodes.
Proof.
  assert (A : option_map dist (lookup "FREE" CastDuetGraphNodes) = Some None)
    by (vm_compute; reflexivity).
  assert (B : option_map dist
                (lookup "FREE" (snd (findSolution "U(3,1)-(4,1)" "FREE" CastDuetGraphNodes)))
              = Some (Some (Hops 30)))
    by (vm_compute; reflexivity).
  split; [exact A | split; [exact B |]].
  intros E. rewrite E, A in B. discriminate B.
Qed.

(** ** Unknown nodes *)

Lemma lookup_None_skeleton (g1 g2 : Graph) (n : string) :
  skeleton g1 = skeleton g2 -> lookup n g2 = None -> lookup n g1 = None.
Proof.
  intros S L. pose proof (skeleton_lookup g1 g2 n S) as H.
  rewrite L in H. destruct (lookup n g1); [discriminate | reflexivity].
Qed.

Lemma walkBack_undefined (fuel : nat) (g : Graph) (solution : list string) :
  walkBack fuel g None solution = TypeError.
Proof. destruct fuel; reflexivity. Qed.

(** A target that parses but is not a key of the table makes
    [findSolution] end with a [TypeError], for any table. *)
Lemma findSolution_unknown_target (s t : string) (g : Graph) :
  parsePosition s <> None -> parsePosition t <> None -> lookup t g = None ->
  fst (findSolution s t g) = TypeError.
Proof.
  intros Ps Pt L. unfold findSolution.
  destruct (parsePosition s); [| contradiction].
  destruct (parsePosition t); [| contradiction].
  unfold bind. destruct (tame_dijkstra s g) as [S F].
  destruct (dijkstra s g) as [[b | |] g']; cbn [fst snd] in *; [| reflexivity | contradiction].
  rewrite (lookup_None_skeleton g' g t S L), walkBack_undefined. reflexivity.
Qed.

Lemma dijkstra_unknown_source (s : string) (g : Graph) :
  lookup s g = None -> fst (dijkstra s g) = TypeError.
Proof.
  intros L. unfold dijkstra, bind.
  destruct (tame_initUnvisited g) as [S F].
  destruct (initUnvisited g) as [[st | |] g']; cbn [fst snd] in *;
    [| reflexivity | contradiction].
  unfold writeField. rewrite (lookup_None_skeleton g' g s S L). reflexivity.
Qed.

(** So does a source that parses but is not a key. *)
Lemma findSolution_unknown_source (s t : string) (g : Graph) :
  parsePosition s <> None -> parsePosition t <> None -> lookup s g = None ->
  fst (findSolution s t g) = TypeError.
Proof.
  intros Ps Pt L. unfold findSolution.
  destruct (parsePosition s); [| contradiction].
  destruct (parsePosition t); [| contradiction].
  unfold bind. pose proof (dijkstra_unknown_source s g L) as D.
  destruct (dijkstra s g) as [[b | |] g']; cbn [fst] in *; try discriminate D.
  reflexivity.
Qed.

(** C1, at an input where it fails.  Both strings parse, the target
    ["U(0,0)-(0,1)"] lies wholly outside the frame and is therefore not a
    node of the graph (its placement is the FREE node), and [findSolution]
    ends with a [TypeError] instead of returning [undefined]. *)
Theorem findSolution_throws_on_unknown_target :
  parsePosition "U(3,1)-(4,1)" = Some (PosRing PegPosUp 3 1 4 1) /\
  parsePosition "U(0,0)-(0,1)" = Some (PosRing PegPosUp 0 0 0 1) /\
  lookup "U(0,0)-(0,1)" CastDuetGraphNodes = None /\
  fst (findSolution "U(3,1)-(4,1)" "U(0,0)-(0,1)" CastDuetGraphNodes) = TypeError.
Proof.
  split; [| split; [| split]]; vm_compute; reflexivity.
Qed.

Example findSolution_scenarios :
  fst (findSolution "FREE" "FREE" CastDuetGraphNodes) = Normal (Some ["FREE"]) /\
  fst (findSolution "X(1,1)-(2,2)" "FREE" CastDuetGraphNodes) = Normal None /\
  fst (findSolution "U(0,0)-(0,1)" "FREE" CastDuetGraphNodes) = TypeError /\
  fst (findSolution "U(3,1)-(4,1)" "FREE" CastDuetGraphNodes) =
  Normal (Some
    ["U(3,1)-(4,1)"; "U(3,1)-(4,2)"; "U(3,2)-(4,2)"; "U(3,2)-(4,3)";
     "D(4,3)-(3,2)"; "D(3,3)-(3,2)"; "U(3,2)-(3,3)"; "U(2,2)-(3,3)";
     "U(2,3)-(3,3)"; "D(3,3)-(2,3)"; "D(3,4)-(2,3)"; "U(2,3)-(3,4)";
     "U(2,3)-(2,4)"; "U(3,3)-(3,4)"; "U(3,3)-(2,4)"; "D(2,4)-(3,3)";
     "D(2,3)-(3,3)"; "D(2,2)-(3,3)"; "U(3,3)-(2,2)"; "U(2,3)-(2,2)";
     "D(2,2)-(2,3)"; "D(1,2)-(2,3)"; "U(2,3)-(1,2)"; "U(2,2)-(1,2)";
     "U(2,1)-(1,2)"; "U(1,1)-(1,2)"; "D(1,2)-(1,1)"; "D(0,2)-(1,1)";
     "D(0,1)-(1,1)"; "U(1,1)-(0,1)"; "FREE"]).
Proof.
  split; [| split; [| split]]; vm_compute; reflexivity.
Qed.

(** On a table where the target cannot be reached, the early return of
    [dijkstra] goes unnoticed and the list holds the target alone. *)
Example findSolution_unreachable_target :
  let g := [("FREE", Build_Node None "FREE" [] None None);
            ("U(1,1)-(2,2)", Build_Node None "U(1,1)-(2,2)" [] None None)] in
  fst (dijkstra "FREE" g) = Normal false /\
  fst (findSolution "FREE" "U(1,1)-(2,2)" g) = Normal (Some ["U(1,1)-(2,2)"]).
Proof. split; reflexivity. Qed.

(** ** Termination of the search *)

Lemma lookup_update (n k : string) (f : Node -> Node) (g : Graph) :
  lookup n (update k f g) =
  if String.eqb n k then option_map f (lookup n g) else lookup n g.
Proof.
  induction g as [| [k' m] g IH]; simpl.
  - now destruct (String.eqb n k).
  - destruct (String.eqb k k') eqn:E; simpl.
    + apply String.eqb_eq in E. subst k'.
      destruct (String.eqb n k); reflexivity.
    + destruct (String.eqb n k') eqn:E'.
      * apply String.eqb_eq in E'. subst k'.
        rewrite String.eqb_sym in E. now rewrite E.
      * exact IH.
Qed.

Lemma keys_update (k : string) (f : Node -> Node) (g : Graph) :
  keys (update k f g) = keys g.
Proof.
  induction g as [| [k' m] g IH]; simpl; [reflexivity |].
  destruct (String.eqb k k'); simpl; [reflexivity | now rewrite IH].
Qed.

Lemma triple_ret {A} (P : Graph -> Prop) (a : A) (Q : A -> Graph -> Prop) :
  (forall g, P g -> Q a g) -> triple P (ret a) Q.
Proof. intros H g Pg. simpl. auto. Qed.

Lemma triple_bind {A B} (P : Graph -> Prop) (R : A -> Graph -> Prop)
      (Q : B -> Graph -> Prop) (m : Exec A) (k : A -> Exec B) :
  triple P m R -> (forall a, triple (R a) (k a) Q) -> triple P (bind m k) Q.
Proof.
  intros Hm Hk g Pg. unfold bind. specialize (Hm g Pg).
  destruct (m g) as [[a | |] g']; [apply Hk; exact Hm | exact I | exact Hm].
Qed.

Lemma triple_weaken {A} (P P' : Graph -> Prop) (Q Q' : A -> Graph -> Prop) (m : Exec A) :
  triple P' m Q' -> (forall g, P g -> P' g) -> (forall a g, Q' a g -> Q a g) ->
  triple P m Q.
Proof.
  intros Hm HP HQ g Pg. specialize (Hm g (HP g Pg)).
  destruct (m g) as [[a | |] g']; auto.
Qed.

Lemma triple_readField {A} (P : Graph -> Prop) (field : Node -> A) (n : string) :
  triple P (readField field n)
         (fun a g => P g /\ exists node, lookup n g = Some node /\ a = field node).
Proof.
  intros g Pg. unfold readField.
  destruct (lookup n g) as [node |] eqn:L; [| exact I].
  split; [assumption | eauto].
Qed.

Lemma triple_writeField (P : Graph -> Prop) (Q : unit -> Graph -> Prop)
      (f : Node -> Node) (n : string) :
  (forall g node, P g -> lookup n g = Some node -> Q tt (update n f g)) ->
  triple P (writeField f n) Q.
Proof.
  intros H g Pg. unfold writeField.
  destruct (lookup n g) as [node |] eqn:L; [| exact I]. eauto.
Qed.

(** A loop over a list, with an invariant that knows the part of the list
    already visited. *)
Lemma triple_foldM {A S} (Inv : list A -> S -> Graph -> Prop)
      (body : S -> A -> Exec S) (l : list A) :
  (forall done a s, In a l ->
      triple (Inv done s) (body s a) (fun s' => Inv (done ++ [a])%list s')) ->
  forall done s, triple (Inv done s) (foldM body l s) (fun s' => Inv (done ++ l)%list s').
Proof.
  induction l as [| a l IH]; intros Hb done s; simpl.
  - apply triple_ret. intros g. cbv beta. now rewrite app_nil_r.
  - eapply triple_bind; [apply Hb; now left |].
    intros s'. eapply triple_weaken with (P' := Inv (done ++ [a])%list s');
      [apply IH; intros; apply Hb; now right | auto |].
    intros s'' g. cbv beta. now rewrite <- app_assoc.
Qed.

Lemma ranked_mono (s : string) (k k' : Z) (g : Graph) :
  k <= k' -> ranked s k g -> ranked s k' g.
Proof.
  intros Hk [Ha Hb]. split; [| exact Hb].
  intros n node d L D. specialize (Ha n node d L D). lia.
Qed.

(** After the initialisation loop every node is at [+Infinity] without a
    predecessor, and [qlen] counts the keys. *)
Lemma initUnvisited_post (g0 : Graph) :
  triple (fun g => g = g0) initUnvisited
         (fun st g =>
            snd st = List.length g0 /\
            forall n node, lookup n g = Some node ->
                           dist node = Some Infinity /\ prev node = None).
Proof.
  pose (Inv := fun (done : list string) (st : list string * nat) (g : Graph) =>
                 keys g = keys g0 /\ snd st = List.length done /\
                 forall n node, In n done -> lookup n g = Some node ->
                                dist node = Some Infinity /\ prev node = None).
  assert (Hbody : forall done a s,
             triple (Inv done s)
               (writeField (withDist (Some Infinity)) a ;;;
                writeField (withPrev None) a ;;;
                ret (setAdd a (fst s), S (snd s)))
               (fun s' => Inv (done ++ [a])%list s')).
  { intros done a s.
    apply triple_bind with
      (R := fun _ g => Inv done s g /\
                       forall node, lookup a g = Some node -> dist node = Some Infinity).
    - apply triple_writeField. intros g node (K & Len & H) L.
      unfold Inv. rewrite keys_update.
      split; [split; [assumption | split; [assumption |]] |].
      + intros n nd Hn. rewrite lookup_update.
        destruct (String.eqb n a) eqn:E; [| now apply H].
        apply String.eqb_eq in E. subst n. rewrite L. simpl.
        intros Hx. injection Hx as <-. simpl.
        split; [reflexivity | now apply (H a node)].
      + intros nd. rewrite lookup_update, String.eqb_refl, L. simpl.
        intros Hx. now injection Hx as <-.
    - intros _.
      apply triple_bind with
        (R := fun _ g => Inv (done ++ [a])%list (setAdd a (fst s), S (snd s)) g);
        [| intros _; apply triple_ret; auto].
      apply triple_writeField. intros g node ((K & Len & H) & Ha) L.
      unfold Inv. rewrite keys_update. cbn [snd].
      rewrite length_app, Len. simpl. split; [assumption | split; [lia |]].
      intros n nd Hn. rewrite lookup_update.
      destruct (String.eqb n a) eqn:E.
      + apply String.eqb_eq in E. subst n. rewrite L. simpl.
        intros Hx. injection Hx as <-. simpl. split; [apply Ha, L | reflexivity].
      + apply in_app_iff in Hn as [Hn | [-> | []]]; [now apply H |].
        rewrite String.eqb_refl in E. discriminate. }
  intros g ->. unfold initUnvisited, bind at 1, nodeKeys.
  assert (I0 : Inv [] ([], O) g0) by (unfold Inv; simpl; repeat split; tauto).
  pose proof (triple_foldM Inv _ (keys g0) (fun done a s _ => Hbody done a s)
                [] ([], O) g0 I0) as T.
  destruct (foldM _ (keys g0) ([], O) g0) as [[st | |] g']; try exact T.
  destruct T as (K & Len & H). simpl in *. split.
  - rewrite Len. unfold keys. now rewrite length_map.
  - intros n node L. apply (H n node); [| assumption].
    rewrite <- K. eapply lookup_keys; eauto.
Qed.

(** The scan for the minimum reads the table only, and a node it selects
    has the finite distance it reports. *)
Lemma findMin_post (g0 : Graph) (q : list string) :
  triple (fun g => g = g0) (findMin q)
         (fun st g =>
            g = g0 /\
            forall u, snd st = Some u ->
                      exists node d, lookup u g0 = Some node /\
                                     dist node = Some (Hops d) /\ fst st = Hops d).
Proof.
  pose (Inv := fun (_ : list string) (st : Dist * option string) (g : Graph) =>
                 g = g0 /\
                 forall u, snd st = Some u ->
                           exists node d, lookup u g0 = Some node /\
                                          dist node = Some (Hops d) /\ fst st = Hops d).
  unfold findMin.
  eapply triple_weaken with (P' := Inv [] (Infinity, None)) (Q' := Inv ([] ++ q)%list).
  - apply triple_foldM. intros done n st _. subst Inv. cbv beta.
    eapply triple_bind; [apply triple_readField |].
    intros d g [[-> H] (node & L & ->)].
    unfold optDistLt.
    destruct (dist node) as [[| x] |] eqn:D.
    + split; [reflexivity | exact H].
    + destruct (distLt (Hops x) (fst st)); [| split; [reflexivity | exact H]].
      split; [reflexivity |]. intros u Hu. injection Hu as <-. eauto.
    + split; [reflexivity | exact H].
  - intros g ->. split; [reflexivity | discriminate].
  - intros st g H. exact H.
Qed.

Lemma distLt_Hops (a : Z) (d : Dist) :
  distLt (Hops a) d = true -> d = Infinity \/ exists b, d = Hops b /\ a < b.
Proof.
  destruct d as [| b]; simpl; [now left |].
  intros H. apply Z.ltb_lt in H. right. eauto.
Qed.

(** One relaxation: [v] gets distance [d+1] and predecessor [u]. *)
Lemma ranked_relax_step (s : string) (k d : Z) (u v : string) (g : Graph) (nodeU nodeV : Node) :
  0 <= d <= k -> truthy (Some u) = true ->
  ranked s (k + 1) g ->
  lookup u g = Some nodeU -> dist nodeU = Some (Hops d) -> In v (connectsTo nodeU) ->
  lookup v g = Some nodeV -> distLtOpt (Hops (d + 1)) (dist nodeV) = true ->
  let g' := update v (withPrev (Some u)) (update v (withDist (Some (Hops (d + 1)))) g) in
  ranked s (k + 1) g' /\ lookup u g' = Some nodeU.
Proof.
  intros Hd Tu (Ra & Rb & Rc) Lu Du Euv Lv Lt g'.
  assert (NE : String.eqb u v = false).
  { destruct (String.eqb u v) eqn:E; [| reflexivity].
    apply String.eqb_eq in E. subst v. rewrite Lu in Lv. injection Lv as <-.
    rewrite Du in Lt. simpl in Lt. apply Z.ltb_lt in Lt. lia. }
  set (nodeV' := withPrev (Some u) (withDist (Some (Hops (d + 1))) nodeV)).
  assert (Lg' : forall n, lookup n g' = if String.eqb n v then Some nodeV' else lookup n g).
  { intros n. unfold g'. rewrite !lookup_update.
    destruct (String.eqb n v) eqn:E; [| reflexivity].
    apply String.eqb_eq in E. subst n. now rewrite Lv. }
  assert (Dv : dist nodeV = Some Infinity \/
               exists b, dist nodeV = Some (Hops b) /\ d + 1 < b).
  { destruct (dist nodeV) as [dv |]; [| discriminate Lt]. simpl in Lt.
    apply distLt_Hops in Lt as [-> | (b & -> & Hb)]; eauto. }
  split; [split; [| split] |].
  - intros n node x. rewrite Lg'.
    destruct (String.eqb n v).
    + intros H. injection H as <-. simpl. intros H. injection H as <-. lia.
    + apply Ra.
  - intros n node p. rewrite Lg'.
    destruct (String.eqb n v) eqn:E.
    + apply String.eqb_eq in E. subst n.
      intros H. injection H as <-. simpl. intros H. injection H as <-.
      exists (d + 1), nodeU, d. rewrite Lg', NE.
      repeat split; try assumption. lia.
    + intros L P.
      destruct (Rb n node p L P) as (dn & nodeP & dp & Dn & Lp & Dp & Hlt & Hedge & Tp).
      destruct (String.eqb p v) eqn:Ep.
      * apply String.eqb_eq in Ep. subst p. rewrite Lv in Lp. injection Lp as <-.
        exists dn, nodeV', (d + 1).
        rewrite Lg', String.eqb_refl. repeat split; try assumption.
        destruct Dv as [Dv | (b & Dv & Hb)]; rewrite Dv in Dp; [discriminate |].
        injection Dp as <-. lia.
      * exists dn, nodeP, dp. rewrite Lg', Ep. repeat split; assumption.
  - intros n node x. rewrite Lg'.
    destruct (String.eqb n v).
    + intros H. injection H as <-. simpl. discriminate.
    + apply Rc.
  - now rewrite Lg', NE.
Qed.

Lemma relax_post (s : string) (k d : Z) (u : string) :
  0 <= d <= k -> truthy (Some u) = true ->
  triple (fun g => ranked s k g /\
                   exists nodeU, lookup u g = Some nodeU /\ dist nodeU = Some (Hops d))
         (relax u (Hops d))
         (fun _ g => ranked s (k + 1) g).
Proof.
  intros Hd Tu. unfold relax.
  eapply triple_bind; [apply triple_readField |].
  intros vs.
  pose (Inv := fun (_ : list string) (_ : unit) (g : Graph) =>
                 ranked s (k + 1) g /\
                 exists nodeU, lookup u g = Some nodeU /\ dist nodeU = Some (Hops d) /\
                               vs = connectsTo nodeU).
  eapply triple_weaken with (P' := Inv [] tt) (Q' := Inv ([] ++ vs)%list).
  - apply triple_foldM. intros done v [] Hv. subst Inv. cbv beta.
    eapply triple_bind; [apply triple_readField |].
    intros dv g [[R (nodeU & Lu & Du & Evs)] (nodeV & Lv & ->)].
    destruct (distLtOpt (distSucc (Hops d)) (dist nodeV)) eqn:Lt;
      [| simpl; split; [assumption | eauto]].
    unfold bind, writeField. rewrite Lv. cbn [fst snd].
    rewrite lookup_update, String.eqb_refl, Lv. simpl option_map. cbv iota.
    rewrite Evs in Hv.
    destruct (ranked_relax_step s k d u v g nodeU nodeV Hd Tu R Lu Du Hv Lv Lt) as [R' Lu'].
    split; [exact R' | eauto].
  - intros g [[R (nodeU & Lu & Du)] (nodeU' & Lu' & ->)].
    rewrite Lu in Lu'. injection Lu' as <-.
    split; [apply (ranked_mono s k); [lia | exact R] | eauto].
  - intros [] g [R _]. exact R.
Qed.

Lemma dijkstraLoop_post (s : string) (qlen : nat) :
  forall (k : Z) (q : list string),
    0 <= k ->
    triple (ranked s k) (dijkstraLoop qlen q) (fun _ g => ranked s (k + Z.of_nat qlen) g).
Proof.
  induction qlen as [| qlen IH]; intros k q Hk.
  - apply triple_ret. intros g R. now rewrite Z.add_0_r.
  - intros g R. cbn [dijkstraLoop]. unfold bind at 1.
    pose proof (findMin_post g q g eq_refl) as F.
    destruct (findMin q g) as [[[u_dist u] | |] g']; [| exact I | exact F].
    destruct F as [-> F]. cbn [fst snd] in *.
    assert (M : ranked s (k + Z.of_nat (S qlen)) g)
      by (apply (ranked_mono s k); [lia | exact R]).
    destruct (truthy u) eqn:Tu; [| exact M].
    destruct u as [u |]; [| exact M].
    destruct (F u eq_refl) as (node & d & L & D & ->).
    assert (Hd : 0 <= d <= k) by (destruct R as [Ra _]; eapply Ra; eauto).
    unfold bind.
    pose proof (relax_post s k d u Hd Tu g (conj R (ex_intro _ node (conj L D)))) as X.
    destruct (relax u (Hops d) g) as [[[] | |] g1]; [| exact I | exact X].
    assert (Hk1 : 0 <= k + 1) by lia.
    pose proof (IH (k + 1) (setRemove u q) Hk1 g1 X) as Y.
    destruct (dijkstraLoop qlen (setRemove u q) g1) as [[b | |] g2]; try exact Y.
    replace (k + Z.of_nat (S qlen)) with (k + 1 + Z.of_nat qlen) by lia. exact Y.
Qed.

(** When [dijkstra] completes, distances are bounded by the number of
    nodes and decrease strictly along [prev], which follows edges back to
    the source. *)
Lemma dijkstra_post (s : string) (g0 : Graph) :
  triple (fun g => g = g0) (dijkstra s)
         (fun _ g => ranked s (Z.of_nat (List.length g0)) g).
Proof.
  unfold dijkstra.
  eapply triple_bind; [apply initUnvisited_post |].
  intros st. cbv beta.
  eapply triple_bind with (R := fun _ g => snd st = List.length g0 /\ ranked s 0 g).
  - apply triple_writeField. intros g node [Len H] L. split; [exact Len |].
    split; [| split].
    + intros n nd d. rewrite lookup_update.
      destruct (String.eqb n s) eqn:E.
      * apply String.eqb_eq in E. subst n. rewrite L. simpl.
        intros Hx. injection Hx as <-. simpl. intros Hx. injection Hx as <-. lia.
      * intros Ln D. destruct (H n nd Ln) as [D' _]. congruence.
    + intros n nd p. rewrite lookup_update.
      destruct (String.eqb n s) eqn:E.
      * apply String.eqb_eq in E. subst n. rewrite L. simpl.
        intros Hx. injection Hx as <-. simpl. intros P.
        destruct (H s node L) as [_ P']. congruence.
      * intros Ln P. destruct (H n nd Ln) as [_ P']. congruence.
    + intros n nd d. rewrite lookup_update.
      destruct (String.eqb n s) eqn:E.
      * apply String.eqb_eq in E. auto.
      * intros Ln D. destruct (H n nd Ln) as [D' _]. congruence.
  - intros _ g [Len R]. rewrite Len.
    pose proof (dijkstraLoop_post s (List.length g0) 0 (fst st) (Z.le_refl 0) g R) as X.
    destruct (dijkstraLoop (List.length g0) (fst st) g) as [[b | |] g']; exact X.
Qed.

(** Following [prev] from a node at distance [d] runs the loop body at
    most [d] times, and meets nodes of the table only. *)
Lemma walkBack_returns (s : string) (k : Z) (g : Graph) :
  ranked s k g ->
  forall (fuel : nat) (n : string) (node : Node) (solution : list string),
    lookup n g = Some node ->
    (forall d, dist node = Some (Hops d) -> d <= Z.of_nat fuel) ->
    exists solution', walkBack fuel g (Some node) solution = Normal solution'.
Proof.
  intros (Ra & Rb & _). induction fuel as [| fuel IH]; intros n node solution L B.
  - simpl. destruct (truthy (prev node)); [| eauto].
    destruct (prev node) as [p |] eqn:P; [| eauto].
    destruct (Rb n node p L P) as (dn & nodeP & dp & Dn & Lp & Dp & Hlt & _).
    specialize (B dn Dn). specialize (Ra p nodeP dp Lp Dp). simpl in B. lia.
  - simpl. destruct (truthy (prev node)); [| eauto].
    destruct (prev node) as [p |] eqn:P; [| eauto].
    destruct (Rb n node p L P) as (dn & nodeP & dp & Dn & Lp & Dp & Hlt & _).
    rewrite Lp. apply (IH p nodeP _ Lp).
    intros d D. rewrite Dp in D. injection D as <-. specialize (B dn Dn). lia.
Qed.

Lemma walkBack_after_dijkstra (s : string) (g g' : Graph) (t : string) (node : Node) :
  ranked s (Z.of_nat (List.length g)) g' -> skeleton g' = skeleton g ->
  lookup t g' = Some node ->
  exists solution, walkBack (List.length g') g' (Some node) [t] = Normal solution.
Proof.
  intros R S L. apply (walkBack_returns s _ g' R _ t node _ L).
  intros d Dn. destruct R as [Ra _]. specialize (Ra t node d L Dn).
  rewrite (skeleton_length g' g S). lia.
Qed.

(** The model of [findSolution] never runs out of steps: the loop over
    [prev] ends within the budget it is given, for any table and any
    strings. *)
Theorem findSolution_finishes (s t : string) (g : Graph) :
  fst (findSolution s t g) <> Unfinished.
Proof.
  unfold findSolution.
  destruct (parsePosition s); [| discriminate].
  destruct (parsePosition t); [| discriminate].
  unfold bind.
  pose proof (dijkstra_post s g g eq_refl) as D.
  destruct (tame_dijkstra s g) as [S _].
  destruct (dijkstra s g) as [[b | |] g']; cbn [fst snd] in *; [| discriminate | contradiction].
  destruct (lookup t g') as [node |] eqn:L.
  - destruct (walkBack_after_dijkstra s g g' t node D S L) as [sol ->]. discriminate.
  - rewrite walkBack_undefined. discriminate.
Qed.

(** ** The list that is returned *)

Lemma falsy_prev_is_source (s : string) (k : Z) (g : Graph) (n : string) (node : Node) (d : Z) :
  ranked s k g -> lookup n g = Some node -> dist node = Some (Hops d) ->
  truthy (prev node) = false -> n = s.
Proof.
  intros (_ & Rb & Rc) L D T.
  destruct (prev node) as [p |] eqn:P; [| eapply Rc; eauto].
  destruct (Rb n node p L P) as (_ & _ & _ & _ & _ & _ & _ & _ & Tp). congruence.
Qed.

(** The loop over [prev] extends the list at the front, one edge at a
    time, and stops at the source unless it stops at once. *)
Lemma walkBack_path (s : string) (k : Z) (g : Graph) :
  ranked s k g ->
  forall (fuel : nat) (n : string) (node : Node) (rest solution : list string),
    lookup n g = Some node -> isPath g (n :: rest) ->
    walkBack fuel g (Some node) (n :: rest) = Normal solution ->
    isPath g solution /\
    (exists pre, solution = (pre ++ n :: rest)%list) /\
    ((solution = n :: rest /\ truthy (prev node) = false) \/ hd_error solution = Some s).
Proof.
  intros R. pose proof R as (Ra & Rb & Rc).
  induction fuel as [| fuel IH]; intros n node rest solution L Hp W.
  - simpl in W. destruct (truthy (prev node)) eqn:T.
    + destruct (prev node) as [p |] eqn:P; [discriminate W | discriminate T].
    + injection W as <-. split; [exact Hp | split; [now exists [] | now left]].
  - simpl in W. destruct (truthy (prev node)) eqn:T.
    + destruct (prev node) as [p |] eqn:P; [| discriminate T].
      destruct (Rb n node p L P) as (dn & nodeP & dp & Dn & Lp & Dp & Hlt & Hedge & Tp).
      rewrite Lp in W.
      assert (Hp' : isPath g (p :: n :: rest)).
      { split; [exists nodeP; auto | exact Hp]. }
      destruct (IH p nodeP (n :: rest) solution Lp Hp' W) as (I1 & (pre & E) & Hhd).
      split; [exact I1 | split].
      * exists (pre ++ [p])%list. rewrite <- app_assoc. exact E.
      * right. destruct Hhd as [[-> Tf] | Hhd]; [| exact Hhd].
        simpl. f_equal. eapply falsy_prev_is_source; eauto.
    + injection W as <-. split; [exact Hp | split; [now exists [] | now left]].
Qed.

Lemma edge_skeleton (g g' : Graph) (a b : string) :
  skeleton g' = skeleton g -> edge g' a b -> edge g a b.
Proof.
  intros S (node & L & Hb).
  pose proof (skeleton_lookup g' g a S) as E. rewrite L in E.
  destruct (lookup a g) as [node0 |] eqn:L0; cbn [option_map] in E; [| discriminate E].
  exists node0. split; [exact L0 |].
  assert (C : connectsTo node = connectsTo node0) by (unfold frameOf in E; congruence).
  now rewrite <- C.
Qed.

Lemma isPath_skeleton (g g' : Graph) (l : list string) :
  skeleton g' = skeleton g -> isPath g' l -> isPath g l.
Proof.
  intros S. induction l as [| a [| b l] IH]; simpl; auto.
  intros [E P]. split; [now apply (edge_skeleton g g') | now apply IH].
Qed.

(** Whenever [findSolution] returns a list, the list ends with the target,
    each name in it has an edge of the graph to the next, and it is either
    the target alone or begins with the source. *)
Theorem findSolution_solution_is_path (s t : string) (g g' : Graph) (solution : list string) :
  findSolution s t g = (Normal (Some solution), g') ->
  isPath g solution /\
  (exists pre, solution = (pre ++ [t])%list) /\
  (solution = [t] \/ hd_error solution = Some s).
Proof.
  unfold findSolution.
  destruct (parsePosition s); [| discriminate].
  destruct (parsePosition t); [| discriminate].
  unfold bind.
  pose proof (dijkstra_post s g g eq_refl) as D.
  destruct (tame_dijkstra s g) as [S _].
  destruct (dijkstra s g) as [[b | |] g1]; cbn [fst snd] in *; try discriminate.
  destruct (lookup t g1) as [node |] eqn:L; [| rewrite walkBack_undefined; discriminate].
  destruct (walkBack (List.length g1) g1 (Some node) [t]) as [sol | |] eqn:W; try discriminate.
  intros H. injection H as <- <-.
  destruct (walkBack_path s _ g1 D _ t node [] sol L I W) as (P & E & Hhd).
  split; [now apply (isPath_skeleton g g1) | split; [exact E |]].
  destruct Hhd as [[-> _] | Hhd]; auto.
Qed.

(** ** Every node that can be reached is reached *)

Lemma triple_conj {A} (P : Graph -> Prop) (m : Exec A) (Q1 Q2 : A -> Graph -> Prop) :
  triple P m Q1 -> triple P m Q2 -> triple P m (fun a g => Q1 a g /\ Q2 a g).
Proof.
  intros H1 H2 g Pg. specialize (H1 g Pg). specialize (H2 g Pg).
  destruct (m g) as [[a | |] g']; auto.
Qed.

Lemma fold_setAdd_In (ks q : list string) (n : string) :
  In n (fold_left (fun q k => setAdd k q) ks q) <-> In n q \/ In n ks.
Proof.
  revert q. induction ks as [| k ks IH]; intros q; simpl; [tauto |].
  rewrite IH, setAdd_In. intuition congruence.
Qed.

Lemma setAdd_length (k : string) (q : list string) :
  (List.length (setAdd k q) <= S (List.length q))%nat.
Proof.
  unfold setAdd. destruct (existsb (String.eqb k) q); [lia |].
  rewrite length_app. simpl. lia.
Qed.

Lemma fold_setAdd_length (ks q : list string) :
  (List.length (fold_left (fun q k => setAdd k q) ks q) <= List.length q + List.length ks)%nat.
Proof.
  revert q. induction ks as [| k ks IH]; intros q; simpl; [lia |].
  specialize (IH (setAdd k q)). pose proof (setAdd_length k q). lia.
Qed.

(** The unvisited set and its size after the initialisation loop. *)
Lemma initUnvisited_unvisited (g0 : Graph) :
  triple (fun g => g = g0) initUnvisited
         (fun st _ =>
            (forall n, In n (fst st) <-> In n (keys g0)) /\
            (List.length (fst st) <= snd st)%nat).
Proof.
  assert (H : forall ks q len,
             triple (fun _ => True)
               (foldM (fun (st : list string * nat) n =>
                         writeField (withDist (Some Infinity)) n ;;;
                         writeField (withPrev None) n ;;;
                         ret (setAdd n (fst st), S (snd st)))
                      ks (q, len))
               (fun st _ => fst st = fold_left (fun q k => setAdd k q) ks q /\
                            snd st = (len + List.length ks)%nat)).
  { induction ks as [| k ks IH]; intros q len; simpl.
    - apply triple_ret. intros _ _. cbn [fst snd]. split; [reflexivity | lia].
    - eapply triple_bind with (R := fun st' _ => st' = (setAdd k q, S len)).
      + intros g _. unfold bind, writeField.
        destruct (lookup k g) as [node |]; [| exact I]. cbn [fst snd].
        rewrite lookup_update, String.eqb_refl.
        destruct (lookup k g) as [node' |]; [reflexivity | exact I].
      + intros st'. eapply triple_weaken with (P' := fun _ => st' = (setAdd k q, S len));
          [| auto | intros a g H; exact H].
        intros g ->. specialize (IH (setAdd k q) (S len) g I).
        destruct (foldM _ ks (setAdd k q, S len) g) as [[st | |] g']; try exact IH.
        destruct IH as [-> ->]. split; [reflexivity | lia]. }
  intros g ->. unfold initUnvisited, bind at 1, nodeKeys.
  specialize (H (keys g0) [] O g0 I).
  destruct (foldM _ (keys g0) ([], O) g0) as [[st | |] g']; try exact H.
  destruct H as [-> ->]. split.
  - intros n. rewrite fold_setAdd_In. simpl. tauto.
  - pose proof (fold_setAdd_length (keys g0) []). simpl in *. lia.
Qed.

(** What the scan for the minimum selects lies in [q]; when it selects
    nothing, no node of [q] is at a finite distance. *)
Lemma findMin_selects (g0 : Graph) (q : list string) :
  triple (fun g => g = g0) (findMin q)
         (fun st _ =>
            (forall u, snd st = Some u -> In u q) /\
            (snd st = None -> forall n, In n q -> ~ finiteAt g0 n)).
Proof.
  pose (Inv := fun (done : list string) (st : Dist * option string) (g : Graph) =>
                 g = g0 /\
                 (forall u, snd st = Some u -> In u done) /\
                 (snd st = None ->
                  fst st = Infinity /\ forall n, In n done -> ~ finiteAt g0 n)).
  unfold findMin.
  eapply triple_weaken with (P' := Inv [] (Infinity, None)) (Q' := Inv ([] ++ q)%list).
  - apply triple_foldM. intros done n st _. subst Inv. cbv beta.
    eapply triple_bind; [apply triple_readField |].
    intros d g [(-> & Hs & Hn) (node & L & ->)].
    assert (Keep : forall u, snd st = Some u -> In u (done ++ [n])%list)
      by (intros u Hu; apply in_app_iff; left; auto).
    unfold optDistLt.
    destruct (dist node) as [[| x] |] eqn:D.
    + (* +Infinity is never below the current minimum *)
      split; [reflexivity | split; [exact Keep |]].
      intros N. destruct (Hn N) as [F H]. split; [exact F |].
      intros m Hm (nd & dm & Lm & Dm). apply in_app_iff in Hm as [Hm | [<- | []]].
      * apply (H m Hm). exists nd, dm. auto.
      * rewrite L in Lm. injection Lm as <-. congruence.
    + destruct (distLt (Hops x) (fst st)) eqn:Lt.
      * split; [reflexivity | split; [| discriminate]].
        intros u Hu. injection Hu as <-. apply in_app_iff. right. now left.
      * split; [reflexivity | split; [exact Keep |]].
        intros N. destruct (Hn N) as [F _]. rewrite F in Lt. discriminate Lt.
    + split; [reflexivity | split; [exact Keep |]].
      intros N. destruct (Hn N) as [F H]. split; [exact F |].
      intros m Hm (nd & dm & Lm & Dm). apply in_app_iff in Hm as [Hm | [<- | []]].
      * apply (H m Hm). exists nd, dm. auto.
      * rewrite L in Lm. injection Lm as <-. congruence.
  - intros g ->. subst Inv. cbv beta. split; [reflexivity | split; [discriminate |]].
    intros _. split; [reflexivity | intros n []].
  - intros st g (_ & Hs & Hn). split; [exact Hs |].
    intros N. now destruct (Hn N).
Qed.

Lemma finiteAt_relaxed (g : Graph) (v n : string) (a : Z) (p : option string) :
  finiteAt g n ->
  finiteAt (update v (withPrev p) (update v (withDist (Some (Hops a))) g)) n.
Proof.
  intros (node & d & L & D). unfold finiteAt. rewrite !lookup_update.
  destruct (String.eqb n v) eqn:E.
  - rewrite L. simpl. eexists _, a. split; reflexivity.
  - eauto.
Qed.

(** Relaxing the edges of [u] keeps finite distances finite and leaves
    every neighbour of [u] at a finite distance. *)
Lemma relax_finite (F : string -> Prop) (u : string) (d : Z) :
  triple (fun g => (forall n node, lookup n g = Some node -> dist node <> None) /\
                   (forall n, F n -> finiteAt g n))
         (relax u (Hops d))
         (fun _ g => (forall n node, lookup n g = Some node -> dist node <> None) /\
                     (forall n, F n -> finiteAt g n) /\
                     (forall nodeU v, lookup u g = Some nodeU ->
                                      In v (connectsTo nodeU) -> finiteAt g v)).
Proof.
  unfold relax.
  eapply triple_bind; [apply triple_readField |].
  intros vs.
  pose (Inv := fun (done : list string) (_ : unit) (g : Graph) =>
                 (forall n node, lookup n g = Some node -> dist node <> None) /\
                 (forall n, F n -> finiteAt g n) /\
                 (forall v, In v done -> finiteAt g v) /\
                 (exists nodeU, lookup u g = Some nodeU /\ vs = connectsTo nodeU)).
  eapply triple_weaken with (P' := Inv [] tt) (Q' := Inv ([] ++ vs)%list).
  - apply triple_foldM. intros done v [] Hv. subst Inv. cbv beta.
    eapply triple_bind; [apply triple_readField |].
    intros dv g [(Q0 & HF & Hdone & (nodeU & Lu & Evs)) (nodeV & Lv & ->)].
    destruct (distLtOpt (distSucc (Hops d)) (dist nodeV)) eqn:Lt.
    + unfold bind, writeField. rewrite Lv. cbn [fst snd].
      rewrite lookup_update, String.eqb_refl, Lv. simpl option_map. cbv iota.
      cbn [distSucc].
      split; [| split; [| split]].
      * intros n node. rewrite !lookup_update.
        destruct (String.eqb n v) eqn:E; [| apply Q0].
        apply String.eqb_eq in E. subst n.
        rewrite Lv. simpl. intros H. injection H as <-. discriminate.
      * intros n Hn. apply finiteAt_relaxed. auto.
      * intros w Hw. apply in_app_iff in Hw as [Hw | [<- | []]].
        -- apply finiteAt_relaxed. auto.
        -- unfold finiteAt. rewrite !lookup_update, String.eqb_refl, Lv. simpl.
           eexists _, (d + 1). split; reflexivity.
      * rewrite !lookup_update.
        destruct (String.eqb u v) eqn:E.
        -- apply String.eqb_eq in E. subst v. rewrite Lu in Lv. injection Lv as <-.
           rewrite Lu. simpl. eauto.
        -- eauto.
    + simpl. split; [exact Q0 | split; [exact HF | split; [| eauto]]].
      intros w Hw. apply in_app_iff in Hw as [Hw | [<- | []]]; [auto |].
      destruct (dist nodeV) as [[| b] |] eqn:Dv.
      * discriminate Lt.
      * exists nodeV, b. auto.
      * exfalso. apply (Q0 v nodeV Lv Dv).
  - intros g [[Q0 HF] (nodeU & Lu & ->)]. subst Inv. cbv beta.
    split; [exact Q0 | split; [exact HF | split; [intros v [] | eauto]]].
  - intros [] g (Q0 & HF & Hdone & (nodeU & Lu & Evs)).
    split; [exact Q0 | split; [exact HF |]].
    intros nodeU' v Lu' Hv. rewrite Lu in Lu'. injection Lu' as <-.
    apply Hdone. simpl. now rewrite Evs.
Qed.

Lemma setRemove_In (u n : string) (q : list string) :
  In n (setRemove u q) <-> In n q /\ n <> u.
Proof.
  unfold setRemove. rewrite filter_In, negb_true_iff.
  split; intros [H E]; split; try assumption.
  - intros ->. now rewrite String.eqb_refl in E.
  - destruct (String.eqb u n) eqn:X; [| reflexivity].
    apply String.eqb_eq in X. congruence.
Qed.

Lemma setRemove_length (u : string) (q : list string) :
  In u q -> (List.length (setRemove u q) < List.length q)%nat.
Proof.
  unfold setRemove. induction q as [| k q IH]; simpl; [contradiction |].
  pose proof (filter_length_le (fun k => negb (String.eqb u k)) q) as Le.
  destruct (String.eqb u k) eqn:E; simpl.
  - intros _. lia.
  - intros [-> | H]; [now rewrite String.eqb_refl in E |].
    specialize (IH H). lia.
Qed.

Lemma tame_triple {A} (m : Exec A) (g0 : Graph) :
  tame m -> triple (fun g => g = g0) m (fun _ g => skeleton g = skeleton g0).
Proof.
  intros T g ->. destruct (T g0) as [S F].
  destruct (m g0) as [[a | |] g']; cbn [fst snd] in *; [exact S | exact I | contradiction].
Qed.

(** The loop ends with the finite distances closed under edges. *)
Lemma dijkstraLoop_explored (s : string) (qlen : nat) :
  forall q : list string,
    (List.length q <= qlen)%nat -> ~ In "" q ->
    triple (settled s q) (dijkstraLoop qlen q) (fun _ g => explored s g).
Proof.
  induction qlen as [| qlen IH]; intros q Hlen Hne.
  - apply triple_ret. intros g (Q0 & Fs & Q3 & Q1).
    destruct q; [| simpl in Hlen; lia].
    split; [exact Fs |]. intros n node v L _ Hv. apply (Q1 n node v L); auto.
  - intros g (Q0 & Fs & Q3 & Q1). cbn [dijkstraLoop]. unfold bind at 1.
    pose proof (findMin_post g q g eq_refl) as F1.
    pose proof (findMin_selects g q g eq_refl) as F2.
    destruct (findMin q g) as [[[ud u] | |] g']; [| exact I | exact F1].
    destruct F1 as [-> F1]. destruct F2 as [Hin Hnone]. cbn [fst snd] in *.
    destruct u as [u |].
    + destruct (truthy (Some u)) eqn:Tu.
      * destruct (F1 u eq_refl) as (node & d & L & D & ->).
        specialize (Hin u eq_refl). unfold bind.
        pose proof (relax_finite (finiteAt g) u d g (conj Q0 (fun n H => H))) as X.
        destruct (tame_relax u (Hops d) g) as [Sk _].
        destruct (relax u (Hops d) g) as [[[] | |] g1]; [| exact I | exact X].
        cbn [snd] in Sk. destruct X as (Q0' & Mono & Nb).
        assert (Hlen' : (List.length (setRemove u q) <= qlen)%nat)
          by (pose proof (setRemove_length u q Hin); lia).
        assert (Hne' : ~ In "" (setRemove u q))
          by (intros H; apply setRemove_In in H as [H _]; auto).
        apply (IH (setRemove u q) Hlen' Hne' g1).
        assert (Out : forall n, ~ In n (setRemove u q) -> n = u \/ ~ In n q).
        { intros n H. destruct (String.eqb n u) eqn:E.
          - left. now apply String.eqb_eq.
          - right. intros Hq. apply H, setRemove_In. split; [exact Hq |].
            intros ->. now rewrite String.eqb_refl in E. }
        split; [exact Q0' | split; [now apply Mono | split]].
        -- intros n Hk Hn. destruct (Out n Hn) as [-> | Hq].
           ++ apply Mono. exists node, d. auto.
           ++ apply Mono, Q3; [| exact Hq]. now rewrite <- (skeleton_keys g1 g Sk).
        -- intros n node1 v L1 Hn Hv. destruct (Out n Hn) as [-> | Hq].
           ++ now apply (Nb node1).
           ++ pose proof (skeleton_lookup g1 g n Sk) as E. rewrite L1 in E.
              destruct (lookup n g) as [node0 |] eqn:L0; cbn [option_map] in E;
                [| discriminate E].
              apply Mono, (Q1 n node0 v L0 Hq).
              assert (C : connectsTo node1 = connectsTo node0)
                by (unfold frameOf in E; congruence).
              now rewrite <- C.
      * exfalso. apply Hne. specialize (Hin u eq_refl).
        simpl in Tu. apply negb_false_iff, String.eqb_eq in Tu. now subst u.
    + simpl. split; [exact Fs |]. intros n node v L Fn Hv.
      apply (Q1 n node v L); [| exact Hv]. intros Hq. exact (Hnone eq_refl n Hq Fn).
Qed.

Lemma dijkstra_explored (s : string) (g0 : Graph) :
  ~ In "" (keys g0) ->
  triple (fun g => g = g0) (dijkstra s) (fun _ g => explored s g).
Proof.
  intros Hne. unfold dijkstra.
  eapply triple_bind.
  { apply triple_conj; [apply initUnvisited_post |].
    apply triple_conj; [apply initUnvisited_unvisited |].
    apply tame_triple, tame_initUnvisited. }
  intros st. cbv beta.
  eapply triple_bind with
    (R := fun _ g => (forall n, In n (fst st) <-> In n (keys g0)) /\
                     (List.length (fst st) <= snd st)%nat /\ settled s (fst st) g).
  - apply triple_writeField. intros g node [[_ H] [[Hq Hl] Sk]] L.
    split; [exact Hq | split; [exact Hl |]].
    assert (K : forall n, In n (keys g) -> In n (fst st))
      by (intros n Hn; apply Hq; now rewrite <- (skeleton_keys g g0 Sk)).
    split; [| split; [| split]].
    + intros n nd. rewrite lookup_update.
      destruct (String.eqb n s) eqn:E.
      * apply String.eqb_eq in E. subst n. rewrite L. simpl.
        intros Hx. injection Hx as <-. discriminate.
      * intros Ln D. destruct (H n nd Ln) as [D' _]. congruence.
    + unfold finiteAt. rewrite lookup_update, String.eqb_refl, L. simpl.
      eexists _, 0. split; reflexivity.
    + intros n Hn Hq'. rewrite keys_update in Hn. exfalso. auto.
    + intros n nd v Ln Hq'. exfalso. apply Hq', K.
      rewrite <- (keys_update s (withDist (Some (Hops 0))) g).
      eapply lookup_keys; eauto.
  - intros _ g (Hq & Hl & St).
    assert (Hne' : ~ In "" (fst st)) by (intros X; apply Hne, Hq, X).
    pose proof (dijkstraLoop_explored s (snd st) (fst st) Hl Hne' g St) as X.
    destruct (dijkstraLoop (snd st) (fst st) g) as [[b | |] g']; exact X.
Qed.

Lemma reaches_skeleton (g g' : Graph) (a b : string) :
  skeleton g' = skeleton g -> reaches g a b -> reaches g' a b.
Proof.
  intros S H. induction H as [a b node L Hb | a b c node L Hb _ IH].
  - destruct (edge_skeleton g' g a b (eq_sym S) (ex_intro _ node (conj L Hb)))
      as (node' & L' & Hb').
    eapply reaches_edge; eauto.
  - destruct (edge_skeleton g' g a b (eq_sym S) (ex_intro _ node (conj L Hb)))
      as (node' & L' & Hb').
    eapply reaches_step; eauto.
Qed.

Lemma explored_reaches (s : string) (g : Graph) (a b : string) :
  explored s g -> reaches g a b -> finiteAt g a -> finiteAt g b.
Proof.
  intros [_ E] H. induction H as [a b node L Hb | a b c node L Hb _ IH]; intros Fa.
  - now apply (E a node b).
  - apply IH. now apply (E a node b).
Qed.

(** When the target can be reached from the source along edges, or is
    the source, the list that [findSolution] returns begins with the
    source. *)
Theorem findSolution_starts_at_source (s t : string) (g g' : Graph) (solution : list string) :
  ~ In "" (keys g) ->
  findSolution s t g = (Normal (Some solution), g') ->
  s = t \/ reaches g s t ->
  hd_error solution = Some s.
Proof.
  intros Hne. unfold findSolution.
  destruct (parsePosition s); [| discriminate].
  destruct (parsePosition t); [| discriminate].
  unfold bind.
  pose proof (dijkstra_post s g g eq_refl) as D.
  pose proof (dijkstra_explored s g Hne g eq_refl) as X.
  destruct (tame_dijkstra s g) as [S _].
  destruct (dijkstra s g) as [[b | |] g1]; cbn [fst snd] in *; try discriminate.
  destruct (lookup t g1) as [node |] eqn:L; [| rewrite walkBack_undefined; discriminate].
  destruct (walkBack (List.length g1) g1 (Some node) [t]) as [sol | |] eqn:W; try discriminate.
  intros H R. injection H as <- <-.
  destruct (walkBack_path s _ g1 D _ t node [] sol L I W) as (_ & _ & [[-> T] | Hhd]);
    [| exact Hhd].
  assert (Ft : finiteAt g1 t).
  { destruct R as [<- | R]; [exact (proj1 X) |].
    eapply explored_reaches; [exact X | | exact (proj1 X)].
    now apply (reaches_skeleton g g1). }
  destruct Ft as (node' & d & L' & Dn). rewrite L in L'. injection L' as <-.
  simpl. f_equal.
  exact (falsy_prev_is_source s _ g1 t node d D L Dn T).
Qed.

(** ** Searches between nodes of a closed table *)

Lemma keys_lookup (n : string) (g : Graph) :
  In n (keys g) -> exists node, lookup n g = Some node.
Proof.
  induction g as [| [k m] g IH]; simpl; [contradiction |].
  intros [<- | H].
  - rewrite String.eqb_refl. eauto.
  - destruct (String.eqb n k); eauto.
Qed.

Lemma skeleton_node (g g0 : Graph) (n : string) :
  skeleton g = skeleton g0 -> In n (keys g0) ->
  exists node node0,
    lookup n g = Some node /\ lookup n g0 = Some node0 /\ frameOf node = frameOf node0.
Proof.
  intros S K. destruct (keys_lookup n g0 K) as [node0 L0].
  pose proof (skeleton_lookup g g0 n S) as E. rewrite L0 in E.
  destruct (lookup n g) as [node |]; cbn [option_map] in E; [| discriminate E].
  exists node, node0. repeat split; congruence.
Qed.

Lemma runsOk_ret {A} (g0 : Graph) (a : A) (Q : A -> Prop) : Q a -> runsOk g0 (ret a) Q.
Proof. intros H g S. exists a, g. auto. Qed.

Lemma runsOk_bind {A B} (g0 : Graph) (m : Exec A) (k : A -> Exec B)
      (R : A -> Prop) (Q : B -> Prop) :
  runsOk g0 m R -> (forall a, R a -> runsOk g0 (k a) Q) -> runsOk g0 (bind m k) Q.
Proof.
  intros Hm Hk g S. destruct (Hm g S) as (a & g1 & E & S1 & Ra).
  unfold bind. rewrite E. apply (Hk a Ra g1 S1).
Qed.

Lemma runsOk_readField {A} (g0 : Graph) (field : Node -> A) (n : string) :
  In n (keys g0) ->
  runsOk g0 (readField field n)
         (fun a => exists node node0,
                     lookup n g0 = Some node0 /\ frameOf node = frameOf node0 /\ a = field node).
Proof.
  intros K g S. destruct (skeleton_node g g0 n S K) as (node & node0 & L & L0 & F).
  exists (field node), g. unfold readField. rewrite L. eauto 7.
Qed.

Lemma runsOk_writeField (g0 : Graph) (f : Node -> Node) (n : string) :
  In n (keys g0) -> (forall x, frameOf (f x) = frameOf x) ->
  runsOk g0 (writeField f n) (fun _ => True).
Proof.
  intros K Hf g S. destruct (skeleton_node g g0 n S K) as (node & node0 & L & _).
  exists tt, (update n f g). unfold writeField. rewrite L.
  repeat split. now rewrite skeleton_update.
Qed.

Lemma runsOk_foldM {A S} (g0 : Graph) (Inv : S -> Prop) (body : S -> A -> Exec S) (l : list A) :
  (forall s a, In a l -> Inv s -> runsOk g0 (body s a) Inv) ->
  forall s, Inv s -> runsOk g0 (foldM body l s) Inv.
Proof.
  induction l as [| a l IH]; intros Hb s Hs; simpl.
  - now apply runsOk_ret.
  - eapply runsOk_bind; [apply Hb; [now left | exact Hs] |].
    intros s' Hs'. apply IH; [| exact Hs']. intros s0 a0 Ha. apply Hb. now right.
Qed.

Lemma runsOk_initUnvisited (g0 : Graph) :
  runsOk g0 initUnvisited (fun st => forall n, In n (fst st) -> In n (keys g0)).
Proof.
  unfold initUnvisited.
  apply runsOk_bind with (R := fun ks => ks = keys g0).
  { intros g S. exists (keys g), g. repeat split; [exact S | now apply skeleton_keys]. }
  intros ks ->. apply runsOk_foldM; [| intros n []].
  intros st n Hn Hst.
  eapply runsOk_bind; [apply runsOk_writeField; [exact Hn | reflexivity] | intros _ _].
  eapply runsOk_bind; [apply runsOk_writeField; [exact Hn | reflexivity] | intros _ _].
  apply runsOk_ret. cbn [fst]. intros x Hx.
  apply setAdd_In in Hx as [Hx | ->]; auto.
Qed.

Lemma runsOk_findMin (g0 : Graph) (q : list string) :
  (forall n, In n q -> In n (keys g0)) ->
  runsOk g0 (findMin q) (fun st => forall u, snd st = Some u -> In u (keys g0)).
Proof.
  intros Hq. unfold findMin. apply runsOk_foldM; [| discriminate].
  intros st n Hn Hst.
  eapply runsOk_bind; [apply runsOk_readField; auto | intros d _].
  destruct (optDistLt d (fst st)); [| now apply runsOk_ret].
  destruct d as [d |]; apply runsOk_ret; [| exact Hst].
  intros u Hu. injection Hu as <-. auto.
Qed.

Lemma runsOk_relax (g0 : Graph) (u : string) (u_dist : Dist) :
  closed g0 -> In u (keys g0) -> runsOk g0 (relax u u_dist) (fun _ => True).
Proof.
  intros C K. unfold relax.
  eapply runsOk_bind; [apply runsOk_readField; exact K |].
  intros vs (node & node0 & L0 & F & ->).
  assert (Hvs : forall v, In v (connectsTo node) -> In v (keys g0)).
  { intros v Hv. apply (C u node0 v L0).
    unfold frameOf in F. injection F as _ _ <-. exact Hv. }
  apply runsOk_foldM; [| exact I].
  intros [] v Hv _.
  eapply runsOk_bind; [apply runsOk_readField; auto | intros d _].
  destruct (distLtOpt (distSucc u_dist) d); [| now apply runsOk_ret].
  eapply runsOk_bind; [apply runsOk_writeField; [auto | reflexivity] | intros _ _].
  apply runsOk_writeField; [auto | reflexivity].
Qed.

Lemma runsOk_dijkstraLoop (g0 : Graph) (qlen : nat) :
  closed g0 ->
  forall q, (forall n, In n q -> In n (keys g0)) ->
            runsOk g0 (dijkstraLoop qlen q) (fun _ => True).
Proof.
  intros C. induction qlen as [| qlen IH]; intros q Hq; simpl.
  - now apply runsOk_ret.
  - eapply runsOk_bind; [apply runsOk_findMin; exact Hq |].
    intros [u_dist u] Hu. cbn [fst snd] in *.
    destruct (truthy u); [| now apply runsOk_ret].
    destruct u as [u |]; [| now apply runsOk_ret].
    eapply runsOk_bind; [apply runsOk_relax; auto | intros _ _].
    apply IH. intros n Hn. apply Hq. unfold setRemove in Hn.
    now apply filter_In in Hn as [Hn _].
Qed.

Lemma runsOk_dijkstra (g0 : Graph) (s : string) :
  closed g0 -> In s (keys g0) -> runsOk g0 (dijkstra s) (fun _ => True).
Proof.
  intros C K. unfold dijkstra.
  eapply runsOk_bind; [apply runsOk_initUnvisited | intros st Hst].
  eapply runsOk_bind; [apply runsOk_writeField; [exact K | reflexivity] | intros _ _].
  now apply runsOk_dijkstraLoop.
Qed.

(** On a table whose adjacency is closed, two strings that parse and are
    keys of the table always get a list back, and the skeleton of the
    table is kept. *)
Theorem findSolution_returns_on_known_nodes (s t : string) (g : Graph) :
  closed g -> parsePosition s <> None -> parsePosition t <> None ->
  In s (keys g) -> In t (keys g) ->
  exists solution g',
    findSolution s t g = (Normal (Some solution), g') /\ skeleton g' = skeleton g.
Proof.
  intros C Ps Pt Ks Kt. unfold findSolution.
  destruct (parsePosition s); [| contradiction].
  destruct (parsePosition t); [| contradiction].
  destruct (runsOk_dijkstra g s C Ks g eq_refl) as (b & g' & E & S & _).
  pose proof (dijkstra_post s g g eq_refl) as D.
  unfold bind. rewrite E in *.
  destruct (skeleton_node g' g t S Kt) as (node & _ & L & _).
  destruct (walkBack_after_dijkstra s g g' t node D S L) as [sol W].
  exists sol, g'. rewrite L, W. auto.
Qed.

Lemma built_graph_closed : closed CastDuetGraphNodes.
Proof.
  intros n node v L Hv.
  destruct (adjacencyClosed_sound _ built_graph_adjacencyClosed n v node L Hv) as [[nd Lv] _].
  eapply lookup_keys; eauto.
Qed.

Lemma all_parse_sound (ks : list string) (k : string) :
  forallb (fun k => match parsePosition k with Some _ => true | None => false end) ks = true ->
  In k ks -> parsePosition k <> None.
Proof.
  rewrite forallb_forall. intros H K. specialize (H k K).
  destruct (parsePosition k); [discriminate | discriminate H].
Qed.

Lemma built_graph_keys_parse :
  forallb (fun k => match parsePosition k with Some _ => true | None => false end)
          (keys CastDuetGraphNodes) = true.
Proof. vm_compute. reflexivity. Qed.

(** Between any two nodes of the built graph [findSolution] returns a
    list. *)
Corollary findSolution_returns_in_built_graph (s t : string) :
  In s (keys CastDuetGraphNodes) -> In t (keys CastDuetGraphNodes) ->
  exists solution, fst (findSolution s t CastDuetGraphNodes) = Normal (Some solution).
Proof.
  intros Ks Kt.
  destruct (findSolution_returns_on_known_nodes s t _ built_graph_closed
              (all_parse_sound _ s built_graph_keys_parse Ks)
              (all_parse_sound _ t built_graph_keys_parse Kt) Ks Kt)
    as (sol & g' & E & _).
  exists sol. exact (f_equal fst E).
Qed.

(** ** Solving on the built graph *)

Lemma reaches_snoc (g : Graph) (a b c : string) (node : Node) :
  reaches g a b -> lookup b g = Some node -> In c (connectsTo node) -> reaches g a c.
Proof.
  intros H. induction H as [a b nd L Hb | a b b' nd L Hb _ IH]; intros Lb Hc.
  - eapply reaches_step; [exact L | exact Hb |]. eapply reaches_edge; eauto.
  - eapply reaches_step; [exact L | exact Hb | auto].
Qed.

Lemma reaches_trans (g : Graph) (a b c : string) :
  reaches g a b -> reaches g b c -> reaches g a c.
Proof.
  intros H. induction H as [a b nd L Hb | a b b' nd L Hb _ IH]; intros Hc.
  - eapply reaches_step; eauto.
  - eapply reaches_step; eauto.
Qed.

Lemma spreadStep_sound (g : Graph) (P : string -> Prop) :
  (forall a b node, P a -> lookup a g = Some node -> In b (connectsTo node) -> P b) ->
  forall R, (forall x, In x R -> P x) -> forall x, In x (spreadStep g R) -> P x.
Proof.
  intros Hedge. unfold spreadStep. generalize (keys g) as ks.
  induction ks as [| k ks IH]; intros R HR x; simpl; [apply HR |].
  apply IH. clear x.
  destruct (setMem k R) eqn:M; [| exact HR]. apply setMem_In in M.
  destruct (lookup k g) as [node |] eqn:L; [| exact HR].
  assert (Hvs : forall v, In v (connectsTo node) -> P v)
    by (intros v Hv; eapply Hedge; eauto).
  revert Hvs HR. generalize (connectsTo node) as vs. clear.
  induction vs as [| v vs IHvs] in R |- *; intros Hvs HR x; simpl; [apply HR |].
  apply IHvs; [intros w Hw; apply Hvs; now right |].
  intros y Hy. apply setAdd_In in Hy as [Hy | ->]; [now apply HR | apply Hvs; now left].
Qed.

Lemma spread_sound (g : Graph) (P : string -> Prop) :
  (forall a b node, P a -> lookup a g = Some node -> In b (connectsTo node) -> P b) ->
  forall rounds R, (forall x, In x R -> P x) -> forall x, In x (spread rounds g R) -> P x.
Proof.
  intros Hedge. induction rounds as [| rounds IH]; intros R HR x; simpl; [apply HR |].
  apply IH. now apply spreadStep_sound.
Qed.

Lemma allReachedFromFree_sound (rounds : nat) (g : Graph) :
  allReachedFromFree rounds g = true ->
  forall n, In n (keys g) -> n <> FreeRingName -> reaches g FreeRingName n.
Proof.
  unfold allReachedFromFree. cbv zeta. rewrite forallb_forall. intros H n K NF.
  specialize (H n K). apply setMem_In in H.
  assert (G : n = FreeRingName \/ reaches g FreeRingName n); [| tauto].
  revert H.
  apply (spread_sound g (fun x => x = FreeRingName \/ reaches g FreeRingName x)).
  - intros a b nd [-> | Hr] La Hb; right.
    + eapply reaches_edge; eauto.
    + eapply reaches_snoc; eauto.
  - intros x [<- | []]. now left.
Qed.

Lemma built_graph_allReachedFromFree : allReachedFromFree 20 CastDuetGraphNodes = true.
Proof. vm_compute. reflexivity. Qed.

Lemma built_graph_no_empty_key : ~ In "" (keys CastDuetGraphNodes).
Proof.
  intros H. apply setMem_In in H. vm_compute in H. discriminate H.
Qed.

Section Solving.
Variable g : Graph.
Hypothesis g_closed : closed g.
Hypothesis g_no_empty_key : ~ In "" (keys g).
Hypothesis g_keys_parse : forall k, In k (keys g) -> parsePosition k <> None.
Hypothesis g_to_FREE :
  forall n node, lookup n g = Some node -> n <> FreeRingName -> reaches g n FreeRingName.
Hypothesis g_from_FREE :
  forall n, In n (keys g) -> n <> FreeRingName -> reaches g FreeRingName n.

(** Any two different nodes are joined by a path, through FREE if need
    be. *)
Lemma strongly_connected (s t : string) :
  In s (keys g) -> In t (keys g) -> s <> t -> reaches g s t.
Proof.
  intros Ks Kt NE. destruct (keys_lookup s g Ks) as [nodeS Ls].
  destruct (String.eqb s FreeRingName) eqn:Es.
  - apply String.eqb_eq in Es. subst s. apply g_from_FREE; [exact Kt | congruence].
  - assert (Ns : s <> FreeRingName) by (intros ->; discriminate Es).
    destruct (String.eqb t FreeRingName) eqn:Et.
    + apply String.eqb_eq in Et. subst t. exact (g_to_FREE s nodeS Ls Ns).
    + assert (Nt : t <> FreeRingName) by (intros ->; discriminate Et).
      exact (reaches_trans g s FreeRingName t (g_to_FREE s nodeS Ls Ns) (g_from_FREE t Kt Nt)).
Qed.

(** Between any two nodes [findSolution] returns a list that begins with
    the source, ends with the target and follows edges of the graph. *)
Theorem findSolution_solves (s t : string) :
  In s (keys g) -> In t (keys g) ->
  exists solution,
    fst (findSolution s t g) = Normal (Some solution) /\
    hd_error solution = Some s /\
    (exists pre, solution = (pre ++ [t])%list) /\
    isPath g solution.
Proof.
  intros Ks Kt.
  destruct (findSolution_returns_on_known_nodes s t g g_closed
              (g_keys_parse s Ks) (g_keys_parse t Kt) Ks Kt)
    as (sol & g' & E & _).
  exists sol.
  destruct (findSolution_solution_is_path s t g g' sol E) as (P & Last & _).
  split; [exact (f_equal fst E) | split; [| split; assumption]].
  apply (findSolution_starts_at_source s t g g' sol g_no_empty_key E).
  destruct (String.eqb s t) eqn:X.
  - left. now apply String.eqb_eq.
  - right. apply strongly_connected; try assumption.
    intros ->. now rewrite String.eqb_refl in X.
Qed.

End Solving.

(** The solver is correct on the built graph, up to the length of the
    path. *)
Theorem findSolution_solves_built_graph (s t : string) :
  In s (keys CastDuetGraphNodes) -> In t (keys CastDuetGraphNodes) ->
  exists solution,
    fst (findSolution s t CastDuetGraphNodes) = Normal (Some solution) /\
    hd_error solution = Some s /\
    (exists pre, solution = (pre ++ [t])%list) /\
    isPath CastDuetGraphNodes solution.
Proof.
  exact (findSolution_solves CastDuetGraphNodes
           built_graph_closed built_graph_no_empty_key
           (fun k => all_parse_sound _ k built_graph_keys_parse)
           (allReachFree_sound 24 _ built_graph_allReachFree)
           (allReachedFromFree_sound 20 _ built_graph_allReachedFromFree) s t).
Qed.

(** ** The list that is returned is a shortest one *)

Lemma distAt_fun (g : Graph) (n : string) (d d' : Z) : distAt g n d -> distAt g n d' -> d = d'.
Proof. intros (node & L & D) (node' & L' & D'). congruence. Qed.

(** The minimum that the scan reports is below every finite distance in
    [q]. *)
Lemma findMin_minimum (g0 : Graph) (q : list string) :
  triple (fun g => g = g0) (findMin q)
         (fun st _ => forall n dn, In n q -> distAt g0 n dn ->
                                   exists m, fst st = Hops m /\ m <= dn).
Proof.
  pose (Inv := fun (done : list string) (st : Dist * option string) (g : Graph) =>
                 g = g0 /\
                 forall n dn, In n done -> distAt g0 n dn ->
                              exists m, fst st = Hops m /\ m <= dn).
  unfold findMin.
  eapply triple_weaken with (P' := Inv [] (Infinity, None)) (Q' := Inv ([] ++ q)%list).
  - apply triple_foldM. intros done n st _. subst Inv. cbv beta.
    eapply triple_bind; [apply triple_readField |].
    intros d g [[-> H] (node & L & ->)].
    unfold optDistLt.
    assert (Keep : forall cur,
               (forall k dk, In k done -> distAt g0 k dk -> exists m, cur = Hops m /\ m <= dk) ->
               (forall dn, dist node = Some (Hops dn) -> exists m, cur = Hops m /\ m <= dn) ->
               forall k dk, In k (done ++ [n])%list -> distAt g0 k dk ->
                            exists m, cur = Hops m /\ m <= dk).
    { intros cur Hd Hn k dk Hk Dk. apply in_app_iff in Hk as [Hk | [<- | []]]; [eauto |].
      destruct Dk as (nd & Lk & Dk). rewrite L in Lk. injection Lk as <-. auto. }
    destruct (dist node) as [[| x] |] eqn:D.
    + split; [reflexivity |]. apply Keep; [exact H | discriminate].
    + destruct (distLt (Hops x) (fst st)) eqn:Lt.
      * split; [reflexivity |]. cbn [fst]. apply Keep.
        -- intros k dk Hk Dk. destruct (H k dk Hk Dk) as (m & E & Hm).
           rewrite E in Lt. simpl in Lt. apply Z.ltb_lt in Lt.
           exists x. split; [reflexivity | lia].
        -- intros dn E. injection E as <-. exists x. split; [reflexivity | lia].
      * split; [reflexivity |]. apply Keep; [exact H |].
        intros dn E. injection E as <-.
        destruct (fst st) as [| m]; [discriminate Lt |].
        simpl in Lt. apply Z.ltb_ge in Lt. eauto.
    + split; [reflexivity |]. apply Keep; [exact H | discriminate].
  - intros g ->. split; [reflexivity | intros n dn []].
  - intros st g [_ H]. exact H.
Qed.

Lemma distAt_update_other (g : Graph) (v n : string) (f : Node -> Node) (d : Z) :
  String.eqb n v = false -> (distAt (update v f g) n d <-> distAt g n d).
Proof.
  intros E. unfold distAt. rewrite lookup_update, E. tauto.
Qed.

(** Lowering [v] to distance [du+1] with predecessor [u]. *)
Lemma relaxing_lower (s u : string) (du : Z) (q : list string) (g : Graph)
      (v : string) (nodeV : Node) :
  relaxing s u du q g ->
  lookup v g = Some nodeV -> distLtOpt (Hops (du + 1)) (dist nodeV) = true ->
  relaxing s u du q
           (update v (withPrev (Some u)) (update v (withDist (Some (Hops (du + 1)))) g)) /\
  distAt (update v (withPrev (Some u)) (update v (withDist (Some (Hops (du + 1)))) g))
         v (du + 1).
Proof.
  intros (O1 & O2 & O3 & Ru & R4a & R4b & O5 & O6 & R7) Lv Lt.
  set (g' := update v (withPrev (Some u)) (update v (withDist (Some (Hops (du + 1)))) g)).
  set (nodeV' := withPrev (Some u) (withDist (Some (Hops (du + 1))) nodeV)).
  assert (Hdu : 0 <= du) by (apply (O3 u), Ru).
  assert (Dv : dist nodeV = Some Infinity \/
               exists b, dist nodeV = Some (Hops b) /\ du + 1 < b).
  { destruct (dist nodeV) as [dv |]; [| discriminate Lt]. simpl in Lt.
    apply distLt_Hops in Lt as [-> | (b & -> & Hb)]; eauto. }
  assert (Far : forall d, distAt g v d -> du + 1 < d).
  { intros d (nd & L & D). rewrite Lv in L. injection L as <-.
    destruct Dv as [Dv | (b & Dv & Hb)]; rewrite Dv in D; [discriminate |].
    injection D as <-. exact Hb. }
  assert (Lg' : forall n, lookup n g' = if String.eqb n v then Some nodeV' else lookup n g).
  { intros n. unfold g'. rewrite !lookup_update.
    destruct (String.eqb n v) eqn:E; [| reflexivity].
    apply String.eqb_eq in E. subst n. now rewrite Lv. }
  assert (Dg' : forall n d, distAt g' n d <->
                            if String.eqb n v then d = du + 1 else distAt g n d).
  { intros n d. unfold distAt. rewrite Lg'. destruct (String.eqb n v); [| tauto].
    split.
    - intros (nd & E & D). injection E as <-. simpl in D. congruence.
    - intros ->. exists nodeV'. auto. }
  assert (Kg' : keys g' = keys g) by (unfold g'; now rewrite !keys_update).
  assert (Vq : In v q).
  { destruct (in_dec string_dec v q) as [H | H]; [exact H | exfalso].
    destruct (O5 v (lookup_keys _ _ _ Lv) H) as [d Dd].
    specialize (R4a v d H Dd). specialize (Far d Dd). lia. }
  assert (NE : forall n, (~ In n q \/ n = u \/ n = s) -> String.eqb n v = false).
  { intros n Hn. destruct (String.eqb n v) eqn:E; [| reflexivity].
    apply String.eqb_eq in E. subst n. exfalso.
    destruct Hn as [H | [-> | ->]]; [auto | |].
    - specialize (Far du Ru). lia.
    - specialize (Far 0 O2). lia. }
  split; [| apply Dg'; now rewrite String.eqb_refl].
  unfold relaxing. repeat match goal with |- _ /\ _ => split end.
  - intros n node. rewrite Lg'. destruct (String.eqb n v); [| apply O1].
    intros E. injection E as <-. discriminate.
  - apply Dg'. rewrite (NE s); auto.
  - intros n d H. apply Dg' in H. destruct (String.eqb n v); [lia | exact (O3 n d H)].
  - apply Dg'. rewrite (NE u); auto.
  - intros a da Ha H. apply Dg' in H. rewrite (NE a) in H by auto. exact (R4a a da Ha H).
  - intros b db Hb H. apply Dg' in H. destruct (String.eqb b v); [lia | exact (R4b b db Hb H)].
  - intros a Ka Ha. rewrite Kg' in Ka. destruct (O5 a Ka Ha) as [da Da].
    exists da. apply Dg'. rewrite (NE a); auto.
  - intros a nodeA b La Ha Hb Kb. rewrite Lg', (NE a) in La by auto. rewrite Kg' in Kb.
    destruct (O6 a nodeA b La Ha Hb Kb) as (da & db & Da & Db & Le).
    destruct (String.eqb b v) eqn:E.
    + apply String.eqb_eq in E. subst b. specialize (Far db Db).
      exists da, (du + 1). split; [exact Da | split; [| lia]].
      apply Dg'. now rewrite String.eqb_refl.
    + exists da, db. split; [exact Da | split; [| exact Le]]. apply Dg'. now rewrite E.
  - intros w nodeW p Lw Pw. rewrite Lg' in Lw.
    destruct (String.eqb w v) eqn:E.
    + injection Lw as <-. simpl in Pw. injection Pw as <-.
      split; [now right |]. exists du. split; [| reflexivity].
      apply Dg'. rewrite (NE u); auto.
    + destruct (R7 w nodeW p Lw Pw) as [Hp (dp & Dp & Dw)].
      split; [exact Hp |]. exists dp. split; [| exact Dw].
      apply Dg'. rewrite (NE p); [exact Dp | tauto].
Qed.

(** Relaxing the edges of the minimum [u] of [q]. *)
Lemma relax_optimal (s u : string) (du : Z) (q : list string) :
  triple (relaxing s u du q)
         (relax u (Hops du))
         (fun _ g => relaxing s u du q g /\
                     forall nodeU v, lookup u g = Some nodeU -> In v (connectsTo nodeU) ->
                                     exists dv, distAt g v dv /\ dv <= du + 1).
Proof.
  unfold relax.
  eapply triple_bind; [apply triple_readField |].
  intros vs.
  pose (Inv := fun (done : list string) (_ : unit) (g : Graph) =>
                 relaxing s u du q g /\
                 (forall v, In v done -> exists dv, distAt g v dv /\ dv <= du + 1) /\
                 (exists nodeU, lookup u g = Some nodeU /\ vs = connectsTo nodeU)).
  eapply triple_weaken with (P' := Inv [] tt) (Q' := Inv ([] ++ vs)%list).
  - apply triple_foldM. intros done v [] Hv. subst Inv. cbv beta.
    eapply triple_bind; [apply triple_readField |].
    intros dv g [(R & Hdone & (nodeU & Lu & Evs)) (nodeV & Lv & ->)].
    destruct (distLtOpt (distSucc (Hops du)) (dist nodeV)) eqn:Lt.
    + unfold bind, writeField. rewrite Lv. cbn [fst snd].
      rewrite lookup_update, String.eqb_refl, Lv. simpl option_map. cbv iota.
      cbn [distSucc] in *.
      destruct (relaxing_lower s u du q g v nodeV R Lv Lt) as [R' Dv'].
      split; [exact R' | split].
      * intros w Hw. apply in_app_iff in Hw as [Hw | [<- | []]].
        -- destruct (Hdone w Hw) as (dw & Dw & Le).
           destruct (String.eqb w v) eqn:E.
           ++ apply String.eqb_eq in E. subst w. exists (du + 1). split; [exact Dv' | lia].
           ++ exists dw. split; [| exact Le].
              now rewrite !distAt_update_other by exact E.
        -- exists (du + 1). split; [exact Dv' | lia].
      * rewrite !lookup_update.
        destruct (String.eqb u v) eqn:E.
        -- apply String.eqb_eq in E. subst v. rewrite Lu. simpl. eauto.
        -- eauto.
    + simpl. split; [exact R | split; [| eauto]].
      intros w Hw. apply in_app_iff in Hw as [Hw | [<- | []]]; [auto |].
      destruct R as (O1 & _).
      destruct (dist nodeV) as [[| b] |] eqn:Dv.
      * discriminate Lt.
      * exists b. split; [exists nodeV; auto |].
        simpl in Lt. apply Z.ltb_ge in Lt. lia.
      * exfalso. apply (O1 v nodeV Lv Dv).
  - intros g [R (nodeU & Lu & ->)]. subst Inv. cbv beta.
    split; [exact R | split; [intros v [] | eauto]].
  - intros [] g (R & Hdone & (nodeU & Lu & Evs)).
    split; [exact R |].
    intros nodeU' v Lu' Hv. rewrite Lu in Lu'. injection Lu' as <-.
    apply Hdone. simpl. now rewrite Evs.
Qed.

Lemma optimal_relaxing (s u : string) (du : Z) (q : list string) (g : Graph) :
  optimal s q g -> In u q -> distAt g u du ->
  (forall n dn, In n q -> distAt g n dn -> du <= dn) ->
  relaxing s u du q g.
Proof.
  intros (O1 & O2 & O3 & O4 & O5 & O6 & O7) Hu Du Min.
  unfold relaxing. repeat match goal with |- _ /\ _ => split end; try assumption.
  - intros a da Ha Da. exact (O4 a u da du Ha Hu Da Du).
  - intros w nodeW p Lw Pw. destruct (O7 w nodeW p Lw Pw) as [Hp H]. tauto.
Qed.

Lemma relaxing_optimal (s u : string) (du : Z) (q : list string) (g : Graph) :
  relaxing s u du q g -> In u q ->
  (forall nodeU v, lookup u g = Some nodeU -> In v (connectsTo nodeU) ->
                   exists dv, distAt g v dv /\ dv <= du + 1) ->
  optimal s (setRemove u q) g.
Proof.
  intros (O1 & O2 & O3 & Ru & R4a & R4b & O5 & O6 & R7) Hu Nb.
  assert (Out : forall n, ~ In n (setRemove u q) -> n = u \/ ~ In n q).
  { intros n H. destruct (String.eqb n u) eqn:E.
    - left. now apply String.eqb_eq.
    - right. intros Hq. apply H, setRemove_In. split; [exact Hq |].
      intros ->. now rewrite String.eqb_refl in E. }
  unfold optimal. repeat match goal with |- _ /\ _ => split end; try assumption.
  - intros a b da db Ha Hb Da Db. apply setRemove_In in Hb as [Hb _].
    specialize (R4b b db Hb Db).
    destruct (Out a Ha) as [-> | Ha'].
    + rewrite (distAt_fun g u da du Da Ru). exact R4b.
    + specialize (R4a a da Ha' Da). lia.
  - intros a Ka Ha. destruct (Out a Ha) as [-> | Ha']; [eauto | auto].
  - intros a nodeA b La Ha Hb Kb. destruct (Out a Ha) as [-> | Ha']; [| eauto].
    destruct (Nb nodeA b La Hb) as (dv & Dv & Le).
    exists du, dv. split; [| split; assumption].
    destruct Ru as (nd & L & D). congruence.
  - intros w nodeW p Lw Pw. destruct (R7 w nodeW p Lw Pw) as [Hp H].
    split; [| exact H]. intros X. apply setRemove_In in X as [X NE]. tauto.
Qed.

Lemma dijkstraLoop_shortest (s : string) (qlen : nat) :
  forall q : list string,
    (List.length q <= qlen)%nat -> ~ In "" q ->
    triple (optimal s q) (dijkstraLoop qlen q) (fun _ g => shortest s g).
Proof.
  assert (Done : forall q g, optimal s q g ->
                             (forall n, In n q -> ~ finiteAt g n) -> shortest s g).
  { intros q g (O1 & O2 & O3 & O4 & O5 & O6 & O7) Hq.
    split; [exact O2 | split; [exact O3 | split]].
    - intros a nodeA da b La Da Hb Kb.
      assert (Ha : ~ In a q) by (intros X; apply (Hq a X); exists nodeA, da; auto).
      destruct (O6 a nodeA b La Ha Hb Kb) as (da' & db & Da' & Db & Le).
      exists db. split; [exact Db |]. congruence.
    - intros w nodeW p Lw Pw. now destruct (O7 w nodeW p Lw Pw). }
  induction qlen as [| qlen IH]; intros q Hlen Hne.
  - apply triple_ret. intros g O.
    destruct q; [| simpl in Hlen; lia]. apply (Done [] g O). intros n [].
  - intros g O. cbn [dijkstraLoop]. unfold bind at 1.
    pose proof (findMin_post g q g eq_refl) as F1.
    pose proof (findMin_selects g q g eq_refl) as F2.
    pose proof (findMin_minimum g q g eq_refl) as F3.
    destruct (findMin q g) as [[[ud u] | |] g']; [| exact I | exact F1].
    destruct F1 as [-> F1]. destruct F2 as [Hin Hnone]. cbn [fst snd] in *.
    destruct u as [u |].
    + destruct (truthy (Some u)) eqn:Tu.
      * destruct (F1 u eq_refl) as (node & d & L & D & ->).
        specialize (Hin u eq_refl). unfold bind.
        assert (Min : forall n dn, In n q -> distAt g n dn -> d <= dn).
        { intros n dn Hn Dn. destruct (F3 n dn Hn Dn) as (m & E & Le). congruence. }
        assert (Du : distAt g u d) by (exists node; auto).
        pose proof (relax_optimal s u d q g (optimal_relaxing s u d q g O Hin Du Min)) as X.
        destruct (relax u (Hops d) g) as [[[] | |] g1]; [| exact I | exact X].
        destruct X as [R Nb].
        assert (Hlen' : (List.length (setRemove u q) <= qlen)%nat)
          by (pose proof (setRemove_length u q Hin); lia).
        assert (Hne' : ~ In "" (setRemove u q))
          by (intros H; apply setRemove_In in H as [H _]; auto).
        apply (IH (setRemove u q) Hlen' Hne' g1).
        exact (relaxing_optimal s u d q g1 R Hin Nb).
      * exfalso. apply Hne. specialize (Hin u eq_refl).
        simpl in Tu. apply negb_false_iff, String.eqb_eq in Tu. now subst u.
    + simpl. apply (Done q g O). exact (Hnone eq_refl).
Qed.

Lemma dijkstra_shortest (s : string) (g0 : Graph) :
  ~ In "" (keys g0) ->
  triple (fun g => g = g0) (dijkstra s) (fun _ g => shortest s g).
Proof.
  intros Hne. unfold dijkstra.
  eapply triple_bind.
  { apply triple_conj; [apply initUnvisited_post |].
    apply triple_conj; [apply initUnvisited_unvisited |].
    apply tame_triple, tame_initUnvisited. }
  intros st. cbv beta.
  eapply triple_bind with
    (R := fun _ g => (forall n, In n (fst st) <-> In n (keys g0)) /\
                     (List.length (fst st) <= snd st)%nat /\ optimal s (fst st) g).
  - apply triple_writeField. intros g node [[_ H] [[Hq Hl] Sk]] L.
    split; [exact Hq | split; [exact Hl |]].
    set (g' := update s (withDist (Some (Hops 0))) g).
    assert (K : forall n, In n (keys g') -> In n (fst st)).
    { intros n Hn. apply Hq. unfold g' in Hn. rewrite keys_update in Hn.
      now rewrite <- (skeleton_keys g g0 Sk). }
    assert (D : forall n d, distAt g' n d -> n = s /\ d = 0).
    { intros n d (nd & Ln & Dn). unfold g' in Ln. rewrite lookup_update in Ln.
      destruct (String.eqb n s) eqn:E.
      - apply String.eqb_eq in E. subst n. rewrite L in Ln. simpl in Ln.
        injection Ln as <-. simpl in Dn. injection Dn as <-. auto.
      - destruct (H n nd Ln) as [D' _]. congruence. }
    unfold optimal. repeat match goal with |- _ /\ _ => split end.
    + intros n nd. unfold g'. rewrite lookup_update.
      destruct (String.eqb n s) eqn:E.
      * apply String.eqb_eq in E. subst n. rewrite L. simpl.
        intros Hx. injection Hx as <-. discriminate.
      * intros Ln Dn. destruct (H n nd Ln) as [D' _]. congruence.
    + unfold distAt, g'. rewrite lookup_update, String.eqb_refl, L. simpl. eauto.
    + intros n d Dn. destruct (D n d Dn) as [_ ->]. lia.
    + intros a b da db Ha Hb Da Db. exfalso. apply Ha, K.
      destruct Da as (nd & La & _). eapply lookup_keys; eauto.
    + intros a Ka Ha. exfalso. auto.
    + intros a nodeA b La Ha. exfalso. apply Ha, K. eapply lookup_keys; eauto.
    + intros w nodeW p. unfold g'. rewrite lookup_update.
      destruct (String.eqb w s) eqn:E.
      * apply String.eqb_eq in E. subst w. rewrite L. simpl.
        intros Hx. injection Hx as <-. simpl. intros P.
        destruct (H s node L) as [_ P']. congruence.
      * intros Lw P. destruct (H w nodeW Lw) as [_ P']. congruence.
  - intros _ g (Hq & Hl & O).
    assert (Hne' : ~ In "" (fst st)) by (intros X; apply Hne, Hq, X).
    pose proof (dijkstraLoop_shortest s (snd st) (fst st) Hl Hne' g O) as X.
    destruct (dijkstraLoop (snd st) (fst st) g) as [[b | |] g']; exact X.
Qed.

Lemma last_cons (a b : string) (l : list string) : last (b :: l) a = last l b.
Proof.
  revert a b. induction l as [| c l IH]; intros a b; [reflexivity |].
  change (last (b :: c :: l) a) with (last (c :: l) a). now rewrite !IH.
Qed.

(** No path from the source stays below the distance of its last node. *)
Lemma shortest_lower_bound (s : string) (g : Graph) :
  shortest s g ->
  forall (l : list string) (a : string) (da : Z),
    isPath g (a :: l) -> distAt g a da -> In (last l a) (keys g) ->
    exists dt, distAt g (last l a) dt /\ dt <= da + Z.of_nat (List.length l).
Proof.
  intros (_ & _ & E & _). induction l as [| b l IH]; intros a da P Da Kt.
  - exists da. simpl. split; [exact Da | lia].
  - destruct P as [(nodeA & La & Hb) P]. rewrite last_cons in *.
    assert (Kb : In b (keys g)).
    { destruct l as [| c l]; [exact Kt |].
      destruct P as [(nodeB & Lb & _) _]. eapply lookup_keys; eauto. }
    destruct Da as (nodeA' & La' & DA). rewrite La in La'. injection La' as <-.
    destruct (E a nodeA da b La DA Hb Kb) as (db & Db & Le).
    destruct (IH b db P Db Kt) as (dt & Dt & Le').
    exists dt. split; [exact Dt |]. rewrite length_cons. lia.
Qed.

(** The loop over [prev] adds at most as many names as the distance of
    the node it starts from. *)
Lemma walkBack_length (s : string) (g : Graph) :
  shortest s g ->
  forall (fuel : nat) (n : string) (node : Node) (d : Z) (solution solution' : list string),
    lookup n g = Some node -> dist node = Some (Hops d) ->
    walkBack fuel g (Some node) solution = Normal solution' ->
    Z.of_nat (List.length solution') <= Z.of_nat (List.length solution) + d.
Proof.
  intros (_ & O3 & _ & O7).
  induction fuel as [| fuel IH]; intros n node d solution solution' L D W;
    assert (Hd : 0 <= d) by (apply (O3 n); exists node; auto).
  - simpl in W. destruct (truthy (prev node)).
    + destruct (prev node); [discriminate W | injection W as <-; lia].
    + injection W as <-. lia.
  - simpl in W. destruct (truthy (prev node)); [| injection W as <-; lia].
    destruct (prev node) as [p |] eqn:P; [| injection W as <-; lia].
    destruct (O7 n node p L P) as (dp & (nodeP & Lp & Dp) & Dn).
    rewrite Lp in W. specialize (IH p nodeP dp (p :: solution) solution' Lp Dp W).
    rewrite length_cons in IH. assert (d = dp + 1) by congruence. lia.
Qed.

(** A run of [findSolution] that returns a list, taken apart. *)
Lemma findSolution_returned (s t : string) (g : Graph) (solution : list string) :
  fst (findSolution s t g) = Normal (Some solution) ->
  exists b g1 node,
    dijkstra s g = (Normal b, g1) /\ skeleton g1 = skeleton g /\
    lookup t g1 = Some node /\
    walkBack (List.length g1) g1 (Some node) [t] = Normal solution.
Proof.
  unfold findSolution.
  destruct (parsePosition s); [| discriminate].
  destruct (parsePosition t); [| discriminate].
  unfold bind. destruct (tame_dijkstra s g) as [S _].
  destruct (dijkstra s g) as [[b | |] g1]; cbn [fst snd] in *; try discriminate.
  destruct (lookup t g1) as [node |] eqn:L; [| rewrite walkBack_undefined; discriminate].
  destruct (walkBack (List.length g1) g1 (Some node) [t]) as [sol | |] eqn:W; try discriminate.
  cbn [fst]. intros H. injection H as <-. exists b, g1, node. auto.
Qed.

(** X2.  A list returned by [findSolution] is no longer than any path of the
    graph from the source to the target: it is a shortest one. *)
Theorem solution_is_shortest (s t : string) (g : Graph) (solution rest : list string) :
  ~ In "" (keys g) ->
  fst (findSolution s t g) = Normal (Some solution) ->
  isPath g (s :: rest) -> last rest s = t ->
  (List.length solution <= List.length (s :: rest))%nat.
Proof.
  intros Hne H P Last.
  destruct (findSolution_returned s t g solution H) as (b & g1 & node & E & S & L & W).
  pose proof (dijkstra_shortest s g Hne g eq_refl) as X. rewrite E in X.
  assert (P1 : isPath g1 (s :: rest)) by (apply (isPath_skeleton g1 g); auto).
  assert (Kt : In (last rest s) (keys g1)) by (rewrite Last; eapply lookup_keys; eauto).
  destruct (shortest_lower_bound s g1 X rest s 0 P1 (proj1 X) Kt) as (dt & Dt & Le).
  rewrite Last in Dt. destruct Dt as (node' & L' & D'). rewrite L in L'. injection L' as <-.
  pose proof (walkBack_length s g1 X _ t node dt [t] solution L D' W) as Len.
  cbn [List.length] in Len |- *. lia.
Qed.

Lemma setMem_true_In (k : string) (cs : list string) : setMem k cs = true -> In k cs.
Proof. apply setMem_In. Qed.

Lemma built_graph_short_run :
  fst (findSolution "U(1,1)-(0,1)" "FREE" CastDuetGraphNodes) =
  Normal (Some ["U(1,1)-(0,1)"; "FREE"]).
Proof. vm_compute. reflexivity. Qed.

Lemma built_graph_short_path : isPath CastDuetGraphNodes ["U(1,1)-(0,1)"; "FREE"].
Proof.
  split; [| exact I]. eexists. split; [vm_compute; reflexivity |]. vm_compute. tauto.
Qed.

Lemma solution_is_shortest_witness :
  fst (findSolution "U(1,1)-(0,1)" "FREE" CastDuetGraphNodes) =
  Normal (Some ["U(1,1)-(0,1)"; "FREE"]) /\
  (List.length ["U(1,1)-(0,1)"; "FREE"] <= List.length ["U(1,1)-(0,1)"; "FREE"])%nat.
Proof.
  split; [exact built_graph_short_run |].
  exact (solution_is_shortest "U(1,1)-(0,1)" "FREE" CastDuetGraphNodes
           ["U(1,1)-(0,1)"; "FREE"] ["FREE"]
           built_graph_no_empty_key built_graph_short_run built_graph_short_path eq_refl).
Defined.

(** X3.  A list returned by [findSolution] ends with the target, each of its
    names has an edge of the graph to the next, and it is the target alone
    or begins with the source. *)
Theorem solution_follows_edges (s t : string) (g : Graph) (solution : list string) :
  fst (findSolution s t g) = Normal (Some solution) ->
  isPath g solution /\
  (exists pre, solution = (pre ++ [t])%list) /\
  (solution = [t] \/ hd_error solution = Some s).
Proof.
  intros H.
  destruct (findSolution_returned s t g solution H) as (b & g1 & node & E & S & L & W).
  pose proof (dijkstra_post s g g eq_refl) as D. rewrite E in D.
  destruct (walkBack_path s _ g1 D _ t node [] solution L I W) as (P & Last & Hhd).
  split; [now apply (isPath_skeleton g g1) | split; [exact Last |]].
  destruct Hhd as [[-> _] | Hhd]; auto.
Qed.

Lemma solution_follows_edges_witness :
  isPath CastDuetGraphNodes ["U(1,1)-(0,1)"; "FREE"] /\
  (exists pre, ["U(1,1)-(0,1)"; "FREE"] = (pre ++ ["FREE"])%list) /\
  (["U(1,1)-(0,1)"; "FREE"] = ["FREE"] \/
   hd_error ["U(1,1)-(0,1)"; "FREE"] = Some "U(1,1)-(0,1)").
Proof.
  exact (solution_follows_edges "U(1,1)-(0,1)" "FREE" CastDuetGraphNodes
           ["U(1,1)-(0,1)"; "FREE"] built_graph_short_run).
Defined.

(** X4.  When the target is the source or can be reached from it along edges,
    the list that [findSolution] returns begins with the source. *)
Theorem solution_begins_at_source (s t : string) (g : Graph) (solution : list string) :
  ~ In "" (keys g) ->
  fst (findSolution s t g) = Normal (Some solution) ->
  s = t \/ reaches g s t ->
  hd_error solution = Some s.
Proof.
  intros Hne H R.
  destruct (findSolution_returned s t g solution H) as (b & g1 & node & E & S & L & W).
  pose proof (dijkstra_post s g g eq_refl) as D. rewrite E in D.
  pose proof (dijkstra_explored s g Hne g eq_refl) as X. rewrite E in X.
  destruct (walkBack_path s _ g1 D _ t node [] solution L I W) as (_ & _ & [[-> T] | Hhd]);
    [| exact Hhd].
  assert (Ft : finiteAt g1 t).
  { destruct R as [<- | R]; [exact (proj1 X) |].
    eapply explored_reaches; [exact X | | exact (proj1 X)].
    now apply (reaches_skeleton g g1). }
  destruct Ft as (node' & d & L' & Dn). rewrite L in L'. injection L' as <-.
  simpl. f_equal. exact (falsy_prev_is_source s _ g1 t node d D L Dn T).
Qed.

Lemma solution_begins_at_source_witness :
  hd_error ["U(1,1)-(0,1)"; "FREE"] = Some "U(1,1)-(0,1)".
Proof.
  assert (R : reaches CastDuetGraphNodes "U(1,1)-(0,1)" "FREE").
  { eapply reaches_edge; [vm_compute; reflexivity | vm_compute; tauto]. }
  exact (solution_begins_at_source "U(1,1)-(0,1)" "FREE" CastDuetGraphNodes
           ["U(1,1)-(0,1)"; "FREE"]
           built_graph_no_empty_key built_graph_short_run (or_intror R)).
Defined.

(** X5.  On a table whose adjacency is closed, two strings that parse and are
    keys of the table get a list back: nothing is thrown. *)
Theorem known_nodes_get_a_list (s t : string) (g : Graph) :
  closed g -> parsePosition s <> None -> parsePosition t <> None ->
  In s (keys g) -> In t (keys g) ->
  exists solution, fst (findSolution s t g) = Normal (Some solution).
Proof.
  intros C Ps Pt Ks Kt.
  destruct (findSolution_returns_on_known_nodes s t g C Ps Pt Ks Kt) as (sol & g' & E & _).
  exists sol. exact (f_equal fst E).
Qed.

Lemma known_nodes_get_a_list_witness :
  exists solution,
    fst (findSolution "D(3,1)-(3,0)" "D(2,2)-(3,1)" CastDuetGraphNodes) = Normal (Some solution).
Proof.
  assert (Ps : parsePosition "D(3,1)-(3,0)" <> None) by (vm_compute; discriminate).
  assert (Pt : parsePosition "D(2,2)-(3,1)" <> None) by (vm_compute; discriminate).
  assert (Ks : In "D(3,1)-(3,0)" (keys CastDuetGraphNodes))
    by (apply setMem_true_In; vm_compute; reflexivity).
  assert (Kt : In "D(2,2)-(3,1)" (keys CastDuetGraphNodes))
    by (apply setMem_true_In; vm_compute; reflexivity).
  exact (known_nodes_get_a_list "D(3,1)-(3,0)" "D(2,2)-(3,1)" CastDuetGraphNodes
           built_graph_closed Ps Pt Ks Kt).
Defined.

(** X6.  Solving from a node to itself gives that node alone. *)
Theorem same_node_gives_single_name (s : string) (g : Graph) :
  closed g -> ~ In "" (keys g) -> parsePosition s <> None -> In s (keys g) ->
  fst (findSolution s s g) = Normal (Some [s]).
Proof.
  intros C Hne Ps Ks.
  destruct (findSolution_returns_on_known_nodes s s g C Ps Ps Ks Ks) as (sol & g' & E & _).
  pose proof (f_equal fst E) as H. cbn [fst] in H. rewrite H. do 2 f_equal.
  destruct (findSolution_returned s s g sol H) as (b & g1 & node & E1 & S & L & W).
  pose proof (dijkstra_shortest s g Hne g eq_refl) as X. rewrite E1 in X.
  destruct X as ((node' & L' & D0) & O3 & _ & O7).
  rewrite L in L'. injection L' as <-.
  assert (P : prev node = None).
  { destruct (prev node) as [p |] eqn:P; [| reflexivity].
    destruct (O7 s node p L P) as (dp & Dp & Dn).
    specialize (O3 p dp Dp). rewrite D0 in Dn. injection Dn as Dn. lia. }
  destruct (List.length g1); simpl in W; rewrite P in W; simpl in W; congruence.
Qed.

Lemma same_node_gives_single_name_witness :
  fst (findSolution "FREE" "FREE" CastDuetGraphNodes) = Normal (Some ["FREE"]).
Proof.
  assert (Ps : parsePosition "FREE" <> None) by (vm_compute; discriminate).
  assert (Ks : In "FREE" (keys CastDuetGraphNodes))
    by (apply setMem_true_In; vm_compute; reflexivity).
  exact (same_node_gives_single_name "FREE" CastDuetGraphNodes
           built_graph_closed built_graph_no_empty_key Ps Ks).
Defined.

(** ** A search does not depend on the searches before it *)

Lemma lookup_app_fresh (k : string) (n : Node) (pre post : Graph) :
  ~ In k (keys pre) -> lookup k (pre ++ (k, n) :: post)%list = Some n.
Proof.
  induction pre as [| [k' m] pre IH]; simpl.
  - now rewrite String.eqb_refl.
  - intros H. destruct (String.eqb k k') eqn:E.
    + apply String.eqb_eq in E. subst k'. tauto.
    + apply IH. tauto.
Qed.

Lemma update_app_fresh (k : string) (f : Node -> Node) (n : Node) (pre post : Graph) :
  ~ In k (keys pre) ->
  update k f (pre ++ (k, n) :: post)%list = (pre ++ (k, f n) :: post)%list.
Proof.
  induction pre as [| [k' m] pre IH]; simpl.
  - now rewrite String.eqb_refl.
  - intros H. destruct (String.eqb k k') eqn:E.
    + apply String.eqb_eq in E. subst k'. tauto.
    + rewrite IH; tauto.
Qed.

Lemma initLoop_resets (post pre : Graph) (q : list string) (len : nat) :
  NoDup (keys (pre ++ post)%list) ->
  foldM (fun (st : list string * nat) n =>
           writeField (withDist (Some Infinity)) n ;;;
           writeField (withPrev None) n ;;;
           ret (setAdd n (fst st), S (snd st)))
        (keys post) (q, len) (pre ++ post)%list =
  (Normal (fold_left (fun q k => setAdd k q) (keys post) q,
           (len + List.length (keys post))%nat),
   (pre ++ resetAll post)%list).
Proof.
  revert pre q len. induction post as [| [k n] post IH]; intros pre q len N.
  - simpl. unfold ret. now rewrite Nat.add_0_r.
  - assert (F : ~ In k (keys pre)).
    { unfold keys in N. rewrite map_app in N. simpl in N.
      apply NoDup_remove_2 in N. intros X. apply N, in_or_app. now left. }
    cbn [keys map fst foldM]. unfold bind at 1. unfold bind at 1.
    unfold writeField at 1. rewrite (lookup_app_fresh k n pre post F).
    rewrite (update_app_fresh k _ n pre post F).
    unfold bind at 1. unfold writeField at 1.
    rewrite (lookup_app_fresh k _ pre post F), (update_app_fresh k _ _ pre post F).
    unfold ret at 1. cbn [fst snd].
    specialize (IH (pre ++ [(k, resetNode n)])%list (setAdd k q) (S len)).
    rewrite <- !app_assoc in IH. cbn [app] in IH.
    fold (resetNode n). unfold keys in IH. rewrite IH.
    + cbn [resetAll map fst snd List.length]. do 3 f_equal. lia.
    + unfold keys in N. rewrite !map_app in *. exact N.
Qed.

(** With distinct keys the initialisation loop resets every node. *)
Lemma initUnvisited_resets (g : Graph) :
  NoDup (keys g) ->
  initUnvisited g =
  (Normal (fold_left (fun q k => setAdd k q) (keys g) [], List.length (keys g)), resetAll g).
Proof.
  intros ND. unfold initUnvisited, bind at 1, nodeKeys.
  exact (initLoop_resets g [] [] O ND).
Qed.

Lemma resetAll_skeleton (g1 g2 : Graph) :
  skeleton g1 = skeleton g2 -> resetAll g1 = resetAll g2.
Proof.
  revert g2. induction g1 as [| [k1 n1] g1 IH]; intros [| [k2 n2] g2]; simpl;
    try discriminate; [reflexivity |].
  intros H. injection H as -> Hr Hm Hc Hg.
  unfold resetNode, withPrev, withDist. simpl. rewrite Hr, Hm, Hc.
  f_equal. now apply IH.
Qed.

(** X10.  Two tables with distinct keys that differ only in the [dist] and
    [prev] fields left by earlier searches give the same result; when both
    strings parse they are also left in the same state. *)
Theorem findSolution_ignores_earlier_searches (s t : string) (g1 g2 : Graph) :
  NoDup (keys g1) -> skeleton g1 = skeleton g2 ->
  fst (findSolution s t g1) = fst (findSolution s t g2) /\
  (parsePosition s <> None -> parsePosition t <> None ->
   findSolution s t g1 = findSolution s t g2).
Proof.
  intros ND S.
  assert (ND2 : NoDup (keys g2)) by (now rewrite <- (skeleton_keys g1 g2 S)).
  assert (D : dijkstra s g1 = dijkstra s g2).
  { unfold dijkstra. unfold bind at 1 3.
    rewrite (initUnvisited_resets g1 ND), (initUnvisited_resets g2 ND2).
    now rewrite (skeleton_keys g1 g2 S), (resetAll_skeleton g1 g2 S). }
  unfold findSolution.
  destruct (parsePosition s); [| split; [reflexivity | intros X; contradiction]].
  destruct (parsePosition t); [| split; [reflexivity | intros _ X; contradiction]].
  unfold bind. rewrite D. split; [reflexivity | intros _ _; reflexivity].
Qed.

Lemma findSolution_ignores_earlier_searches_witness :
  fst (findSolution "D(0,1)-(1,1)" "FREE" (smallTable None None None None None None)) =
  fst (findSolution "D(0,1)-(1,1)" "FREE"
         (smallTable (Some (Hops 0)) (Some (Hops 7)) (Some Infinity)
                     None (Some "FREE") (Some "D(0,1)-(1,1)"))) /\
  fst (findSolution "D(0,1)-(1,1)" "FREE" (smallTable None None None None None None)) =
  Normal (Some ["D(0,1)-(1,1)"; "U(1,1)-(0,1)"; "FREE"]).
Proof.
  split; [| reflexivity].
  apply (findSolution_ignores_earlier_searches "D(0,1)-(1,1)" "FREE").
  - repeat constructor; simpl; intuition discriminate.
  - reflexivity.
Defined.

(** ** Boundaries between cells *)

(** X17.  The two cells on either side of a boundary read the same marker for
    it: the right slots of a cell are the left slots of the cell to its
    right, and the top slots of a cell are the bottom slots of the cell
    above it, for cells anywhere on or off the sketch. *)
Theorem neighbouring_cells_share_markers (col row : Z) :
  getCellDents col row rt = getCellDents (col + 1) row lt /\
  getCellDents col row rb = getCellDents (col + 1) row lb /\
  getCellDents col row tl = getCellDents col (row + 1) bl /\
  getCellDents col row tr = getCellDents col (row + 1) br.
Proof.
  unfold getCellDents, getCellDentsIn, dentSketchPos. cbv zeta.
  replace ((col + 1 - 1) * 8) with ((col - 1) * 8 + 8) by lia.
  replace (12 - (row + 1) * 4 + 4) with (12 - row * 4) by lia.
  repeat split.
Qed.

(** ** Names identify placements *)

Lemma to_int_not_nil (z : Z) : Z.to_int z <> Decimal.Pos Decimal.Nil /\ Z.to_int z <> Decimal.Neg Decimal.Nil.
Proof.
  destruct z as [| p | p]; simpl; split; try discriminate;
    intros H; injection H as H; exact (Unsigned.to_uint_nonnil _ H).
Qed.

Lemma numToString_inj (a b : Z) : numToString a = numToString b -> a = b.
Proof.
  unfold numToString. intros H.
  apply (f_equal NilZero.int_of_string) in H.
  destruct (to_int_not_nil a) as [A1 A2], (to_int_not_nil b) as [B1 B2].
  rewrite !NilZero.isi in H by assumption.
  injection H as H. now apply DecimalZ.to_int_inj.
Qed.

Lemma string_of_uint_chars (d : Decimal.uint) :
  allChars isNumberChar (NilEmpty.string_of_uint d) = true.
Proof. induction d; simpl; auto. Qed.

Lemma numToString_chars (z : Z) : allChars isNumberChar (numToString z) = true.
Proof.
  unfold numToString.
  destruct (Z.to_int z) as [d | d]; simpl; destruct d; try reflexivity;
    apply string_of_uint_chars.
Qed.

(** Two strings that continue after the same separator, which occurs in
    neither prefix, agree on the prefixes and on the rest. *)
Lemma append_separator_inj (f : ascii -> bool) (sep : ascii) (s1 s2 r1 r2 : string) :
  f sep = false -> allChars f s1 = true -> allChars f s2 = true ->
  (s1 ++ String sep r1 = s2 ++ String sep r2)%string -> s1 = s2 /\ r1 = r2.
Proof.
  intros Hsep. revert s2.
  induction s1 as [| c1 s1 IH]; intros [| c2 s2]; simpl; intros A1 A2 E.
  - injection E as E. auto.
  - injection E as <- _. apply andb_true_iff in A2 as [A2 _]. congruence.
  - injection E as -> _. apply andb_true_iff in A1 as [A1 _]. congruence.
  - injection E as <- E.
    apply andb_true_iff in A1 as [_ A1]. apply andb_true_iff in A2 as [_ A2].
    destruct (IH s2 A1 A2 E) as [-> ->]. auto.
Qed.

Lemma append_String (c : ascii) (s r : string) :
  (String c s ++ r = String c (s ++ r))%string.
Proof. reflexivity. Qed.

Lemma append_assoc (s1 s2 s3 : string) : ((s1 ++ s2) ++ s3 = s1 ++ (s2 ++ s3))%string.
Proof. induction s1 as [| c s1 IH]; simpl; [reflexivity | now rewrite IH]. Qed.

Lemma String_tail (c c' : ascii) (s s' : string) : String c s = String c' s' -> s = s'.
Proof. intros E. now injection E. Qed.

Lemma append_empty (s : string) : (s ++ "")%string = s.
Proof. induction s as [| c s IH]; simpl; [reflexivity | now rewrite IH]. Qed.

Lemma getCellName_inj (col row col' row' : Z) (r r' : string) :
  (getCellName col row ++ r = getCellName col' row' ++ r')%string ->
  col = col' /\ row = row' /\ r = r'.
Proof.
  unfold getCellName.
  change ("(" ++ numToString col ++ "," ++ numToString row ++ ")")%string
    with (String "(" (numToString col ++ String "," (numToString row ++ String ")" "")))%string.
  change ("(" ++ numToString col' ++ "," ++ numToString row' ++ ")")%string
    with (String "(" (numToString col' ++ String "," (numToString row' ++ String ")" "")))%string.
  rewrite !append_String, !append_assoc, !append_String, !append_assoc, !append_String.
  cbn [append]. intros E. injection E as E.
  apply (append_separator_inj isNumberChar) in E as [E1 E];
    [| reflexivity | apply numToString_chars | apply numToString_chars].
  apply (append_separator_inj isNumberChar) in E as [E2 E];
    [| reflexivity | apply numToString_chars | apply numToString_chars].
  auto using numToString_inj.
Qed.

Lemma getRingName_inj (p p' : PegPos) (pc pr rc rr pc' pr' rc' rr' : Z) :
  getRingName p pc pr rc rr = getRingName p' pc' pr' rc' rr' ->
  p = p' /\ pc = pc' /\ pr = pr' /\ rc = rc' /\ rr = rr'.
Proof.
  unfold getRingName, positionToName. intros E.
  assert (P : p = p' /\
              (getCellName pc pr ++ "-" ++ getCellName rc rr =
               getCellName pc' pr' ++ "-" ++ getCellName rc' rr')%string).
  { destruct p, p'; try (simpl in E; discriminate E);
      (split; [reflexivity | exact (String_tail _ _ _ _ E)]). }
  destruct P as [-> P]. apply getCellName_inj in P as (-> & -> & P).
  pose proof (String_tail "-" "-" (getCellName rc rr) (getCellName rc' rr') P) as Q.
  rewrite <- (append_empty (getCellName rc rr)), <- (append_empty (getCellName rc' rr')) in Q.
  apply getCellName_inj in Q as (-> & -> & _). auto.
Qed.

(** X18.  Two placements get the same node name only when both are wholly
    outside the frame (the name is then FREE) or they are the same
    placement. *)
Theorem node_name_identifies_placement
    (p p' : PegPos) (pc pr rc rr pc' pr' rc' rr' : Z) :
  safeInteger pc -> safeInteger pr -> safeInteger rc -> safeInteger rr ->
  safeInteger pc' -> safeInteger pr' -> safeInteger rc' -> safeInteger rr' ->
  getNodeName p pc pr rc rr = getNodeName p' pc' pr' rc' rr' ->
  (Ring_isFree pc pr rc rr = true /\ Ring_isFree pc' pr' rc' rr' = true) \/
  (p = p' /\ pc = pc' /\ pr = pr' /\ rc = rc' /\ rr = rr').
Proof.
  intros _ _ _ _ _ _ _ _. unfold getNodeName.
  destruct (Ring_isFree pc pr rc rr), (Ring_isFree pc' pr' rc' rr'); intros E.
  - now left.
  - symmetry in E. now apply getRingName_not_FREE in E.
  - now apply getRingName_not_FREE in E.
  - right. now apply getRingName_inj.
Qed.

Lemma node_name_identifies_placement_witness :
  getNodeName PegPosUp 0 0 0 1 = getNodeName PegPosDown 4 4 5 5 /\
  ((Ring_isFree 0 0 0 1 = true /\ Ring_isFree 4 4 5 5 = true) \/
   (PegPosUp = PegPosDown /\ 0 = 4 /\ 0 = 4 /\ 0 = 5 /\ 1 = 5)).
Proof.
  split; [reflexivity |].
  apply (node_name_identifies_placement PegPosUp PegPosDown 0 0 0 1 4 4 5 5);
    unfold safeInteger; try lia; reflexivity.
Defined.

(** ** The rings around a peg *)

Lemma generated_sound (pc pr : Z) (r : Ring) :
  In r (generateAllRingsForCell pc pr) ->
  r = mkRing (pegPos r) pc pr (ringCol r) (ringRow r) (rotation r) /\
  validGeometry pc pr (ringCol r) (ringRow r) /\ 0 <= rotation r <= 7.
Proof.
  unfold generateAllRingsForCell, validGeometry. cbv zeta. cbn [app In].
  intros H.
  repeat (destruct H as [<- | H];
          [cbn [mkRing pegPos ringCol ringRow rotation]; rewrite !Z.pow_2_r;
           split; [reflexivity | lia] |]).
  destruct H.
Qed.

Lemma generated_complete (p : PegPos) (pc pr rc rr : Z) :
  validGeometry pc pr rc rr ->
  exists rot, In (mkRing p pc pr rc rr rot) (generateAllRingsForCell pc pr).
Proof.
  unfold validGeometry. rewrite !Z.pow_2_r. intros V.
  pose proof (Z.square_nonneg (pc - rc)) as Sc.
  pose proof (Z.square_nonneg (pr - rr)) as Sr.
  assert (C : -1 <= rc - pc <= 1) by nia.
  assert (R : -1 <= rr - pr <= 1) by nia.
  assert (X : rc = pc - 1 \/ rc = pc \/ rc = pc + 1) by lia.
  assert (Y : rr = pr - 1 \/ rr = pr \/ rr = pr + 1) by lia.
  unfold generateAllRingsForCell. cbv zeta. cbn [app In].
  destruct X as [-> | [-> | ->]], Y as [-> | [-> | ->]]; try lia;
    destruct p; eexists; intuition reflexivity.
Qed.

(** X16.  [generateAllRingsForCell] gives sixteen rings: for each of the eight
    cells a king's move away from the peg cell, one ring per orientation;
    and every placement whose ring cell is a king's move from the peg cell
    is among them. *)
Theorem generated_rings_surround_the_peg (pc pr : Z) :
  List.length (generateAllRingsForCell pc pr) = 16%nat /\
  (forall r, In r (generateAllRingsForCell pc pr) ->
     r = mkRing (pegPos r) pc pr (ringCol r) (ringRow r) (rotation r) /\
     validGeometry pc pr (ringCol r) (ringRow r) /\ 0 <= rotation r <= 7) /\
  (forall p rc rr, validGeometry pc pr rc rr ->
     exists rot, In (mkRing p pc pr rc rr rot) (generateAllRingsForCell pc pr)).
Proof.
  split; [reflexivity | split].
  - apply generated_sound.
  - intros p rc rr. apply generated_complete.
Qed.

(** ** Names and the parser *)

Lemma digit_string (a : Z) :
  0 <= a <= 4 ->
  exists ch, isCoordChar ch /\ coordValue ch = a /\ numToString a = String ch EmptyString.
Proof.
  intros H. unfold isCoordChar.
  assert (C : a = 0 \/ a = 1 \/ a = 2 \/ a = 3 \/ a = 4) by lia.
  destruct C as [-> | [-> | [-> | [-> | ->]]]];
    [exists "0"%char | exists "1"%char | exists "2"%char | exists "3"%char | exists "4"%char];
    (split; [tauto | split; reflexivity]).
Qed.

Lemma orientation_string (p : PegPos) :
  exists ch, isOrientationChar ch /\ orientationOf ch = p /\ pegPosString p = String ch EmptyString.
Proof.
  unfold isOrientationChar.
  destruct p; [exists "U"%char | exists "D"%char]; (split; [tauto | split; reflexivity]).
Qed.

Lemma parsePosition_ring_name (p : PegPos) (pc pr rc rr : Z) :
  0 <= pc <= 4 -> 0 <= pr <= 4 -> 0 <= rc <= 4 -> 0 <= rr <= 4 ->
  parsePosition (getRingName p pc pr rc rr) =
  if ringSizeOk (distSq pr pc rr rc) then Some (PosRing p pc pr rc rr) else None.
Proof.
  intros Ha Hb Hc Hd.
  destruct (orientation_string p) as (cp & Op & <- & Sp).
  destruct (digit_string pc Ha) as (ca & Ca & <- & Sa).
  destruct (digit_string pr Hb) as (cb & Cb & <- & Sb).
  destruct (digit_string rc Hc) as (cc & Cc & <- & Sc).
  destruct (digit_string rr Hd) as (cd & Cd & <- & Sd).
  assert (N : getRingName (orientationOf cp) (coordValue ca) (coordValue cb)
                          (coordValue cc) (coordValue cd) = patternString cp ca cb cc cd).
  { unfold getRingName, positionToName, getCellName. rewrite Sp, Sa, Sb, Sc, Sd. reflexivity. }
  rewrite N. unfold parsePosition.
  now rewrite patternString_not_FREE, (posCheck_pattern cp ca cb cc cd Op Ca Cb Cc Cd).
Qed.

(** X19.  The parser reads back the name of a placement with all coordinates
    between 0 and 4 and the ring cell a king's move from the peg cell. *)
Theorem parsePosition_reads_ring_names (p : PegPos) (pc pr rc rr : Z) :
  0 <= pc <= 4 -> 0 <= pr <= 4 -> 0 <= rc <= 4 -> 0 <= rr <= 4 ->
  validGeometry pc pr rc rr ->
  parsePosition (getRingName p pc pr rc rr) = Some (PosRing p pc pr rc rr).
Proof.
  intros Ha Hb Hc Hd V. rewrite (parsePosition_ring_name p pc pr rc rr Ha Hb Hc Hd).
  apply ringSizeOk_geometry in V. now rewrite V.
Qed.

Lemma parsePosition_reads_ring_names_witness :
  validGeometry 2 3 3 4 /\
  parsePosition (getRingName PegPosDown 2 3 3 4) = Some (PosRing PegPosDown 2 3 3 4).
Proof.
  assert (V : validGeometry 2 3 3 4) by (unfold validGeometry; simpl; lia).
  split; [exact V |].
  apply (parsePosition_reads_ring_names PegPosDown 2 3 3 4); try lia. exact V.
Defined.

(** What an accepted ring string says about the descriptor. *)
Lemma parsePosition_ring_inv (s : string) (p : PegPos) (pc pr rc rr : Z) :
  parsePosition s = Some (PosRing p pc pr rc rr) ->
  s = getRingName p pc pr rc rr /\
  In pc cellRange /\ In pr cellRange /\ validGeometry pc pr rc rr.
Proof.
  unfold parsePosition.
  destruct (String.eqb s "FREE"); [discriminate |].
  destruct (posCheck s) as [[[[[p' a] b] c] d] |] eqn:P; [| discriminate].
  destruct (ringSizeOk (distSq b a d c)) eqn:G; [| discriminate].
  intros H. injection H as -> -> -> -> ->.
  apply posCheck_shape in P as (cp & ca & cb & cc & cd & -> & Hp & Ha & Hb & Hc & Hd).
  split; [symmetry; now apply patternString_ringName |].
  apply ringSizeOk_geometry in G.
  apply parseDigit04_char in Ha as (Ha & -> & _), Hb as (Hb & -> & _).
  unfold isCoordChar in Ha, Hb. unfold cellRange.
  split; [| split; [| exact G]].
  - destruct Ha as [-> | [-> | [-> | [-> | ->]]]]; simpl; tauto.
  - destruct Hb as [-> | [-> | [-> | [-> | ->]]]]; simpl; tauto.
Qed.

Lemma parsePosition_free_inv (s : string) : parsePosition s = Some PosFree -> s = FreeRingName.
Proof.
  unfold parsePosition.
  destruct (String.eqb s "FREE") eqn:E; [intros _; now apply String.eqb_eq |].
  destruct (posCheck s) as [[[[[p' a] b] c] d] |]; [| discriminate].
  destruct (ringSizeOk (distSq b a d c)); discriminate.
Qed.

(** ** The nodes of the built graph *)

Lemma nodeNames_spec (x : string) :
  In x nodeNames <->
  x = FreeRingName \/ exists r, In r allRings /\ isFree r = false /\ x = ring_name r.
Proof.
  unfold nodeNames. cbn [In]. rewrite in_map_iff. split.
  - intros [<- | (r & <- & H)]; [now left | right].
    apply filter_In in H as [H F]. exists r. apply negb_true_iff in F. auto.
  - intros [-> | (r & H & F & ->)]; [now left | right].
    exists r. split; [reflexivity |]. apply filter_In. split; [exact H | now rewrite F].
Qed.

Lemma distinct_NoDup (l : list string) : distinct l = true -> NoDup l.
Proof.
  induction l as [| x l IH]; simpl; [constructor |].
  intros H. apply andb_true_iff in H as [N D]. constructor; [| auto].
  intros X. apply setMem_In in X. rewrite X in N. discriminate N.
Qed.

Lemma built_graph_keys : keys CastDuetGraphNodes = nodeNames.
Proof. vm_compute. reflexivity. Qed.

Lemma nodeNames_distinct : distinct nodeNames = true.
Proof. vm_compute. reflexivity. Qed.

Lemma nodeDataOk_sound (g : Graph) :
  forallb nodeDataOk g = true ->
  forall n node, lookup n g = Some node ->
    name node = n /\
    (n <> FreeRingName -> exists r, ring node = Some r /\ ring_name r = n /\ isFree r = false).
Proof.
  rewrite forallb_forall. intros H n node L.
  specialize (H _ (lookup_In _ _ _ L)). unfold nodeDataOk in H. cbn [fst snd] in H.
  apply andb_true_iff in H as [N R]. apply String.eqb_eq in N. split; [exact N |].
  intros NF. apply orb_true_iff in R as [R | R]; [apply String.eqb_eq in R; contradiction |].
  destruct (ring node) as [r |]; [| discriminate R].
  apply andb_true_iff in R as [R F]. apply String.eqb_eq in R. apply negb_true_iff in F.
  exists r. auto.
Qed.

Lemma built_graph_nodeDataOk : forallb nodeDataOk CastDuetGraphNodes = true.
Proof. vm_compute. reflexivity. Qed.

Lemma built_graph_size : List.length CastDuetGraphNodes = 209%nat.
Proof. vm_compute. reflexivity. Qed.

(** X11.  The table that [parseTopologySketch] builds has 209 entries with
    distinct keys: FREE, and the name of every enumerated ring that is not
    wholly outside the frame, in the order of the enumeration.  Every node
    is stored under its own name, and a node other than FREE carries the
    ring it was made from. *)
Theorem built_graph_nodes :
  List.length CastDuetGraphNodes = 209%nat /\
  NoDup (keys CastDuetGraphNodes) /\
  keys CastDuetGraphNodes =
    FreeRingName :: map ring_name (filter (fun r => negb (isFree r)) allRings) /\
  (forall n, In n (keys CastDuetGraphNodes) <->
     n = FreeRingName \/ exists r, In r allRings /\ isFree r = false /\ n = ring_name r) /\
  (forall n node, lookup n CastDuetGraphNodes = Some node ->
     name node = n /\
     (n <> FreeRingName ->
      exists r, ring node = Some r /\ ring_name r = n /\ isFree r = false)).
Proof.
  split; [exact built_graph_size |].
  split; [rewrite built_graph_keys; exact (distinct_NoDup _ nodeNames_distinct) |].
  split; [exact built_graph_keys |].
  split; [intros n; rewrite built_graph_keys; apply nodeNames_spec |].
  exact (nodeDataOk_sound _ built_graph_nodeDataOk).
Qed.

(** A string that names a node is a key of a table whose keys are
    [nodeNames]. *)
Lemma isNodeString_named (s : string) : isNodeString s = true -> In s nodeNames.
Proof.
  unfold isNodeString.
  destruct (parsePosition s) as [[| p pc pr rc rr] |] eqn:P; [| | discriminate].
  - intros _. apply parsePosition_free_inv in P. subst s. now left.
  - intros F. apply negb_true_iff in F.
    apply parsePosition_ring_inv in P as (-> & Hc & Hr & V).
    destruct (generated_complete p pc pr rc rr V) as [rot G].
    apply nodeNames_spec. right. exists (mkRing p pc pr rc rr rot).
    split; [| split; [exact F | reflexivity]].
    unfold allRings. apply in_flat_map. exists (pc, pr). split; [| exact G].
    unfold allCells. apply in_flat_map. exists pc. split; [exact Hc |].
    apply in_map_iff. exists pr. auto.
Qed.

Lemma all_true_sound (f : string -> bool) (l : list string) (k : string) :
  forallb f l = true -> In k l -> f k = true.
Proof. rewrite forallb_forall. auto. Qed.

Lemma nodeNames_are_node_strings : forallb isNodeString nodeNames = true.
Proof. vm_compute. reflexivity. Qed.

Lemma built_graph_key_iff (s : string) :
  In s (keys CastDuetGraphNodes) <-> isNodeString s = true.
Proof.
  rewrite built_graph_keys. split.
  - apply all_true_sound, nodeNames_are_node_strings.
  - apply isNodeString_named.
Qed.

(** X12.  The keys of the built graph are exactly the strings that
    [parsePosition] accepts as FREE or as a placement that is not wholly
    outside the frame. *)
Theorem nodes_are_the_accepted_placements (s : string) :
  In s (keys CastDuetGraphNodes) <->
  parsePosition s = Some PosFree \/
  exists p pc pr rc rr,
    parsePosition s = Some (PosRing p pc pr rc rr) /\ Ring_isFree pc pr rc rr = false.
Proof.
  rewrite built_graph_key_iff. unfold isNodeString.
  destruct (parsePosition s) as [[| p pc pr rc rr] |]; split; intros H.
  - now left.
  - reflexivity.
  - right. exists p, pc, pr, rc, rr. apply negb_true_iff in H. auto.
  - destruct H as [H | (p' & a & b & c & d & E & F)]; [discriminate H |].
    injection E as -> -> -> -> ->. now rewrite F.
  - discriminate H.
  - destruct H as [H | (p' & a & b & c & d & E & F)]; discriminate.
Qed.

(** ** Moves can be undone *)

Lemma edgesSymmetric_sound (g : Graph) :
  edgesSymmetric g = true -> forall a b, edge g a b -> edge g b a.
Proof.
  unfold edgesSymmetric. rewrite forallb_forall. intros H a b (node & L & Hb).
  specialize (H _ (lookup_In _ _ _ L)). cbn [fst snd] in H.
  rewrite forallb_forall in H. specialize (H b Hb).
  destruct (lookup b g) as [nb |] eqn:Lb; [| discriminate H].
  exists nb. split; [exact Lb | now apply setMem_true_In].
Qed.

Lemma built_graph_edgesSymmetric : edgesSymmetric CastDuetGraphNodes = true.
Proof. vm_compute. reflexivity. Qed.

(** X13.  In the built graph every edge has its reverse: whatever one move
    does, one move undoes. *)
Theorem every_move_can_be_undone (a b : string) :
  edge CastDuetGraphNodes a b -> edge CastDuetGraphNodes b a.
Proof. exact (edgesSymmetric_sound _ built_graph_edgesSymmetric a b). Qed.

Lemma built_graph_sample_edge : edge CastDuetGraphNodes "U(1,1)-(0,1)" "FREE".
Proof.
  eexists. split; [vm_compute; reflexivity |]. apply setMem_true_In. vm_compute. reflexivity.
Qed.

Lemma every_move_can_be_undone_witness :
  edge CastDuetGraphNodes "U(1,1)-(0,1)" "FREE" /\ edge CastDuetGraphNodes "FREE" "U(1,1)-(0,1)".
Proof.
  split; [exact built_graph_sample_edge |].
  exact (every_move_can_be_undone "U(1,1)-(0,1)" "FREE" built_graph_sample_edge).
Defined.

(** ** Edges stay inside the node set, whatever the markers *)

Lemma destinations_cover (r : Ring) (dents : DentName -> option ascii) (x : string) :
  In x (nodeConnectionsWith r dents []) -> In x (destinations r).
Proof.
  intros H. apply nodeConnectionsWith_edges in H. unfold destinations.
  rewrite !in_app_iff. destruct H as [(mv & M & _ & ->) | [(_ & xy & X & F & ->) | ->]].
  - left. now apply in_map.
  - right. left. apply in_map. apply filter_In. auto.
  - right. right. now left.
Qed.

Lemma destinationsNamed_sound (rs : list Ring) :
  destinationsNamed rs = true ->
  forall r x, In r rs -> In x (destinations r) -> In x nodeNames.
Proof.
  unfold destinationsNamed. rewrite forallb_forall. intros H r x R X.
  specialize (H r R). rewrite forallb_forall in H. apply setMem_true_In. auto.
Qed.

Lemma allRings_destinationsNamed : destinationsNamed allRings = true.
Proof. vm_compute. reflexivity. Qed.

(** X15.  Whatever markers the sketch holds, the names that
    [getNodeConnections] puts into the adjacency set of an enumerated ring
    are FREE or names of enumerated rings that are not wholly outside the
    frame: no table of markers can make an edge leave the node set. *)
Theorem edges_stay_in_node_set (dents : DentName -> option ascii) (r : Ring) (x : string) :
  In r allRings -> In x (nodeConnectionsWith r dents []) ->
  x = FreeRingName \/ exists r', In r' allRings /\ isFree r' = false /\ x = ring_name r'.
Proof.
  intros R X. apply nodeNames_spec.
  exact (destinationsNamed_sound _ allRings_destinationsNamed r x R
           (destinations_cover r dents x X)).
Qed.

Lemma edges_stay_in_node_set_witness :
  In (mkRing PegPosUp 1 1 0 1 1) allRings /\
  In "FREE" (nodeConnectionsWith (mkRing PegPosUp 1 1 0 1 1) (fun _ => Some "B"%char) []) /\
  ("FREE" = FreeRingName \/
   exists r', In r' allRings /\ isFree r' = false /\ "FREE" = ring_name r').
Proof.
  assert (R : In (mkRing PegPosUp 1 1 0 1 1) allRings).
  { unfold allRings. apply in_flat_map. exists (1, 1). split; vm_compute; tauto. }
  assert (X : In "FREE" (nodeConnectionsWith (mkRing PegPosUp 1 1 0 1 1)
                           (fun _ => Some "B"%char) [])).
  { apply setMem_true_In. vm_compute. reflexivity. }
  split; [exact R | split; [exact X |]].
  exact (edges_stay_in_node_set (fun _ => Some "B"%char) (mkRing PegPosUp 1 1 0 1 1) "FREE" R X).
Defined.

(** ** The outcomes of a search *)

Lemma findSolution_cases (s t : string) (g : Graph) :
  closed g ->
  match fst (findSolution s t g) with
  | Normal None => parsePosition s = None \/ parsePosition t = None
  | Normal (Some _) =>
      parsePosition s <> None /\ parsePosition t <> None /\ In s (keys g) /\ In t (keys g)
  | TypeError =>
      parsePosition s <> None /\ parsePosition t <> None /\
      (lookup s g = None \/ lookup t g = None)
  | Unfinished => False
  end.
Proof.
  intros C.
  destruct (parsePosition s) as [ps |] eqn:Ps;
    [| rewrite (findSolution_parse_failure s t g (or_introl Ps)); now left].
  destruct (parsePosition t) as [pt |] eqn:Pt;
    [| rewrite (findSolution_parse_failure s t g (or_intror Pt)); now right].
  assert (Ns : parsePosition s <> None) by (rewrite Ps; discriminate).
  assert (Nt : parsePosition t <> None) by (rewrite Pt; discriminate).
  rewrite <- Ps, <- Pt.
  destruct (lookup s g) as [nodeS |] eqn:Ls;
    [| rewrite (findSolution_unknown_source s t g Ns Nt Ls); auto].
  destruct (lookup t g) as [nodeT |] eqn:Lt;
    [| rewrite (findSolution_unknown_target s t g Ns Nt Lt); auto].
  pose proof (lookup_keys _ _ _ Ls) as Ks. pose proof (lookup_keys _ _ _ Lt) as Kt.
  destruct (findSolution_returns_on_known_nodes s t g C Ns Nt Ks Kt) as (sol & g' & E & _).
  rewrite E. cbn [fst]. auto.
Qed.

(** X7.  On a table whose adjacency is closed, [findSolution] ends with a
    [TypeError] exactly when both strings parse and one of them is not a
    key of the table. *)
Theorem findSolution_throws_iff (s t : string) (g : Graph) :
  closed g ->
  (fst (findSolution s t g) = TypeError <->
   parsePosition s <> None /\ parsePosition t <> None /\
   (lookup s g = None \/ lookup t g = None)).
Proof.
  intros C. split.
  - intros H. pose proof (findSolution_cases s t g C) as X. now rewrite H in X.
  - intros (Ns & Nt & [L | L]).
    + now apply findSolution_unknown_source.
    + now apply findSolution_unknown_target.
Qed.

Lemma findSolution_throws_iff_witness :
  fst (findSolution "U(3,1)-(4,1)" "U(0,0)-(0,1)" CastDuetGraphNodes) = TypeError <->
  parsePosition "U(3,1)-(4,1)" <> None /\ parsePosition "U(0,0)-(0,1)" <> None /\
  (lookup "U(3,1)-(4,1)" CastDuetGraphNodes = None \/
   lookup "U(0,0)-(0,1)" CastDuetGraphNodes = None).
Proof.
  exact (findSolution_throws_iff "U(3,1)-(4,1)" "U(0,0)-(0,1)" CastDuetGraphNodes
           built_graph_closed).
Defined.

(** X9.  The run of [findSolution] always ends: with a result, which is a list
    or [undefined], or with a [TypeError]. *)
Theorem findSolution_terminates (s t : string) (g : Graph) :
  (exists result, fst (findSolution s t g) = Normal result) \/
  fst (findSolution s t g) = TypeError.
Proof.
  pose proof (findSolution_finishes s t g) as F.
  destruct (fst (findSolution s t g)) as [result | |]; [left; eauto | now right | contradiction].
Qed.

Lemma not_key_lookup (g : Graph) (n : string) : lookup n g = None -> ~ In n (keys g).
Proof. intros L K. destruct (keys_lookup n g K) as [node X]. congruence. Qed.

Lemma parsed_not_node (s : string) :
  parsePosition s <> None -> isNodeString s = false -> whollyOutside s.
Proof.
  unfold isNodeString, whollyOutside.
  destruct (parsePosition s) as [[| p pc pr rc rr] |]; intros N F;
    [discriminate F | | contradiction].
  exists p, pc, pr, rc, rr. apply negb_false_iff in F. auto.
Qed.

Lemma not_key_outside (s : string) :
  parsePosition s <> None -> lookup s CastDuetGraphNodes = None -> whollyOutside s.
Proof.
  intros N L. apply (parsed_not_node s N).
  apply not_key_lookup in L. rewrite built_graph_key_iff in L.
  now destruct (isNodeString s).
Qed.

Lemma outcomes_when_missing_keys_are_outside (g : Graph) :
  closed g ->
  (forall s, parsePosition s <> None -> lookup s g = None -> whollyOutside s) ->
  forall s t,
    match fst (findSolution s t g) with
    | Normal None => parsePosition s = None \/ parsePosition t = None
    | Normal (Some _) => In s (keys g) /\ In t (keys g)
    | TypeError =>
        parsePosition s <> None /\ parsePosition t <> None /\
        (whollyOutside s \/ whollyOutside t)
    | Unfinished => False
    end.
Proof.
  intros C O s t. pose proof (findSolution_cases s t g C) as X.
  destruct (fst (findSolution s t g)) as [[sol |] | |]; [tauto | exact X | | exact X].
  destruct X as (Ns & Nt & [L | L]); (split; [exact Ns | split; [exact Nt |]]).
  - left. now apply O.
  - right. now apply O.
Qed.

(** X8.  On the built graph, for any two strings: [findSolution] returns
    [undefined] only when one of them does not parse, returns a list only
    when both are nodes, and otherwise, when both parse and one is a
    placement wholly outside the frame, ends with a [TypeError]. *)
Theorem puzzle_outcomes (s t : string) :
  match fst (findSolution s t CastDuetGraphNodes) with
  | Normal None => parsePosition s = None \/ parsePosition t = None
  | Normal (Some _) => In s (keys CastDuetGraphNodes) /\ In t (keys CastDuetGraphNodes)
  | TypeError =>
      parsePosition s <> None /\ parsePosition t <> None /\
      (whollyOutside s \/ whollyOutside t)
  | Unfinished => False
  end.
Proof.
  exact (outcomes_when_missing_keys_are_outside CastDuetGraphNodes
           built_graph_closed not_key_outside s t).
Qed.

(** ** Shortest solutions between any two nodes *)

Lemma findSolution_solves_shortest (g : Graph) :
  closed g -> ~ In "" (keys g) ->
  (forall k, In k (keys g) -> parsePosition k <> None) ->
  (forall n node, lookup n g = Some node -> n <> FreeRingName -> reaches g n FreeRingName) ->
  (forall n, In n (keys g) -> n <> FreeRingName -> reaches g FreeRingName n) ->
  forall s t, In s (keys g) -> In t (keys g) ->
  exists solution,
    fst (findSolution s t g) = Normal (Some solution) /\
    hd_error solution = Some s /\
    (exists pre, solution = (pre ++ [t])%list) /\
    isPath g solution /\
    forall rest, isPath g (s :: rest) -> last rest s = t ->
                 (List.length solution <= List.length (s :: rest))%nat.
Proof.
  intros C Hne KP TF FF s t Ks Kt.
  destruct (findSolution_solves g C Hne KP TF FF s t Ks Kt) as (sol & H & Hd & Last & P).
  exists sol. split; [exact H | split; [exact Hd | split; [exact Last | split; [exact P |]]]].
  intros rest Pr Lr.
  destruct (findSolution_returned s t g sol H) as (b & g1 & node & E & S & L & W).
  pose proof (dijkstra_shortest s g Hne g eq_refl) as X. rewrite E in X.
  assert (P1 : isPath g1 (s :: rest)) by (apply (isPath_skeleton g1 g); auto).
  assert (K1 : In (last rest s) (keys g1)) by (rewrite Lr; eapply lookup_keys; eauto).
  destruct (shortest_lower_bound s g1 X rest s 0 P1 (proj1 X) K1) as (dt & Dt & Le).
  rewrite Lr in Dt. destruct Dt as (node' & L' & D'). rewrite L in L'. injection L' as <-.
  pose proof (walkBack_length s g1 X _ t node dt [t] sol L D' W) as Len.
  cbn [List.length] in Len |- *. lia.
Qed.

(** X1.  Between any two nodes of the built graph [findSolution] returns a
    list that begins with the source, ends with the target, follows edges
    of the graph and is no longer than any other path from the source to
    the target. *)
Theorem puzzle_solution_is_shortest (s t : string) :
  In s (keys CastDuetGraphNodes) -> In t (keys CastDuetGraphNodes) ->
  exists solution,
    fst (findSolution s t CastDuetGraphNodes) = Normal (Some solution) /\
    hd_error solution = Some s /\
    (exists pre, solution = (pre ++ [t])%list) /\
    isPath CastDuetGraphNodes solution /\
    forall rest, isPath CastDuetGraphNodes (s :: rest) -> last rest s = t ->
                 (List.length solution <= List.length (s :: rest))%nat.
Proof.
  exact (findSolution_solves_shortest CastDuetGraphNodes
           built_graph_closed built_graph_no_empty_key
           (fun k => all_parse_sound _ k built_graph_keys_parse)
           (allReachFree_sound 24 _ built_graph_allReachFree)
           (allReachedFromFree_sound 20 _ built_graph_allReachedFromFree) s t).
Qed.

Lemma puzzle_solution_is_shortest_witness :
  exists solution,
    fst (findSolution "D(3,1)-(3,0)" "D(2,2)-(3,1)" CastDuetGraphNodes) =
      Normal (Some solution) /\
    hd_error solution = Some "D(3,1)-(3,0)" /\
    (exists pre, solution = (pre ++ ["D(2,2)-(3,1)"])%list) /\
    isPath CastDuetGraphNodes solution /\
    forall rest, isPath CastDuetGraphNodes ("D(3,1)-(3,0)" :: rest) ->
                 last rest "D(3,1)-(3,0)" = "D(2,2)-(3,1)" ->
                 (List.length solution <= List.length ("D(3,1)-(3,0)" :: rest))%nat.
Proof.
  assert (Ks : In "D(3,1)-(3,0)" (keys CastDuetGraphNodes))
    by (apply setMem_true_In; vm_compute; reflexivity).
  assert (Kt : In "D(2,2)-(3,1)" (keys CastDuetGraphNodes))
    by (apply setMem_true_In; vm_compute; reflexivity).
  exact (puzzle_solution_is_shortest "D(3,1)-(3,0)" "D(2,2)-(3,1)" Ks Kt).
Defined.

(** ** The adjacency of a node, at a node *)

Lemma built_graph_edges_witness :
  exists node r,
    lookup "U(1,1)-(0,1)" CastDuetGraphNodes = Some node /\ ring node = Some r /\
    (In "FREE" (connectsTo node) <->
     (exists mv, In mv (candidateMoves (rotation r) (isCellFree (ringCol r) (ringRow r))) /\
                 markerCompatible (pegPos r) (getCellDents (pegCol r) (pegRow r) (slot mv)) /\
                 "FREE" = moveDestination r mv) \/
     (isCellFree (ringCol r) (ringRow r) = true /\
      exists xy, In xy loopDeltas /\ freeRotationOk r xy = true /\
                 "FREE" = freeRotationTarget r xy) \/
     "FREE" = flipTarget r).
Proof.
  assert (K : In "U(1,1)-(0,1)" (keys CastDuetGraphNodes))
    by (apply setMem_true_In; vm_compute; reflexivity).
  destruct (keys_lookup _ _ K) as [node L].
  assert (NF : "U(1,1)-(0,1)" <> "FREE") by discriminate.
  destruct (built_graph_edges "U(1,1)-(0,1)" "FREE" node L NF) as (r & R & E).
  exists node, r. split; [exact L | split; [exact R | exact E]].
Defined.

(** ** Candidate moves and the edges of a node *)











